(** * AutoFilmProc: the image-correction pipeline of [AFP.py]

    A shallow embedding of the numeric core of [AFP.py] (inversion of a
    scanned negative, border-referenced colour balance, exposure
    normalisation, the batch driver) and the properties its specification
    states about it.

    NumPy computes in IEEE 754 binary64.  The embedding uses the Standard
    Library's executable specification of that arithmetic ([SpecFloat], at
    precision 53 and maximal exponent 1024), so every float of the program
    is computed here bit for bit, NaN and the infinities included.  The
    real numbers appear only in statements and proofs about those floats. *)

From Stdlib Require Import String ZArith List Bool Lia SpecFloat Reals Lra
  Permutation.
Import ListNotations.
Local Open Scope Z_scope.

(** ** binary64 *)

Module Float64.

Definition prec : Z := 53.
Definition emax : Z := 1024.

Definition float64 : Type := spec_float.

Definition add : float64 -> float64 -> float64 := SFadd prec emax.
Definition mul : float64 -> float64 -> float64 := SFmul prec emax.
Definition div : float64 -> float64 -> float64 := SFdiv prec emax.

(** The conversion of an integer, rounded to nearest even. *)
Definition of_Z (n : Z) : float64 := binary_normalize prec emax n 0 false.

Definition nan : float64 := S754_nan.
Definition zero : float64 := S754_zero false.
Definition one : float64 := S754_finite false (2 ^ 52) (-52).

Definition is_nan (x : float64) : bool :=
  match x with S754_nan => true | _ => false end.

(** The integer part of a finite float (rounding toward zero); [None] for
    NaN and the infinities. *)
Definition trunc (x : float64) : option Z :=
  match x with
  | S754_zero _ => Some 0
  | S754_finite s m e =>
      Some (cond_Zopp s
              (match e with
               | Zneg k => Zpos m / 2 ^ Zpos k
               | _ => Zpos m * 2 ^ e
               end))
  | S754_infinity _ | S754_nan => None
  end.

(** [np.maximum] and [np.minimum]: a NaN operand is the result. *)
Definition maximum (x y : float64) : float64 :=
  if is_nan x then x else if is_nan y then y
  else if SFltb x y then y else x.

Definition minimum (x y : float64) : float64 :=
  if is_nan x then x else if is_nan y then y
  else if SFltb y x then y else x.

(** *** The real number a float stands for *)

Definition bpow (e : Z) : R := powerRZ 2 e.

Definition SF2R (x : float64) : R :=
  match x with
  | S754_finite s m e => (IZR (cond_Zopp s (Zpos m)) * bpow e)%R
  | _ => 0%R
  end.

(** A positive normal number in canonical form: a mantissa of 53 bits. *)
Definition canonical (m : positive) (e : Z) : Prop :=
  2 ^ 52 <= Zpos m < 2 ^ 53 /\ -1074 <= e <= 971.

Definition normal (x : float64) : Prop :=
  exists m e, x = S754_finite false m e /\ canonical m e.

(** The same as a test. *)
Definition is_normal (x : float64) : bool :=
  match x with
  | S754_finite false m e =>
      (2 ^ 52 <=? Zpos m) && (Zpos m <? 2 ^ 53) && (-1074 <=? e) && (e <=? 971)
  | _ => false
  end.

(** [y] is a positive normal float nearest to the real [X]: the integer
    [m1] nearest to [X / 2^e0], for the exponent [e0] that puts [X / 2^e0]
    between 2^52 and 2^53, times [2^e0]. *)
Definition rounds_to (X : R) (y : float64) : Prop :=
  exists (m : positive) (e m1 e0 : Z),
    y = S754_finite false m e
    /\ canonical m e
    /\ (bpow 52 <= X * bpow (- e0) < bpow 53)%R
    /\ (Rabs (IZR m1 - X * bpow (- e0)) <= / 2)%R
    /\ (IZR (Zpos m) * bpow e = IZR m1 * bpow e0)%R.

(** The rounding unit, 2^-53. *)
Definition u : R := bpow (-53).

(** When a digit record (an integer part, the first discarded bit and
    whether any later bit is set) stands for the real [x]. *)
Definition located (mrs : shr_record) (x : R) : Prop :=
  0 <= shr_m mrs /\
  match shr_r mrs, shr_s mrs with
  | false, false => x = IZR (shr_m mrs)
  | false, true => (IZR (shr_m mrs) < x < IZR (shr_m mrs) + / 2)%R
  | true, false => x = (IZR (shr_m mrs) + / 2)%R
  | true, true => (IZR (shr_m mrs) + / 2 < x < IZR (shr_m mrs) + 1)%R
  end.

End Float64.

Import Float64.

(** The float literals of the source.  Python reads a decimal literal as the
    nearest binary64, which is what the correctly rounded quotient of two
    exact integers gives. *)
Definition float_0_05 : float64 := div (of_Z 5) (of_Z 100).
Definition float_128_0 : float64 := of_Z 128.
Definition float_1_2 : float64 := div (of_Z 12) (of_Z 10).
Definition float_1_3 : float64 := div (of_Z 13) (of_Z 10).
Definition float_1_5 : float64 := div (of_Z 15) (of_Z 10).

(** ** Pixel buffers *)

(** One pixel: the three entries along axis 2, in the order red, green,
    blue (indices 0, 1, 2). *)
Record rgb (A : Type) : Type := RGB { red : A; green : A; blue : A }.
Arguments RGB {A} _ _ _.
Arguments red {A} _.
Arguments green {A} _.
Arguments blue {A} _.

Inductive channel : Type := Red | Green | Blue.

Definition get {A : Type} (c : channel) (p : rgb A) : A :=
  match c with Red => red p | Green => green p | Blue => blue p end.

Definition set {A : Type} (c : channel) (v : A) (p : rgb A) : rgb A :=
  match c with
  | Red => RGB v (green p) (blue p)
  | Green => RGB (red p) v (blue p)
  | Blue => RGB (red p) (green p) v
  end.

Definition rgb_map {A B : Type} (f : A -> B) (p : rgb A) : rgb B :=
  RGB (f (red p)) (f (green p)) (f (blue p)).

(** A [uint8] array of shape (height, width, 3): the list of its rows, each
    the list of its pixels.  A sample is an integer; the arrays the program
    builds hold samples in 0..255 ([PixelBuffer] below). *)
Definition ndarray : Type := list (list (rgb Z)).

(** A [float64] array of the same shape, and one of shape (height, width). *)
Definition farray : Type := list (list (rgb float64)).
Definition farray2 : Type := list (list float64).

Definition uint8 (s : Z) : Prop := 0 <= s <= 255.

Definition uint8_pixel (p : rgb Z) : Prop :=
  uint8 (red p) /\ uint8 (green p) /\ uint8 (blue p).

Definition PixelBuffer (a : ndarray) : Prop := Forall (Forall uint8_pixel) a.

(** [a.shape[0]] *)
Definition shape0 {A : Type} (a : list (list A)) : Z := Z.of_nat (length a).

(** [a[:, :, c]] *)
Definition take_channel {A : Type} (c : channel) (a : list (list (rgb A)))
  : list (list A) :=
  map (map (get c)) a.

(** [a[:n, :, :]] for [n >= 0] *)
Definition rows_upto {A : Type} (n : Z) (a : list (list A)) : list (list A) :=
  firstn (Z.to_nat n) a.

(** ** The NumPy operations the program uses *)

(** [np.sum] in [float64] is NumPy's pairwise summation
    ([DOUBLE_pairwise_sum]).  Fewer than eight entries are added in the
    order of the array to an accumulator that starts at -0.0.  From eight
    entries on, eight accumulators [r[0]], ..., [r[7]] start with the
    first eight entries and take the following entries in turn, eight at
    a time, while full blocks of eight remain; the accumulators are added
    up as [((r0 + r1) + (r2 + r3)) + ((r4 + r5) + (r6 + r7))], and the
    entries left over are added to that one by one.  More than 128
    entries are cut in two, the first part of [n / 2] entries rounded
    down to a multiple of eight, and the sums of the two parts are added.
    The reduction adds the result to its initial value, -0.0.  (Older
    versions of NumPy start from 0.0 where this has -0.0; only the sign of
    a sum of no entries depends on it, and [np.mean] divides that sum by 0
    into a NaN.  The mean of a [uint8] slice is taken over converted
    blocks of the slice; its partial sums are integers below 2^53, which
    every order of summation gives exactly, see [summed_int].) *)
Definition neg_zero : float64 := S754_zero true.

Fixpoint zip_with {A B C : Type} (f : A -> B -> C) (l : list A) (l' : list B)
  : list C :=
  match l, l' with
  | x :: t, y :: t' => f x y :: zip_with f t t'
  | _, _ => []
  end.

(** [k] rounds of [r[j] += a[i + j]] for [j] from 0 to 7: the accumulators
    and the entries not yet read. *)
Fixpoint add_blocks (k : nat) (r xs : list float64)
  : list float64 * list float64 :=
  match k with
  | O => (r, xs)
  | S k' => add_blocks k' (zip_with add r (firstn 8 xs)) (skipn 8 xs)
  end.

(** The sum of a block of 8 to 128 entries. *)
Definition sum_unrolled (xs : list float64) : float64 :=
  let (r, rest) :=
    add_blocks (length xs / 8 - 1)%nat (firstn 8 xs) (skipn 8 xs) in
  match r with
  | [r0; r1; r2; r3; r4; r5; r6; r7] =>
      fold_left add rest
        (add (add (add r0 r1) (add r2 r3)) (add (add r4 r5) (add r6 r7)))
  | _ => nan
  end.

(** [fuel] bounds the number of nested halvings; the length of the list
    is enough, and the last branch is then never taken. *)
Fixpoint pairwise_sum (fuel : nat) (xs : list float64) : float64 :=
  if (length xs <? 8)%nat then fold_left add xs neg_zero
  else if (length xs <=? 128)%nat then sum_unrolled xs
  else
    match fuel with
    | O => nan
    | S fuel' =>
        let n2 := (length xs / 2 - (length xs / 2) mod 8)%nat in
        add (pairwise_sum fuel' (firstn n2 xs))
            (pairwise_sum fuel' (skipn n2 xs))
    end.

Definition np_sum (xs : list float64) : float64 :=
  add neg_zero (pairwise_sum (length xs) xs).

(** [np.mean] of a flat [float64] sequence: the sum divided by the number
    of entries.  For an empty sequence this is -0.0 / 0.0, a NaN (NumPy
    warns "Mean of empty slice" and raises nothing). *)
Definition np_mean (xs : list float64) : float64 :=
  div (np_sum xs) (of_Z (Z.of_nat (length xs))).

(** [np.mean(a)] of a [uint8] array of shape (h, w): the entries are
    converted to [float64] and averaged. *)
Definition np_mean_uint8 (a : list (list Z)) : float64 :=
  np_mean (map of_Z (concat a)).

(** [np.mean(a)] of a [float64] array of shape (h, w) *)
Definition np_mean_float64 (a : farray2) : float64 := np_mean (concat a).

(** [np.mean(a, axis=2)] of a [uint8] array of shape (h, w, 3) *)
Definition np_mean_axis2 (a : ndarray) : farray2 :=
  map (map (fun p => np_mean (map of_Z [red p; green p; blue p]))) a.

(** [np.clip(x, 0, 255)]: [np.minimum(np.maximum(x, 0), 255)] *)
Definition clip_0_255 (x : float64) : float64 :=
  minimum (maximum x (of_Z 0)) (of_Z 255).

(** [a * k] for a [uint8] array of shape (h, w) and a [float64] scalar: a
    [float64] array *)
Definition times (a : list (list Z)) (k : float64) : farray2 :=
  map (map (fun s => mul (of_Z s) k)) a.

(** [a * k] for a [uint8] array of shape (h, w, 3) *)
Definition times3 (a : ndarray) (k : float64) : farray :=
  map (map (rgb_map (fun s => mul (of_Z s) k))) a.

(** [np.clip(a, 0, 255)] *)
Definition np_clip (a : farray2) : farray2 := map (map clip_0_255) a.
Definition np_clip3 (a : farray) : farray := map (map (rgb_map clip_0_255)) a.

Fixpoint replace_nth {A : Type} (n : nat) (x : A) (l : list A) : list A :=
  match l, n with
  | [], _ => []
  | _ :: t, O => x :: t
  | h :: t, S n' => h :: replace_nth n' x t
  end.

(** ** Python objects, exceptions and the store *)

Inductive exn : Type :=
| InvalidInputError      (* the specification's error kinds; *)
| DegenerateChannelError (* the source defines and raises neither *)
| OverflowError          (* [int] of an infinity *)
| ValueError             (* [int] of a NaN *)
| NameError              (* a reference that denotes no object *)
| IOError (msg : string) (* raised by a collaborator *).

Inductive outcome (A : Type) : Type :=
| Returned (a : A)
| Raised (e : exn).
Arguments Returned {A} _.
Arguments Raised {A} _.

(** A PIL image in mode RGB: its pixel data, the (h, w, 3) [uint8] array
    [np.array] makes of it.  [Image.open] also returns images of other
    modes (L, P, RGBA, ...), of which [np.array] makes an array of another
    shape; on those the stages raise [IndexError] or work on a fourth
    channel.  They are outside this model: every statement about a
    decoded image below is about an image in mode RGB. *)
Definition Image : Type := ndarray.

(** What the user is shown and what reaches the disk, in order. *)
Inductive event : Type :=
| Saved (save_path : string) (image : Image)
    (* [enhanced_image.save(save_path)] *)
| WarningBox (file_name : string) (e : exn)
    (* the batch loop's [QMessageBox.warning], which names the file and the
       exception *)
| InformationBox
    (* the batch's closing [QMessageBox.information]; its two texts are
       constants *)
| NotLoadedBox
    (* [process_image]'s [QMessageBox.warning] when no image is loaded *)
| Displayed (image : Image)
    (* [self.display_image(image)] *).

(** A reference to an array is its index in the store; arrays are
    allocated at the end. *)
Definition ref : Type := nat.

Record world : Type := World { arrays : list ndarray; events : list event }.

(** Computations: the world is threaded through, and survives an
    exception. *)
Definition M (A : Type) : Type := world -> outcome A * world.

Definition ret {A : Type} (a : A) : M A := fun w => (Returned a, w).

Definition raise {A : Type} (e : exn) : M A := fun w => (Raised e, w).

Definition bind {A B : Type} (m : M A) (k : A -> M B) : M B :=
  fun w =>
    match m w with
    | (Returned a, w') => k a w'
    | (Raised e, w') => (Raised e, w')
    end.

(** [try: body  except Exception as e: handler(e)] *)
Definition try_except {A : Type} (body : M A) (handler : exn -> M A) : M A :=
  fun w =>
    match body w with
    | (Returned a, w') => (Returned a, w')
    | (Raised e, w') => handler e w'
    end.

(** A collaborator's result enters the computation. *)
Definition lift {A : Type} (o : outcome A) : M A := fun w => (o, w).

Notation "x <- m ;; k" := (bind m (fun x => k))
  (at level 61, m at next level, right associativity).
Notation "m ;;; k" := (bind m (fun _ => k))
  (at level 61, right associativity).

(** [for x in l: body(x)] *)
Fixpoint for_each {A : Type} (l : list A) (body : A -> M unit) : M unit :=
  match l with
  | [] => ret tt
  | x :: t => body x ;;; for_each t body
  end.

(** A new array object. *)
Definition alloc (a : ndarray) : M ref :=
  fun w => (Returned (length (arrays w)), World (arrays w ++ [a]) (events w)).

(** The array a reference denotes. *)
Definition deref (r : ref) : M ndarray :=
  fun w =>
    match nth_error (arrays w) r with
    | Some a => (Returned a, w)
    | None => (Raised NameError, w)
    end.

(** The array a reference denotes is overwritten in place. *)
Definition store (r : ref) (a : ndarray) : M unit :=
  fun w => (Returned tt, World (replace_nth r a (arrays w)) (events w)).

Definition emit (e : event) : M unit :=
  fun w => (Returned tt, World (arrays w) (events w ++ [e])).

(** [int(x)] *)
Definition int (x : float64) : M Z :=
  match trunc x with
  | Some z => ret z
  | None => raise (if is_nan x then ValueError else OverflowError)
  end.

(** [a.copy()] *)
Definition copy (a : ref) : M ref := x <- deref a ;; alloc x.

(** [os.path.join(a, b)] *)
Definition os_path_join (a b : string) : string := (a ++ "/" ++ b)%string.

(** [not s] for a string *)
Definition is_empty (s : string) : bool :=
  match s with EmptyString => true | _ => false end.

Section Pipeline.

(** What the platform's conversion from [float64] to [uint8] stores for a
    value that has no integer part (NaN, an infinity).  C leaves it
    undefined, NumPy warns "invalid value encountered in cast" and stores
    what the hardware gave; the byte kept is its residue modulo 256. *)
Variable invalid_cast : Z.

(** The collaborators: the file system, the decoder and the encoder, and
    PIL's three enhancers, each [ImageEnhance.X(image).enhance(factor)]. *)
Variable os_listdir : string -> list string.
Variable os_path_isfile : string -> bool.
Variable Image_open : string -> outcome Image.
Variable Image_save : string -> Image -> outcome unit.
Variable Brightness Contrast Sharpness : float64 -> Image -> Image.

(** The cast to [uint8] ([astype(np.uint8)], and the store into a [uint8]
    array): the integer part, modulo 256. *)
Definition to_uint8 (x : float64) : Z :=
  match trunc x with
  | Some z => z mod 256
  | None => invalid_cast mod 256
  end.

(** [a.astype(np.uint8)] *)
Definition astype_uint8 (a : farray) : ndarray :=
  map (map (rgb_map to_uint8)) a.

(** [a[:, :, c] = v] for a [uint8] array [a] and a [float64] array [v] of
    shape (h, w): every entry of [v] is cast and stored in place. *)
Definition setitem (a : ref) (c : channel) (v : farray2) : M unit :=
  x <- deref a ;;
  store a (zip_with (zip_with (fun p s => set c (to_uint8 s) p)) x v).

(** [np.array(image)]: a new array with the image's pixel data *)
Definition np_array (image : Image) : M ref := alloc image.

(** [Image.fromarray(a)] *)
Definition Image_fromarray (a : ref) : M Image := deref a.

(** ** The stages *)

(** Step 1 of [process_image] and of the batch loop (lines 144 and 181):
    [inverted_image = 255 - image_array], a new [uint8] array. *)
Definition invert (image_array : ref) : M ref :=
  a <- deref image_array ;;
  alloc (map (map (rgb_map (fun s => (255 - s) mod 256))) a).

Definition auto_balance_color (image_array : ref) : M ref :=
  a <- deref image_array ;;
  border_height <- int (mul (of_Z (shape0 a)) float_0_05) ;;
  let border_area := rows_upto border_height a in
  let mean_red := np_mean_uint8 (take_channel Red border_area) in
  let mean_green := np_mean_uint8 (take_channel Green border_area) in
  let mean_blue := np_mean_uint8 (take_channel Blue border_area) in
  let mean_gray := div (add (add mean_red mean_green) mean_blue) (of_Z 3) in
  let red_correction := div mean_gray mean_red in
  let green_correction := div mean_gray mean_green in
  let blue_correction := div mean_gray mean_blue in
  balanced_image <- copy image_array ;;
  b <- deref balanced_image ;;
  setitem balanced_image Red
    (np_clip (times (take_channel Red b) red_correction)) ;;;
  b <- deref balanced_image ;;
  setitem balanced_image Green
    (np_clip (times (take_channel Green b) green_correction)) ;;;
  b <- deref balanced_image ;;
  setitem balanced_image Blue
    (np_clip (times (take_channel Blue b) blue_correction)) ;;;
  ret balanced_image.

Definition auto_adjust_exposure (image_array : ref) : M ref :=
  a <- deref image_array ;;
  let gray := np_mean_axis2 a in
  let mean_brightness := np_mean_float64 gray in
  let target_brightness := float_128_0 in
  let adjustment_factor := div target_brightness mean_brightness in
  let adjusted_image := times3 a adjustment_factor in
  let adjusted_image := np_clip3 adjusted_image in
  alloc (astype_uint8 adjusted_image).

Definition auto_enhance_image (image_pil : Image) : Image :=
  let image_enhanced := Brightness float_1_2 image_pil in
  let image_enhanced := Contrast float_1_3 image_enhanced in
  let image_enhanced := Sharpness float_1_5 image_enhanced in
  image_enhanced.


(** [batch_process_images]: the two folders are what the file dialogs
    returned. *)
Definition batch_process_images (folder_path save_folder : string) : M unit :=
  if is_empty folder_path then ret tt
  else if is_empty save_folder then ret tt
  else
    for_each (os_listdir folder_path) (fun file_name =>
      let file_path := os_path_join folder_path file_name in
      if negb (os_path_isfile file_path) then ret tt
      else
        try_except
          (image <- lift (Image_open file_path) ;;
           image_array <- np_array image ;;
           inverted_image <- invert image_array ;;
           balanced_image <- auto_balance_color inverted_image ;;
           exposure_adjusted_image <- auto_adjust_exposure balanced_image ;;
           exposure_adjusted_image_pil <- Image_fromarray exposure_adjusted_image ;;
           let enhanced_image := auto_enhance_image exposure_adjusted_image_pil in
           let save_path := os_path_join save_folder file_name in
           lift (Image_save save_path enhanced_image) ;;;
           emit (Saved save_path enhanced_image))
          (fun e => emit (WarningBox file_name e))) ;;;
    emit InformationBox.

End Pipeline.

(** A stage called on a buffer the caller holds: the buffer is the only
    object of the store, and the result is the array the returned reference
    denotes. *)
Definition run (stage : ref -> M ref) (image_array : ndarray)
  : outcome ndarray :=
  match stage 0%nat (World [image_array] []) with
  | (Returned r, w) =>
      match nth_error (arrays w) r with
      | Some a => Returned a
      | None => Raised NameError
      end
  | (Raised e, _) => Raised e
  end.

(** ** What the stages compute *)

(** The array [invert] returns. *)
Definition inverted (a : ndarray) : ndarray :=
  map (map (rgb_map (fun s => (255 - s) mod 256))) a.

(** The three channel means of the border region. *)
Definition border_means (border_area : ndarray) : rgb float64 :=
  RGB (np_mean_uint8 (take_channel Red border_area))
      (np_mean_uint8 (take_channel Green border_area))
      (np_mean_uint8 (take_channel Blue border_area)).

Definition mean_gray_of (means : rgb float64) : float64 :=
  div (add (add (red means) (green means)) (blue means)) (of_Z 3).

(** The three gains, [red_correction], [green_correction] and
    [blue_correction]. *)
Definition corrections (means : rgb float64) : rgb float64 :=
  rgb_map (div (mean_gray_of means)) means.

(** A sample scaled by [k], clamped and stored as [uint8]. *)
Definition rescaled (invalid_cast : Z) (k : float64) (s : Z) : Z :=
  to_uint8 invalid_cast (clip_0_255 (mul (of_Z s) k)).

Definition apply_corrections (invalid_cast : Z) (k : rgb float64) (a : ndarray)
  : ndarray :=
  map (map (fun p =>
              RGB (rescaled invalid_cast (red k) (red p))
                  (rescaled invalid_cast (green k) (green p))
                  (rescaled invalid_cast (blue k) (blue p)))) a.

(** The array [auto_balance_color] returns, for a border of
    [border_height] rows. *)
Definition balanced (invalid_cast : Z) (border_height : Z) (a : ndarray)
  : ndarray :=
  apply_corrections invalid_cast
    (corrections (border_means (rows_upto border_height a))) a.

Definition mean_brightness_of (a : ndarray) : float64 :=
  np_mean_float64 (np_mean_axis2 a).

Definition adjustment_factor_of (a : ndarray) : float64 :=
  div float_128_0 (mean_brightness_of a).

(** The array [auto_adjust_exposure] returns. *)
Definition exposed (invalid_cast : Z) (a : ndarray) : ndarray :=
  map (map (rgb_map (rescaled invalid_cast (adjustment_factor_of a)))) a.

(** The samples of a buffer, of one channel or of all three, in the order
    of the array, and their sum. *)
Definition samples_of (c : channel) (a : ndarray) : list Z :=
  concat (take_channel c a).

Definition all_samples (a : ndarray) : list Z :=
  flat_map (flat_map (fun p => [red p; green p; blue p])) a.

Definition total (xs : list Z) : Z := fold_right Z.add 0 xs.

Definition all_black (a : ndarray) : Prop :=
  Forall (Forall (fun p => p = RGB 0 0 0)) a.

(** The buffer of the shape of [a] whose samples are all [v]. *)
Definition filled (v : Z) (a : ndarray) : ndarray :=
  map (map (fun _ => RGB v v v)) a.


(** A float that is a zero or a NaN. *)
Definition zero_or_nan (x : float64) : Prop :=
  match x with S754_zero _ | S754_nan => True | _ => False end.

(** ** What the batch driver does with one directory entry *)

Section BatchEntry.

Variable invalid_cast : Z.
Variable os_path_isfile : string -> bool.
Variable Image_open : string -> outcome Image.
Variable Image_save : string -> Image -> outcome unit.
Variable Brightness Contrast Sharpness : float64 -> Image -> Image.

(** The four stages on a decoded image: the enhanced image, or the
    exception [int] raised for the border height. *)
Definition pipeline (image : Image) : outcome Image :=
  let inverted_image := inverted image in
  let x := mul (of_Z (shape0 inverted_image)) float_0_05 in
  match trunc x with
  | Some border_height =>
      Returned
        (auto_enhance_image Brightness Contrast Sharpness
           (exposed invalid_cast
              (balanced invalid_cast border_height inverted_image)))
  | None => Raised (if is_nan x then ValueError else OverflowError)
  end.

(** The events one entry of the listing adds: none for an entry that is
    not a regular file, one [Saved] for a file that went through, one
    [WarningBox] naming the file for one that raised. *)
Definition entry_events (folder_path save_folder file_name : string)
  : list event :=
  let file_path := os_path_join folder_path file_name in
  let save_path := os_path_join save_folder file_name in
  if negb (os_path_isfile file_path) then []
  else
    match Image_open file_path with
    | Raised e => [WarningBox file_name e]
    | Returned image =>
        match pipeline image with
        | Raised e => [WarningBox file_name e]
        | Returned enhanced_image =>
            match Image_save save_path enhanced_image with
            | Raised e => [WarningBox file_name e]
            | Returned _ => [Saved save_path enhanced_image]
            end
        end
    end.

(** The body of the loop of [batch_process_images] for one entry of the
    listing, with its [try] and [except]. *)
Definition loop_body (folder_path save_folder file_name : string) : M unit :=
  let file_path := os_path_join folder_path file_name in
  if negb (os_path_isfile file_path) then ret tt
  else
    try_except
      (image <- lift (Image_open file_path) ;;
       image_array <- np_array image ;;
       inverted_image <- invert image_array ;;
       balanced_image <- auto_balance_color invalid_cast inverted_image ;;
       exposure_adjusted_image <- auto_adjust_exposure invalid_cast balanced_image ;;
       exposure_adjusted_image_pil <- Image_fromarray exposure_adjusted_image ;;
       let enhanced_image :=
         auto_enhance_image Brightness Contrast Sharpness
           exposure_adjusted_image_pil in
       let save_path := os_path_join save_folder file_name in
       lift (Image_save save_path enhanced_image) ;;;
       emit (Saved save_path enhanced_image))
      (fun e => emit (WarningBox file_name e)).

End BatchEntry.

(** The number of warnings among some events: the files that failed. *)
Definition failures (l : list event) : nat :=
  length (filter (fun e => match e with WarningBox _ _ => true | _ => false end) l).

(** A folder of five files for the examples: the listing, a decoder for
    which the files of [corrupt] are unreadable, an encoder that always
    succeeds, and enhancers that change nothing. *)
Definition demo_listdir (_ : string) : list string :=
  ["1.png"; "2.png"; "3.png"; "4.png"; "5.png"]%string.

Definition demo_isfile (_ : string) : bool := true.

Definition demo_open (corrupt : list string) (file_path : string)
  : outcome Image :=
  if existsb (String.eqb file_path) corrupt
  then Raised (IOError "cannot identify image file")
  else Returned [[RGB 200 200 200]].

Definition demo_save (_ : string) (_ : Image) : outcome unit := Returned tt.

Definition demo_enhance (_ : float64) (image : Image) : Image := image.

(** The batch run over that folder, from an empty world. *)
Definition demo_batch (corrupt : list string) : outcome unit * world :=
  batch_process_images 0 demo_listdir demo_isfile (demo_open corrupt) demo_save
    demo_enhance demo_enhance demo_enhance "in" "out" (World [] []).

(** ** Example buffers *)

(** The buffer of [h] rows that are all [row]. *)
Definition rows_of (h : nat) (row : list (rgb Z)) : ndarray := repeat row h.

(** A light-grey frame whose border row has one pixel brighter by one: the
    three channel means of the border are all 200.2. *)
Definition grey_frame : ndarray :=
  rows_of 20 [RGB 201 201 201; RGB 200 200 200; RGB 200 200 200;
              RGB 200 200 200; RGB 200 200 200].

(** A frame with a uniform colour cast. *)
Definition tinted_frame : ndarray := rows_of 20 [RGB 100 200 200].

(** A frame whose red channel is half saturated, half black. *)
Definition contrasty_frame : ndarray :=
  rows_of 20 [RGB 255 250 250; RGB 0 250 250].

(** One white pixel among three black ones. *)
Definition sparse_frame : ndarray :=
  [[RGB 255 255 255; RGB 0 0 0; RGB 0 0 0; RGB 0 0 0]].

(** ** Notions for the numeric properties *)

(** A float that holds the integer [n] exactly ([n >= 0]). *)
Definition int_valued (y : float64) (n : Z) : Prop :=
  (n = 0 /\ y = zero) \/ (0 < n /\ normal y /\ SF2R y = IZR n).

(** The scaled sample [s * k] is not above 255: [np.clip] leaves it. *)
Definition unclamped (k : float64) (s : Z) : bool :=
  negb (SFltb (of_Z 255) (mul (of_Z s) k)).

Definition unclamped_pixel (k : rgb float64) (p : rgb Z) : bool :=
  unclamped (red k) (red p) && unclamped (green k) (green p)
  && unclamped (blue k) (blue p).

(** The border region of a buffer and the gains the balancer computes
    from it. *)
Definition border_of (a : ndarray) : ndarray := rows_upto (shape0 a / 20) a.

Definition gains_of (a : ndarray) : rgb float64 :=
  corrections (border_means (border_of a)).

(** The number of pixels of a region. *)
Definition pixels (a : ndarray) : Z := Z.of_nat (length (concat a)).

(** The sum of a list of reals. *)
Definition Rsum (l : list R) : R := fold_right Rplus 0%R l.

(** A float that is 0.0 or a positive normal number. *)
Definition nonneg_float (y : float64) : Prop := y = zero \/ normal y.

(** The gray level of a pixel, [np.mean] along axis 2. *)
Definition gray (p : rgb Z) : float64 :=
  np_mean (map of_Z [red p; green p; blue p]).

(** ** Sums in any order *)

(** [summed k y l]: the float [y] is the sum of the entries of [l], each
    taken once, by additions nested at most [k] deep, in some order. *)
Inductive summed : nat -> float64 -> list float64 -> Prop :=
| summed_one (x : float64) : summed 0 x [x]
| summed_add (k : nat) (x y : float64) (lx ly : list float64) :
    summed k x lx -> summed k y ly -> summed (S k) (add x y) (lx ++ ly)
| summed_deeper (k : nat) (x : float64) (l : list float64) :
    summed k x l -> summed (S k) x l
| summed_perm (k : nat) (x : float64) (l l' : list float64) :
    Permutation l l' -> summed k x l -> summed k x l'.

(** ** Further example buffers *)

(** A dim frame. *)
Definition dim_frame : ndarray := rows_of 20 [RGB 30 60 90].

(** A frame of two colours whose gray levels are both 128. *)
Definition midgray_frame : ndarray :=
  rows_of 4 [RGB 100 128 156; RGB 28 128 228].

(** A frame whose border row has no red at all. *)
Definition redless_border_frame : ndarray :=
  [RGB 0 200 200; RGB 0 100 50] :: rows_of 19 [RGB 10 200 200; RGB 0 100 50].

(** ** Clamping *)

(** ** Facts about binary64 rounding *)

Lemma bpow_pos e : (0 < bpow e)%R.
Proof. apply powerRZ_lt. lra. Qed.

Lemma bpow_add a b : bpow (a + b) = (bpow a * bpow b)%R.
Proof. apply powerRZ_add. lra. Qed.

Lemma bpow_0 : bpow 0 = 1%R.
Proof. reflexivity. Qed.

Lemma bpow_1 : bpow 1 = 2%R.
Proof. unfold bpow. simpl. lra. Qed.

Lemma bpow_m1 : bpow (-1) = (/ 2)%R.
Proof. unfold bpow. simpl. f_equal. lra. Qed.

Lemma bpow_opp a : bpow (- a) = (/ bpow a)%R.
Proof. apply powerRZ_neg'. Qed.

Lemma bpow_IZR n : 0 <= n -> bpow n = IZR (2 ^ n).
Proof.
  intros H. unfold bpow. 
  rewrite <- (Z2Nat.id n) at 1 by assumption.
  rewrite <- pow_powerRZ. rewrite pow_IZR. rewrite Z2Nat.id by assumption. reflexivity.
Qed.

Lemma bpow_le a b : a <= b -> (bpow a <= bpow b)%R.
Proof.
  intros H. replace b with (a + (b - a)) by lia. rewrite bpow_add.
  rewrite (bpow_IZR (b - a)) by lia.
  assert (1 <= 2 ^ (b - a)) by (assert (0 < 2 ^ (b-a)) by (apply Z.pow_pos_nonneg; lia); lia).
  apply IZR_le in H0. pose proof (bpow_pos a). nra.
Qed.

Lemma bpow_lt a b : a < b -> (bpow a < bpow b)%R.
Proof.
  intros H. replace b with (a + 1 + (b - a - 1)) by lia. rewrite !bpow_add, bpow_1.
  pose proof (bpow_le 0 (b - a - 1) ltac:(lia)). rewrite bpow_0 in H0.
  pose proof (bpow_pos a). nra.
Qed.

Lemma bpow_lt_inv a b : (bpow a < bpow b)%R -> a < b.
Proof.
  intros H. destruct (Z_lt_le_dec a b) as [|Hle]; [assumption|].
  apply bpow_le in Hle. lra.
Qed.

Lemma Rabs_le_between (a b : R) : (Rabs a <= b)%R -> (- b <= a <= b)%R.
Proof. unfold Rabs. destruct (Rcase_abs a); lra. Qed.

Lemma digits2_size p : digits2_pos p = Pos.size p.
Proof. induction p; simpl; congruence. Qed.

Lemma digits2_bounds p : 2 ^ (Zpos (digits2_pos p) - 1) <= Zpos p < 2 ^ Zpos (digits2_pos p).
Proof.
  rewrite digits2_size. split.
  - pose proof (Pos.size_le p).
    assert (2 ^ Z.pos (Pos.size p) <= 2 * Z.pos p).
    { change 2 with (Zpos 2) at 1. rewrite <- Pos2Z.inj_pow. 
      change (2 * Z.pos p) with (Z.pos (p~0)). apply Pos2Z.pos_le_pos. exact H. }
    replace (Z.pos (Pos.size p)) with (Z.pos (Pos.size p) - 1 + 1) in H0 by lia.
    rewrite Z.pow_add_r in H0 by lia. lia.
  - pose proof (Pos.size_gt p). change 2 with (Zpos 2). rewrite <- Pos2Z.inj_pow.
    apply Pos2Z.pos_lt_pos. exact H.
Qed.

Lemma digits2_unique p d : 2 ^ (d - 1) <= Zpos p < 2 ^ d -> Zpos (digits2_pos p) = d.
Proof.
  intros [H1 H2]. pose proof (digits2_bounds p) as [H3 H4].
  set (D := Zpos (digits2_pos p)) in *.
  assert (0 < d). { destruct (Z_lt_le_dec 0 d); [assumption|]. 
    assert (2 ^ d <= 1). { destruct (Z.eq_dec d 0); [subst; simpl; lia|]. rewrite Z.pow_neg_r by lia. lia. } lia. }
  destruct (Z_lt_le_dec D d).
  - assert (2 ^ D <= 2 ^ (d - 1)) by (apply Z.pow_le_mono_r; lia). lia.
  - destruct (Z_lt_le_dec d D); [|lia].
    assert (2 ^ d <= 2 ^ (D - 1)) by (apply Z.pow_le_mono_r; lia). lia.
Qed.

Lemma located_bounds mrs x :
  located mrs x -> (IZR (shr_m mrs) <= x < IZR (shr_m mrs) + 1)%R.
Proof.
  destruct mrs as [m r s]. unfold located. cbn [shr_m shr_r shr_s].
  intros [_ H]. destruct r, s; lra.
Qed.

Lemma shr_1_located mrs x : located mrs x -> located (shr_1 mrs) (x / 2).
Proof.
  destruct mrs as [m r s]. unfold located. cbn [shr_m shr_r shr_s].
  intros [H0 H].
  destruct m as [|p|p]; [| destruct p as [p|p|] | lia];
    cbn [shr_1 shr_m shr_r shr_s orb];
    try (change (Z.pos p~1) with (2 * Z.pos p + 1) in H;
         rewrite plus_IZR, mult_IZR in H);
    try (change (Z.pos p~0) with (2 * Z.pos p) in H; rewrite mult_IZR in H);
    (split; [lia|]); destruct r, s; cbn [orb]; lra.
Qed.

Lemma iter_shr_1_located n mrs x :
  located mrs x -> located (SpecFloat.iter_pos shr_1 n mrs) (x * bpow (- Zpos n)).
Proof.
  revert mrs x. induction n as [n IH|n IH|]; intros mrs x H; cbn [SpecFloat.iter_pos].
  - apply shr_1_located in H. apply IH in H. apply IH in H.
    replace (x * bpow (- Z.pos n~1))%R
      with (x / 2 * bpow (- Z.pos n) * bpow (- Z.pos n))%R; [exact H|].
    replace (- Z.pos n~1) with (- 1 + (- Z.pos n + - Z.pos n)) by lia.
    rewrite !bpow_add. rewrite bpow_m1. field.
  - apply IH in H. apply IH in H.
    replace (x * bpow (- Z.pos n~0))%R
      with (x * bpow (- Z.pos n) * bpow (- Z.pos n))%R; [exact H|].
    replace (- Z.pos n~0) with (- Z.pos n + - Z.pos n) by lia.
    rewrite !bpow_add. ring.
  - apply shr_1_located in H.
    change (- Z.pos 1) with (-1). rewrite bpow_m1. exact H.
Qed.

Lemma round_nearest_even_spec mrs x :
  located mrs x ->
  let m' := round_nearest_even (shr_m mrs) (loc_of_shr_record mrs) in
  (Rabs (IZR m' - x) <= / 2)%R /\ (m' = shr_m mrs \/ m' = shr_m mrs + 1).
Proof.
  destruct mrs as [m r s]. unfold located. cbn [shr_m shr_r shr_s].
  intros [H0 H]. cbn zeta.
  destruct r, s; cbn [loc_of_shr_record round_nearest_even].
  - split; [|right; reflexivity]. rewrite plus_IZR. apply Rabs_le. lra.
  - destruct (Z.even m); (split; [|auto]); try rewrite plus_IZR;
      apply Rabs_le; lra.
  - split; [|left; reflexivity]. apply Rabs_le. lra.
  - split; [|left; reflexivity]. apply Rabs_le. lra.
Qed.

Lemma fexp_normal e : -1074 <= e - 53 -> fexp prec emax e = e - 53.
Proof. intros H. unfold fexp, emin, prec, emax. lia. Qed.

Lemma binary_round_aux_spec (mx ex : Z) (lx : location) (x : R) :
  located (shr_record_of_loc mx lx) x ->
  0 < mx ->
  53 <= Zdigits2 mx ->
  (bpow (-1021) <= x * bpow ex < bpow 1023)%R ->
  rounds_to (x * bpow ex) (binary_round_aux prec emax false mx ex lx).
Proof.
  intros Hloc Hpos Hd Hval.
  set (d := Zdigits2 mx) in *.
  assert (Hx : (bpow (d - 1) <= x < bpow d)%R).
  { apply located_bounds in Hloc.
    assert (Hm : shr_m (shr_record_of_loc mx lx) = mx)
      by (destruct lx as [|[| |]]; reflexivity).
    rewrite Hm in Hloc.
    destruct mx as [|p|p]; try lia.
    pose proof (digits2_bounds p) as [B1 B2]. fold (Zdigits2 (Zpos p)) in B1, B2.
    fold d in B1, B2.
    rewrite !bpow_IZR by lia.
    apply IZR_le in B1. assert (B3 : Zpos p + 1 <= 2 ^ d) by lia.
    apply IZR_le in B3. rewrite plus_IZR in B3. lra. }
  assert (Hlo : -1074 <= ex + d - 53).
  { assert (bpow (-1021) < bpow (d + ex))%R.
    { rewrite bpow_add. pose proof (bpow_pos ex). nra. }
    apply bpow_lt_inv in H. lia. }
  assert (Hhi : ex + d <= 1023).
  { assert (bpow (d - 1 + ex) < bpow 1023)%R.
    { rewrite bpow_add. pose proof (bpow_pos ex). nra. }
    apply bpow_lt_inv in H. lia. }
  set (n := d - 53).
  set (t := (x * bpow (- n))%R).
  assert (Ht : (bpow 52 <= t < bpow 53)%R).
  { unfold t. replace 52 with ((d - 1) + - n) by (unfold n; lia).
    replace 53 with (d + - n) by (unfold n; lia).
    rewrite !bpow_add. pose proof (bpow_pos (- n)). nra. }
  assert (Ht' : (x * bpow ex * bpow (- (ex + n)) = t)%R).
  { unfold t. rewrite Rmult_assoc, <- bpow_add. f_equal. f_equal. lia. }
  unfold rounds_to, binary_round_aux, shr_fexp.
  assert (Hm : shr_m (shr_record_of_loc mx lx) = mx)
    by (destruct lx as [|[| |]]; reflexivity).
  fold d. rewrite fexp_normal by lia.
  replace (d + ex - 53 - ex) with n by (unfold n; lia).
  assert (Hshr : exists mrs, shr (shr_record_of_loc mx lx) ex n = (mrs, ex + n)
                             /\ located mrs t).
  { unfold shr. destruct n as [|p|p] eqn:En.
    - eexists; split; [rewrite Z.add_0_r; reflexivity|].
      unfold t. change (bpow (- 0)) with 1%R. rewrite Rmult_1_r. exact Hloc.
    - eexists; split; [reflexivity|]. apply iter_shr_1_located. exact Hloc.
    - unfold n in En. lia. }
  destruct Hshr as [mrs [-> Hmrs]].
  pose proof (round_nearest_even_spec mrs t Hmrs) as [Hr1 Hr2]. cbn zeta in Hr1, Hr2.
  set (m1 := round_nearest_even (shr_m mrs) (loc_of_shr_record mrs)) in *.
  assert (Hmb : 2 ^ 52 <= shr_m mrs < 2 ^ 53).
  { apply located_bounds in Hmrs. rewrite !bpow_IZR in Ht by lia.
    split.
    - assert (IZR (2 ^ 52) < IZR (shr_m mrs + 1))%R by (rewrite plus_IZR; lra).
      apply lt_IZR in H. lia.
    - apply lt_IZR. lra. }
  assert (Hm1 : 2 ^ 52 <= m1 <= 2 ^ 53) by lia.
  destruct (Z.eq_dec m1 (2 ^ 53)) as [E|NE].
  - exists (Pos.pow 2 52), (ex + n + 1), m1, (ex + n).
    rewrite Ht'. rewrite E.
    assert (Hf : fexp prec emax (Zdigits2 (2 ^ 53) + (ex + n)) - (ex + n) = 1).
    { change (Zdigits2 (2 ^ 53)) with 54. rewrite fexp_normal by (unfold n; lia). lia. }
    cbv zeta. rewrite Hf. cbn [shr].
    change (SpecFloat.iter_pos shr_1 1 (shr_record_of_loc (2 ^ 53) loc_Exact))
      with (Build_shr_record (2 ^ 52) false false).
    cbn [shr_m]. change (2 ^ 52) with (Zpos (Pos.pow 2 52)) at 1.
    cbv iota beta.
    assert (Hle : (ex + n + 1 <=? emax - prec) = true)
      by (apply Z.leb_le; unfold emax, prec, n; lia).
    rewrite Hle.
    split; [reflexivity|]. split; [split; [vm_compute; split; congruence | unfold n; lia]|].
    split; [exact Ht|]. split; [rewrite <- E; exact Hr1|].
    rewrite bpow_add, bpow_1. change (Z.pos (2 ^ 52)) with (2 ^ 52).
    rewrite <- (bpow_IZR 52), <- (bpow_IZR 53) by lia.
    replace (bpow 53) with (bpow 52 * 2)%R; [ring|].
    rewrite <- bpow_1, <- bpow_add. reflexivity.
  - assert (Hm1' : 2 ^ 52 <= m1 < 2 ^ 53) by lia.
    destruct m1 as [|p1|p1] eqn:Ep; try lia.
    exists p1, (ex + n), (Zpos p1), (ex + n).
    rewrite Ht'.
    assert (Hf : fexp prec emax (Zdigits2 (Zpos p1) + (ex + n)) - (ex + n) = 0).
    { cbn [Zdigits2]. rewrite (digits2_unique p1 53) by (change (53 - 1) with 52; lia).
      rewrite fexp_normal by (unfold n; lia). lia. }
    cbv zeta. rewrite Hf. cbn [shr shr_record_of_loc shr_m].
    assert (Hle : (ex + n <=? emax - prec) = true)
      by (apply Z.leb_le; unfold emax, prec, n; lia).
    rewrite Hle.
    split; [reflexivity|]. split; [split; [lia | unfold n; lia]|].
    split; [exact Ht|]. split; [exact Hr1|]. reflexivity.
Qed.

(** Consequences of [rounds_to]. *)

Lemma rounds_to_SF2R X y :
  rounds_to X y ->
  exists (m1 e0 : Z),
    (bpow 52 <= X * bpow (- e0) < bpow 53)%R
    /\ (Rabs (IZR m1 - X * bpow (- e0)) <= / 2)%R
    /\ SF2R y = (IZR m1 * bpow e0)%R.
Proof.
  intros (m & e & m1 & e0 & -> & _ & H1 & H2 & H3).
  exists m1, e0. split; [exact H1|]. split; [exact H2|]. exact H3.
Qed.

Lemma rounds_to_pos X y : rounds_to X y -> (0 < X)%R.
Proof.
  intros (m & e & m1 & e0 & _ & _ & [H1 _] & _).
  pose proof (bpow_pos 52). pose proof (bpow_pos (- e0)). nra.
Qed.

(** The relative error is at most 2^-53. *)
Lemma rounds_to_error X y :
  rounds_to X y -> (Rabs (SF2R y - X) <= bpow (-53) * X)%R.
Proof.
  intros H. destruct (rounds_to_SF2R _ _ H) as (m1 & e0 & [Ht _] & Hr & ->).
  set (t := (X * bpow (- e0))%R) in *.
  assert (HX : X = (t * bpow e0)%R).
  { unfold t. rewrite Rmult_assoc, <- bpow_add. replace (- e0 + e0) with 0 by lia.
    rewrite bpow_0. ring. }
  rewrite HX. replace (IZR m1 * bpow e0 - t * bpow e0)%R with ((IZR m1 - t) * bpow e0)%R by ring.
  rewrite Rabs_mult. rewrite (Rabs_pos_eq (bpow e0)) by (left; apply bpow_pos).
  pose proof (bpow_pos e0).
  assert (/ 2 <= bpow (-53) * t)%R.
  { replace (/ 2)%R with (bpow (-53) * bpow 52)%R.
    - pose proof (bpow_pos (-53)). nra.
    - rewrite <- bpow_add. change (-53 + 52) with (-1). apply bpow_m1. }
  nra.
Qed.

Lemma rounds_to_normal X y : rounds_to X y -> normal y.
Proof. intros (m & e & m1 & e0 & -> & H & _). exists m, e. auto. Qed.

Lemma digits2_gt p k : 2 ^ k <= Zpos p -> k < Zpos (digits2_pos p).
Proof.
  intros H. pose proof (digits2_bounds p) as [_ B].
  destruct (Z_lt_le_dec k (Zpos (digits2_pos p))) as [|Hle]; [assumption|].
  assert (2 ^ Zpos (digits2_pos p) <= 2 ^ k) by (apply Z.pow_le_mono_r; lia). lia.
Qed.

Lemma located_exact m : 0 <= m -> located (shr_record_of_loc m loc_Exact) (IZR m).
Proof. intros H. split; [exact H | reflexivity]. Qed.

Lemma pos_iter_xO p k : Zpos (Pos.iter xO p k) = Zpos p * 2 ^ Zpos k.
Proof.
  induction k as [|k IH] using Pos.peano_ind.
  - cbn [Pos.iter]. change (2 ^ 1) with 2. lia.
  - rewrite Pos.iter_succ. change (Zpos (Pos.iter xO p k)~0) with (2 * Zpos (Pos.iter xO p k)).
    rewrite IH. rewrite Pos2Z.inj_succ. rewrite Z.pow_succ_r by lia. ring.
Qed.

Lemma binary_round_spec (p : positive) (e : Z) :
  (bpow (-1021) <= IZR (Zpos p) * bpow e < bpow 1023)%R ->
  rounds_to (IZR (Zpos p) * bpow e) (binary_round prec emax false p e).
Proof.
  intros Hval. unfold binary_round.
  set (d := Zpos (digits2_pos p)).
  pose proof (digits2_bounds p) as [B1 B2]. fold d in B1, B2.
  assert (Hd0 : 0 < d) by (unfold d; lia).
  assert (Hlo : -1074 <= d + e - 53).
  { assert (bpow (-1021) < bpow (d + e))%R.
    { rewrite bpow_add. rewrite (bpow_IZR d) by lia.
      apply IZR_lt in B2. pose proof (bpow_pos e). nra. }
    apply bpow_lt_inv in H. lia. }
  rewrite fexp_normal by lia.
  unfold shl_align.
  destruct (d + e - 53 - e) as [|k|k] eqn:Ek.
  - replace (IZR (Zpos p) * bpow e)%R with (IZR (Zpos p) * bpow e)%R by reflexivity.
    apply binary_round_aux_spec; [apply located_exact; lia | lia | cbn [Zdigits2]; fold d; lia | exact Hval].
  - apply binary_round_aux_spec; [apply located_exact; lia | lia | cbn [Zdigits2]; fold d; lia | exact Hval].
  - assert (Hk : Zpos k = 53 - d) by lia.
    replace (IZR (Zpos p) * bpow e)%R
      with (IZR (Zpos (Pos.iter xO p k)) * bpow (d + e - 53))%R.
    + apply binary_round_aux_spec.
      * apply located_exact; lia.
      * lia.
      * cbn [Zdigits2]. rewrite (digits2_unique _ 53); [lia|].
        rewrite pos_iter_xO, Hk.
        replace (2 ^ (53 - 1)) with (2 ^ (d - 1) * 2 ^ (53 - d))
          by (rewrite <- Z.pow_add_r by lia; f_equal; lia).
        replace (2 ^ 53) with (2 ^ d * 2 ^ (53 - d))
          by (rewrite <- Z.pow_add_r by lia; f_equal; lia).
        assert (0 < 2 ^ (53 - d)) by (apply Z.pow_pos_nonneg; lia). nia.
      * replace (IZR (Zpos (Pos.iter xO p k)) * bpow (d + e - 53))%R
          with (IZR (Zpos p) * bpow e)%R; [exact Hval|].
        rewrite pos_iter_xO, mult_IZR, <- bpow_IZR by lia. rewrite Rmult_assoc, <- bpow_add.
        f_equal. f_equal. lia.
    + rewrite pos_iter_xO, mult_IZR, <- bpow_IZR by lia. rewrite Rmult_assoc, <- bpow_add.
      f_equal. f_equal. lia.
Qed.

Lemma SF2R_normal x : normal x -> (bpow (-1022) <= SF2R x < bpow 1024)%R.
Proof.
  intros (m & e & -> & [Hm He]). cbn [SF2R cond_Zopp].
  destruct Hm as [M1 M2]. apply IZR_le in M1. apply IZR_lt in M2.
  rewrite <- !bpow_IZR in M1, M2 by lia.
  pose proof (bpow_le (-1074) e ltac:(lia)). pose proof (bpow_le e 971 ltac:(lia)).
  pose proof (bpow_pos e). pose proof (bpow_pos 52).
  split.
  - replace (-1022) with (52 + -1074) by lia. rewrite bpow_add. nra.
  - replace 1024 with (53 + 971) by lia. rewrite bpow_add.
    pose proof (bpow_pos 53). nra.
Qed.

Lemma SF2R_normal_pos x : normal x -> (0 < SF2R x)%R.
Proof. intros H. apply SF2R_normal in H. pose proof (bpow_pos (-1022)). lra. Qed.

Lemma mul_spec x y :
  normal x -> normal y ->
  (bpow (-1021) <= SF2R x * SF2R y < bpow 1023)%R ->
  rounds_to (SF2R x * SF2R y) (SFmul prec emax x y).
Proof.
  intros (mx & ex & -> & [Hmx Hex]) (my & ey & -> & [Hmy Hey]) Hval.
  cbn [SF2R cond_Zopp SFmul xorb] in *.
  replace (IZR (Zpos mx) * bpow ex * (IZR (Zpos my) * bpow ey))%R
    with (IZR (Zpos (mx * my)) * bpow (ex + ey))%R in *
    by (rewrite Pos2Z.inj_mul, mult_IZR, bpow_add; ring).
  apply binary_round_aux_spec; [apply located_exact; lia | lia | | exact Hval].
  cbn [Zdigits2]. assert (52 + 52 < Zpos (digits2_pos (mx * my))); [|lia].
  apply digits2_gt. rewrite Pos2Z.inj_mul, Z.pow_add_r by lia. nia.
Qed.

Lemma add_spec x y :
  normal x -> normal y ->
  (SF2R x + SF2R y < bpow 1023)%R ->
  rounds_to (SF2R x + SF2R y) (SFadd prec emax x y).
Proof.
  intros Hx Hy Hval.
  pose proof (SF2R_normal x Hx) as Bx. pose proof (SF2R_normal y Hy) as By.
  destruct Hx as (mx & ex & -> & [Hmx Hex]). destruct Hy as (my & ey & -> & [Hmy Hey]).
  cbn [SF2R cond_Zopp SFadd] in *.
  set (ez := Z.min ex ey).
  assert (Hsx : Zpos (fst (shl_align mx ex ez)) = Zpos mx * 2 ^ (ex - ez)).
  { unfold shl_align. destruct (ez - ex) as [|k|k] eqn:Ek; cbn [fst].
    - replace (ex - ez) with 0 by (clear - Ek; lia). symmetry; apply Z.mul_1_r.
    - clear - Ek. unfold ez in *. lia.
    - rewrite pos_iter_xO. f_equal. f_equal. clear - Ek. lia. }
  assert (Hsy : Zpos (fst (shl_align my ey ez)) = Zpos my * 2 ^ (ey - ez)).
  { unfold shl_align. destruct (ez - ey) as [|k|k] eqn:Ek; cbn [fst].
    - replace (ey - ez) with 0 by (clear - Ek; lia). symmetry; apply Z.mul_1_r.
    - clear - Ek. unfold ez in *. lia.
    - rewrite pos_iter_xO. f_equal. f_equal. clear - Ek. lia. }
  set (a := fst (shl_align mx ex ez)) in *. set (b := fst (shl_align my ey ez)) in *.
  change (Zpos a + Zpos b) with (Zpos (a + b)). cbn [binary_normalize].
  assert (Hv : (IZR (Zpos (a + b)) * bpow ez
                = IZR (Zpos mx) * bpow ex + IZR (Zpos my) * bpow ey)%R).
  { rewrite Pos2Z.inj_add, plus_IZR, Hsx, Hsy, !mult_IZR.
    rewrite <- !bpow_IZR by (unfold ez; lia).
    rewrite Rmult_plus_distr_r, !Rmult_assoc, <- !bpow_add.
    replace (ex - ez + ez) with ex by lia. replace (ey - ez + ez) with ey by lia.
    reflexivity. }
  rewrite <- Hv. apply binary_round_spec. rewrite Hv.
  pose proof (bpow_pos (-1022)).
  assert (bpow (-1021) <= bpow (-1022) + bpow (-1022))%R.
  { replace (-1021) with (-1022 + 1) by lia. rewrite bpow_add, bpow_1. lra. }
  lra.
Qed.

Lemma new_location_located (nb k q : Z) :
  0 < nb -> 0 <= k < nb -> 0 <= q ->
  located (shr_record_of_loc q (new_location nb k)) (IZR q + IZR k / IZR nb).
Proof.
  intros Hnb Hk Hq.
  set (z := (IZR k / IZR nb)%R).
  assert (Hnb' : (0 < IZR nb)%R) by (apply IZR_lt; exact Hnb).
  assert (Hz : (z * IZR nb = IZR k)%R) by (unfold z; field; lra).
  unfold new_location.
  destruct (Z.even nb) eqn:Ev; unfold new_location_even, new_location_odd;
    destruct (Z.eqb_spec k 0) as [E|NE].
  - assert (Hz0 : z = 0%R) by (unfold z; rewrite E; field; lra).
    rewrite Hz0. split; cbn; [lia | lra].
  - assert (Hkpos : (0 < IZR k)%R) by (apply IZR_lt; lia).
    destruct (Z.compare_spec (2 * k) nb) as [C|C|C];
      (split; [cbn; exact Hq|]); cbn [shr_record_of_loc shr_m shr_r shr_s].
    + apply (f_equal IZR) in C. rewrite mult_IZR in C. nra.
    + apply IZR_lt in C. rewrite mult_IZR in C. nra.
    + apply IZR_lt in C. rewrite mult_IZR in C.
      assert (IZR k < IZR nb)%R by (apply IZR_lt; lia). nra.
  - assert (Hz0 : z = 0%R) by (unfold z; rewrite E; field; lra).
    rewrite Hz0. split; cbn; [lia | lra].
  - assert (Hkpos : (0 < IZR k)%R) by (apply IZR_lt; lia).
    assert (Hodd : 2 * k <> nb).
    { intros <-. rewrite Z.even_mul in Ev. discriminate. }
    destruct (Z.compare_spec (2 * k + 1) nb) as [C|C|C];
      (split; [cbn; exact Hq|]); cbn [shr_record_of_loc shr_m shr_r shr_s].
    + assert (C' : 2 * k < nb) by lia.
      apply IZR_lt in C'. rewrite mult_IZR in C'. nra.
    + assert (C' : 2 * k < nb) by lia.
      apply IZR_lt in C'. rewrite mult_IZR in C'. nra.
    + assert (C' : nb < 2 * k) by lia.
      apply IZR_lt in C'. rewrite mult_IZR in C'.
      assert (IZR k < IZR nb)%R by (apply IZR_lt; lia). nra.
Qed.

Lemma div_spec x y :
  normal x -> normal y ->
  (bpow (-1021) <= SF2R x / SF2R y < bpow 1023)%R ->
  rounds_to (SF2R x / SF2R y) (SFdiv prec emax x y).
Proof.
  intros (mx & ex & -> & [Hmx Hex]) (my & ey & -> & [Hmy Hey]) Hval.
  cbn [SF2R cond_Zopp SFdiv xorb] in *.
  unfold SFdiv_core_binary. cbn [Zdigits2].
  rewrite (digits2_unique mx 53), (digits2_unique my 53) by (change (53 - 1) with 52; lia).
  assert (Hmx' : (bpow 52 <= IZR (Zpos mx) < bpow 53)%R).
  { rewrite !bpow_IZR by lia. split; [apply IZR_le | apply IZR_lt]; lia. }
  assert (Hmy' : (bpow 52 <= IZR (Zpos my) < bpow 53)%R).
  { rewrite !bpow_IZR by lia. split; [apply IZR_le | apply IZR_lt]; lia. }
  pose proof (bpow_pos 52) as P52.
  assert (Hq : (IZR (Zpos mx) * bpow ex / (IZR (Zpos my) * bpow ey)
                = IZR (Zpos mx) / IZR (Zpos my) * bpow (ex - ey))%R).
  { unfold Z.sub. rewrite bpow_add, bpow_opp. field.
    repeat split; first [apply Rgt_not_eq, bpow_pos | lra]. }
  rewrite Hq in *.
  assert (Hratio : (/ 2 < IZR (Zpos mx) / IZR (Zpos my) < 2)%R).
  { assert (B53 : bpow 53 = (2 * bpow 52)%R).
    { change 53 with (1 + 52). rewrite bpow_add, bpow_1. reflexivity. }
    split.
    - apply Rmult_lt_reg_r with (IZR (Zpos my)); [lra|].
      unfold Rdiv. rewrite Rmult_assoc, Rinv_l by lra. lra.
    - apply Rmult_lt_reg_r with (IZR (Zpos my)); [lra|].
      unfold Rdiv. rewrite Rmult_assoc, Rinv_l by lra. lra. }
  assert (Hlo : -1021 <= ex - ey).
  { assert (bpow (-1021) < bpow (1 + (ex - ey)))%R.
    { rewrite bpow_add, bpow_1. pose proof (bpow_pos (ex - ey)). nra. }
    apply bpow_lt_inv in H. lia. }
  replace (53 + ex - (53 + ey)) with (ex - ey) by lia.
  rewrite fexp_normal by lia.
  rewrite Z.min_l by lia.
  replace (ex - ey - (ex - ey - 53)) with 53 by lia.
  cbv iota beta.
  rewrite Z.shiftl_mul_pow2 by lia.
  pose proof (Z_div_mod (Zpos mx * 2 ^ 53) (Zpos my) ltac:(lia)) as Hdm.
  destruct (Z.div_eucl (Zpos mx * 2 ^ 53) (Zpos my)) as [q r].
  destruct Hdm as [Hdm Hr].
  assert (Hqlo : 2 ^ 52 <= q) by nia.
  replace (IZR (Zpos mx) / IZR (Zpos my) * bpow (ex - ey))%R
    with ((IZR q + IZR r / IZR (Zpos my)) * bpow (ex - ey - 53))%R in *.
  - apply binary_round_aux_spec.
    + apply new_location_located; lia.
    + lia.
    + destruct q as [|pq|pq]; try lia. cbn [Zdigits2].
      assert (52 < Zpos (digits2_pos pq)) by (apply digits2_gt; lia). lia.
    + exact Hval.
  - replace (IZR q + IZR r / IZR (Zpos my))%R
      with (IZR (Zpos mx) * bpow 53 / IZR (Zpos my))%R.
    + unfold Z.sub at 1. rewrite (bpow_add (ex + - ey)), (bpow_opp 53).
      fold (ex - ey). field.
      repeat split; first [apply Rgt_not_eq, bpow_pos | lra].
    + rewrite (bpow_IZR 53), <- mult_IZR, Hdm, plus_IZR, mult_IZR by lia.
      field. lra.
Qed.

Lemma of_Z_spec (n : Z) :
  0 < n -> (IZR n < bpow 1023)%R ->
  rounds_to (IZR n) (binary_normalize prec emax n 0 false).
Proof.
  intros Hn Hhi. destruct n as [|p|p]; try lia. cbn [binary_normalize].
  replace (IZR (Zpos p)) with (IZR (Zpos p) * bpow 0)%R by (rewrite bpow_0; ring).
  apply binary_round_spec. rewrite bpow_0, Rmult_1_r. split; [|exact Hhi].
  assert (1 <= IZR (Zpos p))%R by (apply IZR_le; lia).
  pose proof (bpow_le (-1021) 0 ltac:(lia)). rewrite bpow_0 in H0. lra.
Qed.

(** A value that needs no rounding is represented exactly. *)
Lemma rounds_to_exact (X : R) (y : spec_float) (j k : Z) :
  rounds_to X y ->
  X = (IZR j * bpow k)%R ->
  (X < bpow (53 + k))%R ->
  SF2R y = X.
Proof.
  intros H HX Hk.
  destruct (rounds_to_SF2R _ _ H) as (m1 & e0 & [Ht1 Ht2] & Hr & ->).
  assert (He0 : e0 <= k).
  { assert (bpow (52 + e0) < bpow (53 + k))%R.
    { rewrite bpow_add. 
      assert (X = X * bpow (- e0) * bpow e0)%R.
      { rewrite Rmult_assoc, <- bpow_add. replace (- e0 + e0) with 0 by lia.
        rewrite bpow_0. ring. }
      pose proof (bpow_pos e0). nra. }
    apply bpow_lt_inv in H0. lia. }
  assert (Ht : (X * bpow (- e0) = IZR (j * 2 ^ (k - e0)))%R).
  { rewrite HX, mult_IZR, <- bpow_IZR by lia. rewrite Rmult_assoc, <- bpow_add.
    f_equal. }
  rewrite Ht in Hr. rewrite <- minus_IZR in Hr. 
  assert (m1 = j * 2 ^ (k - e0)).
  { assert (Hz : (Rabs (IZR (m1 - j * 2 ^ (k - e0))) < 1)%R) by lra.
    rewrite <- abs_IZR in Hz. apply lt_IZR in Hz. lia. }
  subst m1. rewrite HX, mult_IZR, <- bpow_IZR by lia.
  rewrite Rmult_assoc, <- bpow_add. f_equal. f_equal. lia.
Qed.

Lemma SFltb_normal x y :
  normal x -> normal y -> (SFltb x y = true <-> (SF2R x < SF2R y)%R).
Proof.
  intros (mx & ex & -> & [Hmx Hex]) (my & ey & -> & [Hmy Hey]).
  cbn [SF2R cond_Zopp]. unfold SFltb, SFcompare.
  assert (Hmx' : (bpow 52 <= IZR (Zpos mx) < bpow 53)%R).
  { rewrite !bpow_IZR by lia. split; [apply IZR_le | apply IZR_lt]; lia. }
  assert (Hmy' : (bpow 52 <= IZR (Zpos my) < bpow 53)%R).
  { rewrite !bpow_IZR by lia. split; [apply IZR_le | apply IZR_lt]; lia. }
  assert (B53 : bpow 53 = (2 * bpow 52)%R).
  { change 53 with (1 + 52). rewrite bpow_add, bpow_1. reflexivity. }
  pose proof (bpow_pos 52) as P52.
  pose proof (bpow_pos ex) as Pex. pose proof (bpow_pos ey) as Pey.
  destruct (Z.compare_spec ex ey) as [E|L|G].
  - subst ey. change (Pos.compare_cont Eq mx my) with (Pos.compare mx my).
    destruct (Pos.compare_spec mx my) as [E|L|G].
    + subst. split; [discriminate | lra].
    + split; [intros _|reflexivity].
      assert (IZR (Zpos mx) < IZR (Zpos my))%R by (apply IZR_lt; lia). nra.
    + split; [discriminate|]. intros H.
      assert (IZR (Zpos my) < IZR (Zpos mx))%R by (apply IZR_lt; lia). nra.
  - split; [intros _|reflexivity].
    assert (2 * bpow ex <= bpow ey)%R.
    { rewrite <- bpow_1, <- bpow_add. apply bpow_le. lia. }
    nra.
  - split; [discriminate|]. intros H.
    assert (2 * bpow ey <= bpow ex)%R.
    { rewrite <- bpow_1, <- bpow_add. apply bpow_le. lia. }
    nra.
Qed.

Lemma trunc_normal x :
  normal x ->
  exists z, trunc x = Some z /\ (IZR z <= SF2R x < IZR z + 1)%R.
Proof.
  intros (m & e & -> & _). cbn [trunc SF2R cond_Zopp].
  eexists. split; [reflexivity|].
  destruct e as [|k|k].
  - rewrite bpow_0. change (2 ^ 0) with 1. rewrite Z.mul_1_r. lra.
  - rewrite mult_IZR, <- bpow_IZR by lia. lra.
  - pose proof (Z_div_mod (Zpos m) (2 ^ Zpos k) ltac:(apply Z.lt_gt, Z.pow_pos_nonneg; lia)) as H.
    unfold Z.div. destruct (Z.div_eucl (Zpos m) (2 ^ Zpos k)) as [q r].
    destruct H as [H1 [H2 H3]]. rewrite H1.
    change (Z.neg k) with (- Z.pos k). rewrite bpow_opp.
    rewrite plus_IZR, mult_IZR, <- bpow_IZR by lia.
    pose proof (bpow_pos (Zpos k)) as P.
    apply IZR_le in H2. apply IZR_lt in H3. rewrite <- bpow_IZR in H3 by lia.
    assert (E : ((bpow (Z.pos k) * IZR q + IZR r) * / bpow (Z.pos k)
                 = IZR q + IZR r * / bpow (Z.pos k))%R) by (field; lra).
    rewrite E.
    assert (0 <= IZR r * / bpow (Z.pos k) < 1)%R.
    { split.
      - apply Rmult_le_pos; [lra|]. left. apply Rinv_0_lt_compat. exact P.
      - apply Rmult_lt_reg_r with (bpow (Z.pos k)); [exact P|].
        rewrite Rmult_assoc, Rinv_l by lra. lra. }
    lra.
Qed.

(** Rounding never crosses an integer from above. *)
Lemma rounds_to_ge_int (X : R) (y : spec_float) (j : Z) :
  rounds_to X y -> (IZR j <= X)%R -> (X < bpow 52)%R -> (IZR j <= SF2R y)%R.
Proof.
  intros H Hj Hk.
  destruct (rounds_to_SF2R _ _ H) as (m1 & e0 & [Ht1 Ht2] & Hr & ->).
  assert (He0 : e0 <= 0).
  { assert (bpow (52 + e0) < bpow (52 + 1))%R.
    { rewrite !bpow_add, bpow_1.
      assert (X = X * bpow (- e0) * bpow e0)%R.
      { rewrite Rmult_assoc, <- bpow_add. replace (- e0 + e0) with 0 by lia.
        rewrite bpow_0. ring. }
      pose proof (bpow_pos e0). pose proof (bpow_pos 52). nra. }
    apply bpow_lt_inv in H0. lia. }
  assert (Hj' : (IZR (j * 2 ^ (- e0)) <= X * bpow (- e0))%R).
  { rewrite mult_IZR, <- bpow_IZR by lia. pose proof (bpow_pos (- e0)). nra. }
  assert (j * 2 ^ (- e0) <= m1).
  { apply Rabs_le_between in Hr.
    assert (IZR (j * 2 ^ (- e0)) < IZR (m1 + 1))%R by (rewrite plus_IZR; lra).
    apply lt_IZR in H0. lia. }
  apply IZR_le in H0. rewrite mult_IZR, <- bpow_IZR in H0 by lia.
  pose proof (bpow_pos e0).
  assert (bpow (- e0) * bpow e0 = 1)%R.
  { rewrite <- bpow_add. replace (- e0 + e0) with 0 by lia. apply bpow_0. }
  apply (Rmult_le_compat_r (bpow e0)) in H0; [|lra].
  rewrite Rmult_assoc, H2 in H0. lra.
Qed.

(** ** The border height *)

Lemma normal_of_is_normal x : is_normal x = true -> normal x.
Proof.
  destruct x as [| | |[|] m e]; try discriminate. cbn [is_normal].
  rewrite !andb_true_iff, !Z.leb_le, Z.ltb_lt. intros [[[H1 H2] H3] H4].
  exists m, e. split; [reflexivity|]. split; lia.
Qed.

Lemma bpow_neg_IZR n : 0 <= n -> bpow (- n) = (/ IZR (2 ^ n))%R.
Proof. intros H. rewrite bpow_opp, bpow_IZR by assumption. reflexivity. Qed.

Lemma IZR_lt_bpow (n k : Z) : 0 <= k -> n < 2 ^ k -> (IZR n < bpow k)%R.
Proof. intros Hk H. rewrite bpow_IZR by assumption. apply IZR_lt. exact H. Qed.

Lemma of_Z_exact (n : Z) :
  0 < n < 2 ^ 53 -> normal (of_Z n) /\ SF2R (of_Z n) = IZR n.
Proof.
  intros [H1 H2].
  assert (H : rounds_to (IZR n) (of_Z n)).
  { apply of_Z_spec; [exact H1|].
    apply Rlt_trans with (bpow 53); [apply IZR_lt_bpow; lia | apply bpow_lt; lia]. }
  split; [exact (rounds_to_normal _ _ H)|].
  apply (rounds_to_exact _ _ n 0 H).
  - rewrite bpow_0. ring.
  - apply IZR_lt_bpow; lia.
Qed.

Lemma trunc_unique (y : float64) (k : Z) :
  normal y -> (IZR k <= SF2R y < IZR k + 1)%R -> trunc y = Some k.
Proof.
  intros Hy [H1 H2]. destruct (trunc_normal y Hy) as (z & -> & [H3 H4]).
  f_equal.
  assert (IZR z < IZR (k + 1))%R by (rewrite plus_IZR; lra).
  assert (IZR k < IZR (z + 1))%R by (rewrite plus_IZR; lra).
  apply lt_IZR in H, H0. lia.
Qed.

Lemma float_0_05_value :
  normal float_0_05
  /\ SF2R float_0_05 = (7205759403792794 / 144115188075855872)%R.
Proof.
  split.
  - apply normal_of_is_normal. vm_compute. reflexivity.
  - change float_0_05 with (S754_finite false 7205759403792794 (-57)).
    cbn [SF2R cond_Zopp]. change (-57) with (- (57)).
    rewrite bpow_neg_IZR by lia. change (2 ^ 57) with 144115188075855872.
    reflexivity.
Qed.

Lemma u_value : bpow (-53) = (/ 9007199254740992)%R.
Proof.
  change (-53) with (- (53)). rewrite bpow_neg_IZR by lia. reflexivity.
Qed.

(** [int(h * 0.05)] is the integer quotient of [h] by 20. *)
Lemma border_height_spec (h : Z) :
  0 <= h < 2 ^ 31 -> trunc (mul (of_Z h) float_0_05) = Some (h / 20).
Proof.
  intros [H0 H1]. destruct (Z.eq_dec h 0) as [->|Hne]; [reflexivity|].
  destruct (of_Z_exact h ltac:(lia)) as [Nh Vh].
  destruct float_0_05_value as [Nc Vc].
  assert (Hh : (1 <= IZR h < 2147483648)%R).
  { split; [apply IZR_le; lia | apply IZR_lt; exact H1]. }
  assert (Hb1 : (bpow (-1021) <= / 1024)%R).
  { apply Rle_trans with (bpow (-10)); [apply bpow_le; lia|].
    change (-10) with (- (10)). rewrite bpow_neg_IZR by lia.
    change (2 ^ 10) with 1024. lra. }
  assert (Hb2 : (2147483648 <= bpow 52)%R).
  { apply Rle_trans with (bpow 31); [rewrite bpow_IZR by lia; change (2 ^ 31) with 2147483648; lra|].
    apply bpow_le. lia. }
  assert (Hb3 : (bpow 52 < bpow 1023)%R) by (apply bpow_lt; lia).
  assert (Hr : rounds_to (SF2R (of_Z h) * SF2R float_0_05) (mul (of_Z h) float_0_05)).
  { apply mul_spec; [exact Nh | exact Nc |]. rewrite Vh, Vc. lra. }
  rewrite Vh, Vc in Hr.
  set (X := (IZR h * (7205759403792794 / 144115188075855872))%R) in *.
  pose proof (Z_div_mod_eq_full h 20) as Hdiv.
  pose proof (Z.mod_pos_bound h 20 ltac:(lia)) as Hmod.
  set (k := h / 20) in *. set (r := h mod 20) in *.
  assert (Hk : (IZR h = 20 * IZR k + IZR r)%R).
  { rewrite Hdiv at 1. rewrite plus_IZR, mult_IZR. reflexivity. }
  assert (Hr' : (0 <= IZR r <= 19)%R).
  { split; [apply IZR_le; lia | apply IZR_le; lia]. }
  assert (Hk0 : (0 <= IZR k)%R) by (apply IZR_le; unfold k; apply Z.div_pos; lia).
  apply trunc_unique; [exact (rounds_to_normal _ _ Hr)|]. split.
  - apply (rounds_to_ge_int X _ k Hr); unfold X; lra.
  - pose proof (rounds_to_error _ _ Hr) as He. rewrite u_value in He.
    apply Rabs_le_between in He. unfold X in *. lra.
Qed.

(** ** The store *)

Lemma nth_error_snoc {A : Type} (l : list A) (x : A) :
  nth_error (l ++ [x]) (length l) = Some x.
Proof. rewrite nth_error_app2, Nat.sub_diag by lia. reflexivity. Qed.

Lemma nth_error_snoc_old {A : Type} (l : list A) (x a : A) (r : nat) :
  nth_error l r = Some a -> nth_error (l ++ [x]) r = Some a.
Proof.
  intros H. rewrite nth_error_app1; [exact H|].
  apply nth_error_Some. rewrite H. discriminate.
Qed.

Lemma replace_nth_snoc {A : Type} (l : list A) (x y : A) :
  replace_nth (length l) y (l ++ [x]) = l ++ [y].
Proof. induction l as [|h t IH]; cbn; [reflexivity | rewrite IH; reflexivity]. Qed.

Lemma zip_with_map {A B C : Type} (f : A -> B -> C) (g : A -> B) (l : list A) :
  zip_with f l (map g l) = map (fun x => f x (g x)) l.
Proof. induction l as [|h t IH]; cbn; [reflexivity | rewrite IH; reflexivity]. Qed.

Lemma setitem_scaled (ic : Z) (c : channel) (k : float64) (x : ndarray) :
  zip_with (zip_with (fun p s => set c (to_uint8 ic s) p)) x
    (np_clip (times (take_channel c x) k))
  = map (map (fun p => set c (rescaled ic k (get c p)) p)) x.
Proof.
  unfold np_clip, times, take_channel. rewrite !map_map.
  rewrite zip_with_map. apply map_ext. intros row.
  rewrite !map_map. rewrite zip_with_map. reflexivity.
Qed.

Lemma invert_run (w : world) (r : ref) (a : ndarray) :
  nth_error (arrays w) r = Some a ->
  invert r w
  = (Returned (length (arrays w)), World (arrays w ++ [inverted a]) (events w)).
Proof.
  intros Hr. unfold invert, bind, deref. rewrite Hr. reflexivity.
Qed.

Lemma auto_balance_color_run (ic : Z) (w : world) (r : ref) (a : ndarray)
    (border_height : Z) :
  nth_error (arrays w) r = Some a ->
  trunc (mul (of_Z (shape0 a)) float_0_05) = Some border_height ->
  auto_balance_color ic r w
  = (Returned (length (arrays w)),
     World (arrays w ++ [balanced ic border_height a]) (events w)).
Proof.
  intros Hr Hb. unfold auto_balance_color, bind at 1, deref at 1. rewrite Hr.
  unfold bind at 1, int. rewrite Hb. unfold ret at 1.
  unfold bind at 1, copy, bind at 1, deref at 1. rewrite Hr. unfold alloc.
  cbn [arrays events].
  unfold bind at 1, deref at 1. cbn [arrays]. rewrite nth_error_snoc.
  unfold bind at 1, setitem, bind at 1, deref at 1. cbn [arrays].
  rewrite nth_error_snoc. unfold store. cbn [arrays events].
  rewrite replace_nth_snoc, setitem_scaled.
  unfold bind at 1, deref at 1. cbn [arrays]. rewrite nth_error_snoc.
  unfold bind at 1, bind at 1, deref at 1. cbn [arrays].
  rewrite nth_error_snoc. cbn [arrays events].
  rewrite replace_nth_snoc, setitem_scaled.
  unfold bind at 1, deref at 1. cbn [arrays]. rewrite nth_error_snoc.
  unfold bind at 1, bind at 1, deref at 1. cbn [arrays].
  rewrite nth_error_snoc. cbn [arrays events].
  rewrite replace_nth_snoc, setitem_scaled.
  unfold ret. f_equal. f_equal. f_equal. f_equal.
  unfold balanced, apply_corrections, corrections, border_means, mean_gray_of.
  rewrite !map_map. apply map_ext. intros row.
  rewrite !map_map. apply map_ext. intros [pr pg pb]. reflexivity.
Qed.

Lemma auto_adjust_exposure_run (ic : Z) (w : world) (r : ref) (a : ndarray) :
  nth_error (arrays w) r = Some a ->
  auto_adjust_exposure ic r w
  = (Returned (length (arrays w)), World (arrays w ++ [exposed ic a]) (events w)).
Proof.
  intros Hr. unfold auto_adjust_exposure, bind, deref. rewrite Hr.
  unfold alloc. f_equal. f_equal. f_equal. f_equal.
  unfold exposed, astype_uint8, np_clip3, times3, adjustment_factor_of,
    mean_brightness_of.
  rewrite !map_map. apply map_ext. intros row.
  rewrite !map_map. apply map_ext. intros [pr pg pb]. reflexivity.
Qed.

Lemma run_invert (a : ndarray) : run invert a = Returned (inverted a).
Proof.
  unfold run. rewrite (invert_run _ _ a) by reflexivity. reflexivity.
Qed.

Lemma run_auto_adjust_exposure (ic : Z) (a : ndarray) :
  run (auto_adjust_exposure ic) a = Returned (exposed ic a).
Proof.
  unfold run. rewrite (auto_adjust_exposure_run _ _ _ a) by reflexivity.
  reflexivity.
Qed.

Lemma run_auto_balance_color (ic : Z) (a : ndarray) :
  shape0 a < 2 ^ 31 ->
  run (auto_balance_color ic) a = Returned (balanced ic (shape0 a / 20) a).
Proof.
  intros H. unfold run.
  rewrite (auto_balance_color_run _ _ _ a (shape0 a / 20)); [reflexivity..|].
  apply border_height_spec. unfold shape0 in *. lia.
Qed.

(** ** The pairwise sum *)

Lemma add_neg_zero (y : float64) : add neg_zero y = y.
Proof. destruct y as [[|]|[|]| |[|] m e]; reflexivity. Qed.

Lemma summed_le (k k' : nat) (x : float64) (l : list float64) :
  (k <= k')%nat -> summed k x l -> summed k' x l.
Proof.
  induction 1 as [|k' _ IH]; intros H; [exact H|].
  apply summed_deeper. apply IH. exact H.
Qed.

Lemma summed_plus (k k' : nat) (x y : float64) (lx ly : list float64) (n : nat) :
  summed k x lx -> summed k' y ly -> (k < n)%nat -> (k' < n)%nat ->
  summed n (add x y) (lx ++ ly).
Proof.
  intros Hx Hy Hk Hk'. destruct n as [|n]; [lia|].
  apply summed_add; eapply summed_le; try eassumption; lia.
Qed.

Lemma summed_fold (xs : list float64) :
  forall (k : nat) (acc : float64) (l : list float64),
    summed k acc l ->
    summed (k + length xs) (fold_left add xs acc) (l ++ xs).
Proof.
  induction xs as [|x xs IH]; intros k acc l H.
  - cbn [fold_left length]. rewrite Nat.add_0_r, app_nil_r. exact H.
  - cbn [fold_left length].
    replace (k + S (length xs))%nat with (S k + length xs)%nat by lia.
    replace (l ++ x :: xs) with ((l ++ [x]) ++ xs)
      by (rewrite <- app_assoc; reflexivity).
    apply IH. apply summed_add; [exact H|].
    apply (summed_le 0); [lia | constructor].
Qed.

(** Fewer than eight entries. *)
Lemma summed_short (xs : list float64) :
  xs <> [] -> summed (length xs) (fold_left add xs neg_zero) xs.
Proof.
  destruct xs as [|x xs]; [congruence|]. intros _.
  cbn [fold_left length]. rewrite add_neg_zero.
  apply summed_deeper. apply (summed_fold xs 0 x [x]). constructor.
Qed.

Lemma length_zip_with {A B C : Type} (f : A -> B -> C) (l : list A) (l' : list B) :
  length l = length l' -> length (zip_with f l l') = length l.
Proof.
  revert l'. induction l as [|x l IH]; intros [|y l'] H; cbn in *;
    try reflexivity; try discriminate.
  f_equal. apply IH. lia.
Qed.

(** One round of the eight accumulators. *)
Lemma summed_round (k : nat) (r : list float64) (ls : list (list float64)) :
  Forall2 (summed k) r ls ->
  forall blk, length blk = length r ->
    exists ls',
      Forall2 (summed (S k)) (zip_with add r blk) ls'
      /\ Permutation (concat ls') (concat ls ++ blk).
Proof.
  induction 1 as [|x l r ls Hx _ IH]; intros blk Hlen.
  - destruct blk; [|discriminate]. exists []. split; [constructor|].
    apply Permutation_refl.
  - destruct blk as [|b blk]; [discriminate|]. cbn [length] in Hlen.
    destruct (IH blk ltac:(lia)) as (ls' & H1 & H2).
    exists ((l ++ [b]) :: ls'). split.
    + cbn [zip_with]. constructor; [|exact H1].
      apply summed_add; [exact Hx|]. apply (summed_le 0); [lia | constructor].
    + cbn [concat]. rewrite <- !app_assoc. apply Permutation_app_head.
      cbn [app]. apply Permutation_trans with (b :: concat ls ++ blk).
      * constructor. exact H2.
      * apply Permutation_middle.
Qed.

Lemma firstn_plus {A : Type} (n m : nat) (l : list A) :
  firstn (n + m) l = firstn n l ++ firstn m (skipn n l).
Proof.
  revert l. induction n as [|n IH]; intros l; [reflexivity|].
  destruct l as [|x l]; cbn [Nat.add firstn skipn app].
  - destruct m; reflexivity.
  - f_equal. apply IH.
Qed.

Lemma add_blocks_spec (j : nat) :
  forall (k : nat) (r xs : list float64) (ls : list (list float64)),
    Forall2 (summed k) r ls ->
    length r = 8%nat ->
    (8 * j <= length xs)%nat ->
    exists r' ls',
      add_blocks j r xs = (r', skipn (8 * j) xs)
      /\ length r' = 8%nat
      /\ Forall2 (summed (k + j)) r' ls'
      /\ Permutation (concat ls') (concat ls ++ firstn (8 * j) xs).
Proof.
  induction j as [|j IH]; intros k r xs ls Hr Hlen Hxs.
  - exists r, ls. cbn [add_blocks]. rewrite Nat.mul_0_r, Nat.add_0_r.
    cbn [skipn firstn]. rewrite app_nil_r.
    split; [reflexivity|]. split; [exact Hlen|]. split; [exact Hr|].
    apply Permutation_refl.
  - cbn [add_blocks].
    assert (Hb : length (firstn 8 xs) = length r).
    { rewrite length_firstn, Hlen. lia. }
    destruct (summed_round k r ls Hr (firstn 8 xs) Hb) as (ls1 & H1 & P1).
    destruct (IH (S k) (zip_with add r (firstn 8 xs)) (skipn 8 xs) ls1 H1)
      as (r' & ls' & E & L & H2 & P2).
    + rewrite length_zip_with by (symmetry; exact Hb). exact Hlen.
    + rewrite length_skipn. lia.
    + exists r', ls'. rewrite E.
      split.
      { replace (8 * S j)%nat with (8 * j + 8)%nat by lia.
        rewrite <- skipn_skipn. reflexivity. }
      split; [exact L|].
      split; [replace (k + S j)%nat with (S k + j)%nat by lia; exact H2|].
      apply Permutation_trans with (1 := P2).
      replace (8 * S j)%nat with (8 + 8 * j)%nat by lia.
      rewrite (firstn_plus 8 (8 * j) xs), app_assoc.
      apply Permutation_app_tail. exact P1.
Qed.

Lemma summed_eight (k : nat) (r : list float64) (ls : list (list float64)) :
  Forall2 (summed k) r ls -> length r = 8%nat ->
  exists r0 r1 r2 r3 r4 r5 r6 r7,
    r = [r0; r1; r2; r3; r4; r5; r6; r7]
    /\ summed (k + 3)
         (add (add (add r0 r1) (add r2 r3)) (add (add r4 r5) (add r6 r7)))
         (concat ls).
Proof.
  intros H Hlen.
  destruct H as [|r0 l0 r ls H0 H]; [discriminate|].
  destruct H as [|r1 l1 r ls H1 H]; [discriminate|].
  destruct H as [|r2 l2 r ls H2 H]; [discriminate|].
  destruct H as [|r3 l3 r ls H3 H]; [discriminate|].
  destruct H as [|r4 l4 r ls H4 H]; [discriminate|].
  destruct H as [|r5 l5 r ls H5 H]; [discriminate|].
  destruct H as [|r6 l6 r ls H6 H]; [discriminate|].
  destruct H as [|r7 l7 r ls H7 H]; [discriminate|].
  destruct H as [|r8 l8 r ls H8 H]; [|discriminate].
  exists r0, r1, r2, r3, r4, r5, r6, r7. split; [reflexivity|].
  cbn [concat]. rewrite app_nil_r.
  replace (k + 3)%nat with (S (S (S k))) by lia.
  replace (l0 ++ l1 ++ l2 ++ l3 ++ l4 ++ l5 ++ l6 ++ l7)
    with (((l0 ++ l1) ++ (l2 ++ l3)) ++ ((l4 ++ l5) ++ (l6 ++ l7)))
    by (rewrite <- !app_assoc; reflexivity).
  repeat apply summed_add; assumption.
Qed.

Lemma summed_singletons (l : list float64) :
  Forall2 (summed 0) l (map (fun x => [x]) l)
  /\ concat (map (fun x => [x]) l) = l.
Proof.
  induction l as [|x l [IH1 IH2]]; [split; [constructor | reflexivity]|].
  cbn [map concat app]. split; [constructor; [constructor | exact IH1]|].
  f_equal. exact IH2.
Qed.

(** A block of eight entries or more. *)
Lemma summed_unrolled (xs : list float64) :
  (8 <= length xs)%nat -> summed (length xs) (sum_unrolled xs) xs.
Proof.
  intros Hn. unfold sum_unrolled.
  set (j := (length xs / 8 - 1)%nat).
  assert (Hj : (8 * j <= length xs - 8)%nat).
  { unfold j. pose proof (Nat.div_mod_eq (length xs) 8). lia. }
  destruct (summed_singletons (firstn 8 xs)) as [S0 C0].
  destruct (add_blocks_spec j 0 (firstn 8 xs) (skipn 8 xs) _ S0)
    as (r' & ls' & E & L & H2 & P).
  { rewrite length_firstn. lia. }
  { rewrite length_skipn. exact Hj. }
  rewrite E. rewrite C0 in P.
  destruct (summed_eight _ r' ls' H2 L)
    as (r0 & r1 & r2 & r3 & r4 & r5 & r6 & r7 & -> & H3).
  pose proof (summed_fold (skipn (8 * j) (skipn 8 xs)) _ _ _ H3) as H4.
  apply (summed_le (0 + j + 3 + length (skipn (8 * j) (skipn 8 xs)))).
  { rewrite !length_skipn. lia. }
  apply summed_perm with (2 := H4).
  apply Permutation_trans
    with ((firstn 8 xs ++ firstn (8 * j) (skipn 8 xs))
          ++ skipn (8 * j) (skipn 8 xs)).
  { apply Permutation_app_tail. exact P. }
  rewrite <- app_assoc, firstn_skipn, firstn_skipn. apply Permutation_refl.
Qed.

Lemma pairwise_sum_step (fuel : nat) (xs : list float64) :
  pairwise_sum (S fuel) xs
  = if (length xs <? 8)%nat then fold_left add xs neg_zero
    else if (length xs <=? 128)%nat then sum_unrolled xs
    else add (pairwise_sum fuel
                (firstn (length xs / 2 - (length xs / 2) mod 8) xs))
             (pairwise_sum fuel
                (skipn (length xs / 2 - (length xs / 2) mod 8) xs)).
Proof. reflexivity. Qed.

Lemma halves (n : nat) :
  (128 < n)%nat ->
  (0 < n / 2 - (n / 2) mod 8 < n)%nat.
Proof.
  intros Hn. pose proof (Nat.div_mod_eq n 2) as H2.
  pose proof (Nat.mod_upper_bound n 2 ltac:(lia)).
  pose proof (Nat.mod_upper_bound (n / 2) 8 ltac:(lia)). lia.
Qed.

(** The pairwise sum adds every entry once, by additions nested less deep
    than the list is long. *)
Lemma pairwise_summed (fuel : nat) :
  forall xs : list float64,
    xs <> [] -> (length xs <= fuel)%nat ->
    summed (length xs) (pairwise_sum fuel xs) xs.
Proof.
  induction fuel as [|fuel IH]; intros xs Hne Hlen.
  - destruct xs; [congruence | cbn [length] in Hlen; lia].
  - rewrite pairwise_sum_step.
    destruct (Nat.ltb_spec (length xs) 8) as [H8|H8];
      [apply summed_short; exact Hne|].
    destruct (Nat.leb_spec (length xs) 128) as [H128|H128];
      [apply summed_unrolled; exact H8|].
    pose proof (halves (length xs) H128) as [Hn1 Hn2].
    set (n2 := (length xs / 2 - (length xs / 2) mod 8)%nat) in *.
    assert (L1 : length (firstn n2 xs) = n2) by (rewrite length_firstn; lia).
    assert (L2 : length (skipn n2 xs) = (length xs - n2)%nat)
      by apply length_skipn.
    rewrite <- (firstn_skipn n2 xs) at 4.
    apply (summed_plus (length (firstn n2 xs)) (length (skipn n2 xs))).
    + apply IH; [|lia]. intros E. rewrite E in L1. cbn [length] in L1. lia.
    + apply IH; [|lia]. intros E. rewrite E in L2. cbn [length] in L2. lia.
    + lia.
    + lia.
Qed.

(** More fuel than the length changes nothing. *)
Lemma pairwise_sum_fuel (fuel : nat) :
  forall (fuel' : nat) (xs : list float64),
    (length xs <= fuel)%nat -> (length xs <= fuel')%nat ->
    pairwise_sum fuel xs = pairwise_sum fuel' xs.
Proof.
  induction fuel as [|fuel IH]; intros fuel' xs H H'.
  - destruct xs; [|cbn [length] in H; lia]. destruct fuel'; reflexivity.
  - destruct fuel' as [|fuel'].
    { destruct xs; [reflexivity | cbn [length] in H'; lia]. }
    rewrite !pairwise_sum_step.
    destruct (Nat.ltb_spec (length xs) 8) as [H8|H8]; [reflexivity|].
    destruct (Nat.leb_spec (length xs) 128) as [H128|H128]; [reflexivity|].
    pose proof (halves (length xs) H128) as [Hn1 Hn2].
    f_equal; apply IH; rewrite ?length_firstn, ?length_skipn; lia.
Qed.

Lemma np_sum_nil : np_sum [] = neg_zero.
Proof. reflexivity. Qed.

Lemma np_sum_summed (xs : list float64) :
  xs <> [] -> summed (length xs) (np_sum xs) xs.
Proof.
  intros Hne. unfold np_sum. rewrite add_neg_zero.
  apply pairwise_summed; [exact Hne | lia].
Qed.

(** ** The inverter (C4) *)

Lemma inverted_sample (s : Z) : uint8 s -> (255 - s) mod 256 = 255 - s.
Proof. unfold uint8. intros H. apply Z.mod_small. lia. Qed.

Lemma inverted_involutive (a : ndarray) : PixelBuffer a -> inverted (inverted a) = a.
Proof.
  unfold PixelBuffer, inverted. intros H.
  induction H as [|row a Hrow _ IH]; cbn [map]; [reflexivity|]. f_equal; [|exact IH].
  induction Hrow as [|p row [Hr [Hg Hb]] _ IHrow]; cbn [map]; [reflexivity|].
  f_equal; [|exact IHrow].
  destruct p as [r g b]; unfold rgb_map; cbn [red green blue] in *.
  rewrite (inverted_sample r), (inverted_sample g), (inverted_sample b) by assumption.
  rewrite !inverted_sample by (unfold uint8 in *; lia).
  f_equal; lia.
Qed.

(** C4: the inverter returns the buffer in which every sample [s] of the
    input has become [255 - s], and inverting twice gives back a valid
    buffer exactly. *)
Theorem invert_involution (a : ndarray) :
  PixelBuffer a ->
  run invert a = Returned (map (map (rgb_map (fun s => 255 - s))) a)
  /\ (exists b, run invert a = Returned b /\ run invert b = Returned a).
Proof.
  intros H. split.
  - rewrite run_invert. f_equal. unfold inverted.
    unfold PixelBuffer in H.
    induction H as [|row a Hrow _ IH]; cbn [map]; [reflexivity|]. f_equal; [|exact IH].
    induction Hrow as [|p row [Hr [Hg Hb]] _ IHrow]; cbn [map]; [reflexivity|].
    f_equal; [|exact IHrow].
    unfold rgb_map. rewrite !inverted_sample by assumption. reflexivity.
  - exists (inverted a). rewrite !run_invert.
    rewrite inverted_involutive by assumption. split; reflexivity.
Qed.

Lemma invert_involution_witness :
  run invert [[RGB 180 60 180; RGB 0 255 7]]
  = Returned [[RGB 75 195 75; RGB 255 0 248]]
  /\ (exists b, run invert [[RGB 180 60 180; RGB 0 255 7]] = Returned b
                /\ run invert b = Returned [[RGB 180 60 180; RGB 0 255 7]]).
Proof.
  apply (invert_involution [[RGB 180 60 180; RGB 0 255 7]]).
  repeat constructor; cbn [red green blue]; lia.
Defined.

(** ** Range of the samples *)

Lemma to_uint8_range (ic : Z) (x : float64) : uint8 (to_uint8 ic x).
Proof.
  unfold uint8, to_uint8.
  destruct (trunc x) as [z|];
    [pose proof (Z.mod_pos_bound z 256) | pose proof (Z.mod_pos_bound ic 256)]; lia.
Qed.



Lemma exposed_PixelBuffer (ic : Z) (a : ndarray) : PixelBuffer (exposed ic a).
Proof.
  unfold PixelBuffer, exposed. rewrite Forall_map.
  apply Forall_forall. intros row _. rewrite Forall_map. apply Forall_forall.
  intros p _. unfold uint8_pixel, rescaled, rgb_map. cbn [red green blue].
  repeat split; apply to_uint8_range.
Qed.

Lemma run_auto_balance_color_cases (ic : Z) (a : ndarray) :
  (exists bh, run (auto_balance_color ic) a = Returned (balanced ic bh a))
  \/ (exists e, run (auto_balance_color ic) a = Raised e).
Proof.
  destruct (trunc (mul (of_Z (shape0 a)) float_0_05)) as [bh|] eqn:E.
  - left. exists bh. unfold run.
    rewrite (auto_balance_color_run _ _ _ a bh); [| reflexivity | exact E].
    cbn [arrays]. rewrite (nth_error_snoc [a]). reflexivity.
  - right. unfold run, auto_balance_color, bind, deref, int. cbn [arrays nth_error].
    rewrite E. unfold raise. eexists. reflexivity.
Qed.

(** ** No stage writes to its input (C9) *)

Lemma stage_fresh (stage : ref -> M ref) (f : ndarray -> ndarray)
    (w : world) (r : ref) (a : ndarray) :
  nth_error (arrays w) r = Some a ->
  stage r w = (Returned (length (arrays w)), World (arrays w ++ [f a]) (events w)) ->
  exists r' w',
    stage r w = (Returned r', w')
    /\ r' <> r
    /\ nth_error (arrays w') r' = Some (f a)
    /\ nth_error (arrays w') r = Some a
    /\ (forall r0 x, nth_error (arrays w) r0 = Some x ->
                     nth_error (arrays w') r0 = Some x)
    /\ events w' = events w.
Proof.
  intros Hr E. exists (length (arrays w)), (World (arrays w ++ [f a]) (events w)).
  cbn [arrays events]. split; [exact E|]. split.
  - assert (r < length (arrays w))%nat; [|lia].
    apply nth_error_Some. rewrite Hr. discriminate.
  - split; [apply nth_error_snoc|]. split; [apply nth_error_snoc_old; exact Hr|].
    split; [|reflexivity]. intros r0 x. apply nth_error_snoc_old.
Qed.

(** C9: called on a reference [r] to a buffer [a], each stage returns a
    reference to a new object; after the call [r] still denotes [a], sample
    for sample, and so does every other reference of the caller. *)
Theorem stages_leave_input_unchanged (ic : Z) (w : world) (r : ref) (a : ndarray) :
  nth_error (arrays w) r = Some a ->
  shape0 a < 2 ^ 31 ->
  (exists r' w',
      invert r w = (Returned r', w')
      /\ r' <> r
      /\ nth_error (arrays w') r' = Some (inverted a)
      /\ nth_error (arrays w') r = Some a
      /\ (forall r0 x, nth_error (arrays w) r0 = Some x ->
                       nth_error (arrays w') r0 = Some x)
      /\ events w' = events w)
  /\ (exists r' w',
         auto_balance_color ic r w = (Returned r', w')
         /\ r' <> r
         /\ nth_error (arrays w') r' = Some (balanced ic (shape0 a / 20) a)
         /\ nth_error (arrays w') r = Some a
         /\ (forall r0 x, nth_error (arrays w) r0 = Some x ->
                          nth_error (arrays w') r0 = Some x)
         /\ events w' = events w)
  /\ (exists r' w',
         auto_adjust_exposure ic r w = (Returned r', w')
         /\ r' <> r
         /\ nth_error (arrays w') r' = Some (exposed ic a)
         /\ nth_error (arrays w') r = Some a
         /\ (forall r0 x, nth_error (arrays w) r0 = Some x ->
                          nth_error (arrays w') r0 = Some x)
         /\ events w' = events w).
Proof.
  intros Hr Hh. split; [|split].
  - apply (stage_fresh invert inverted); [exact Hr|]. apply invert_run. exact Hr.
  - apply (stage_fresh (auto_balance_color ic) (balanced ic (shape0 a / 20)));
      [exact Hr|].
    apply auto_balance_color_run; [exact Hr|].
    apply border_height_spec. unfold shape0 in *. lia.
  - apply (stage_fresh (auto_adjust_exposure ic) (exposed ic)); [exact Hr|].
    apply auto_adjust_exposure_run. exact Hr.
Qed.

Lemma stages_leave_input_unchanged_witness :
  let a := [[RGB 10 20 30]] in
  let w := World [a] [] in
  (exists r' w',
      invert 0%nat w = (Returned r', w') /\ r' <> 0%nat
      /\ nth_error (arrays w') 0%nat = Some a)
  /\ (exists r' w',
         auto_balance_color 0 0%nat w = (Returned r', w') /\ r' <> 0%nat
         /\ nth_error (arrays w') 0%nat = Some a)
  /\ (exists r' w',
         auto_adjust_exposure 0 0%nat w = (Returned r', w') /\ r' <> 0%nat
         /\ nth_error (arrays w') 0%nat = Some a).
Proof.
  cbv zeta.
  destruct (stages_leave_input_unchanged 0 (World [[[RGB 10 20 30]]] []) 0%nat
              [[RGB 10 20 30]] eq_refl ltac:(vm_compute; reflexivity))
    as [(r1 & w1 & E1 & N1 & _ & K1 & _) [(r2 & w2 & E2 & N2 & _ & K2 & _)
                                           (r3 & w3 & E3 & N3 & _ & K3 & _)]].
  split; [|split].
  - exists r1, w1. auto.
  - exists r2, w2. auto.
  - exists r3, w3. auto.
Defined.

(** ** Degenerate inputs (C1, C2) *)

Lemma summed_zeros (k : nat) (y : float64) (l : list float64) :
  summed k y l -> Forall (eq zero) l -> y = zero.
Proof.
  induction 1 as [x|k x y lx ly _ IHx _ IHy|k x l _ IH|k x l l' P _ IH];
    intros H.
  - inversion H; subst. reflexivity.
  - apply Forall_app in H. destruct H as [Hx Hy].
    rewrite (IHx Hx), (IHy Hy). reflexivity.
  - apply IH. exact H.
  - apply IH. apply (Permutation_Forall (Permutation_sym P)). exact H.
Qed.

Lemma np_sum_zeros (xs : list float64) :
  Forall (eq zero) xs -> exists s, np_sum xs = S754_zero s.
Proof.
  intros H. destruct xs as [|x xs]; [exists true; reflexivity|].
  exists false. apply (summed_zeros _ _ _ (np_sum_summed (x :: xs) ltac:(discriminate))).
  exact H.
Qed.

Lemma div_zero_any (s : bool) (y : float64) : zero_or_nan (div (S754_zero s) y).
Proof. destruct y as [s'|s'| |s' m e]; cbn; exact I. Qed.

Lemma np_mean_zeros (xs : list float64) :
  Forall (eq zero) xs -> zero_or_nan (np_mean xs).
Proof.
  intros H. unfold np_mean. destruct (np_sum_zeros xs H) as [s ->].
  apply div_zero_any.
Qed.



Lemma mul_nan (x : float64) : mul x nan = nan.
Proof. destruct x; reflexivity. Qed.

Lemma rescaled_nan (ic s : Z) : rescaled ic nan s = ic mod 256.
Proof. unfold rescaled. rewrite mul_nan. reflexivity. Qed.

Lemma apply_corrections_nan (ic : Z) (a : ndarray) :
  apply_corrections ic (RGB nan nan nan) a = filled (ic mod 256) a.
Proof.
  unfold apply_corrections, filled. apply map_ext. intros row. apply map_ext.
  intros p. cbn [red green blue]. rewrite !rescaled_nan. reflexivity.
Qed.





Lemma all_black_mean_brightness (a : ndarray) :
  all_black a -> zero_or_nan (mean_brightness_of a).
Proof.
  intros H. unfold mean_brightness_of, np_mean_float64. apply np_mean_zeros.
  unfold np_mean_axis2. induction H as [|row a Hrow _ IH]; [constructor|].
  cbn [map concat]. apply Forall_app. split; [|exact IH].
  clear IH. induction Hrow as [|p row -> _ IHrow]; [constructor|].
  cbn [map]. constructor; [reflexivity | exact IHrow].
Qed.






(** C2, as the code has it: a buffer of fewer than 20 rows has an empty
    border region; its means are NaN (0.0 / 0), so are the three gains, and
    the balancer raises nothing: it returns a buffer of the input's shape
    in which every sample is what the platform's cast makes of a NaN. *)
Theorem short_buffer_returns (ic : Z) (a : ndarray) :
  shape0 a < 20 ->
  run (auto_balance_color ic) a = Returned (filled (ic mod 256) a).
Proof.
  intros H. rewrite run_auto_balance_color by lia. f_equal.
  assert (E : shape0 a / 20 = 0).
  { apply Z.div_small. unfold shape0 in *. lia. }
  rewrite E. unfold balanced. apply apply_corrections_nan.
Qed.

Lemma short_buffer_returns_witness :
  run (auto_balance_color 0) [[RGB 10 20 30; RGB 40 50 60]]
  = Returned [[RGB 0 0 0; RGB 0 0 0]].
Proof.
  exact (short_buffer_returns 0 [[RGB 10 20 30; RGB 40 50 60]] eq_refl).
Defined.

(** C2 fails as stated: a buffer of one row has a border of
    [int(1 * 0.05) = 0] rows, and the balancer returns (here on a platform
    that casts NaN to 0) instead of raising [InvalidInputError]. *)
Lemma short_buffer_raises_nothing :
  trunc (mul (of_Z (shape0 [[RGB 10 20 30; RGB 40 50 60]])) float_0_05) = Some 0
  /\ run (auto_balance_color 0) [[RGB 10 20 30; RGB 40 50 60]]
     = Returned [[RGB 0 0 0; RGB 0 0 0]]
  /\ run (auto_balance_color 0) [[RGB 10 20 30; RGB 40 50 60]]
     <> Raised InvalidInputError.
Proof.
  split; [vm_compute; reflexivity|].
  assert (E : run (auto_balance_color 0) [[RGB 10 20 30; RGB 40 50 60]]
              = Returned [[RGB 0 0 0; RGB 0 0 0]]) by (vm_compute; reflexivity).
  rewrite E. split; [reflexivity | discriminate].
Qed.

(** ** The batch driver (C8) *)

Lemma auto_balance_color_raises (ic : Z) (w : world) (r : ref) (a : ndarray) :
  nth_error (arrays w) r = Some a ->
  trunc (mul (of_Z (shape0 a)) float_0_05) = None ->
  auto_balance_color ic r w
  = (Raised (if is_nan (mul (of_Z (shape0 a)) float_0_05)
             then ValueError else OverflowError), w).
Proof.
  intros Hr Hb. unfold auto_balance_color, bind at 1, deref at 1. rewrite Hr.
  unfold bind at 1, int. rewrite Hb. reflexivity.
Qed.

Section Batch.

Variable invalid_cast : Z.
Variable os_listdir : string -> list string.
Variable os_path_isfile : string -> bool.
Variable Image_open : string -> outcome Image.
Variable Image_save : string -> Image -> outcome unit.
Variable Brightness Contrast Sharpness : float64 -> Image -> Image.

Local Abbreviation events_of :=
  (entry_events invalid_cast os_path_isfile Image_open Image_save
     Brightness Contrast Sharpness).

Local Abbreviation body :=
  (loop_body invalid_cast os_path_isfile Image_open Image_save
     Brightness Contrast Sharpness).

Lemma entry_run (folder_path save_folder file_name : string) (w : world) :
  exists arrs,
    body folder_path save_folder file_name w
    = (Returned tt,
       World arrs (events w ++ events_of folder_path save_folder file_name)).
Proof.
  unfold loop_body, entry_events. cbv zeta.
  destruct (negb (os_path_isfile (os_path_join folder_path file_name))).
  { exists (arrays w). unfold ret. rewrite app_nil_r. destruct w; reflexivity. }
  unfold try_except, bind at 1, lift at 1.
  destruct (Image_open (os_path_join folder_path file_name)) as [image|e].
  2:{ eexists. unfold emit. reflexivity. }
  unfold bind at 1, np_array, alloc.
  unfold bind at 1.
  rewrite (invert_run _ _ image) by (cbn [arrays]; apply nth_error_snoc).
  cbn [arrays events].
  unfold bind at 1, pipeline. cbv zeta.
  destruct (trunc (mul (of_Z (shape0 (inverted image))) float_0_05))
    as [bh|] eqn:Eb.
  2:{ rewrite (auto_balance_color_raises _ _ _ (inverted image))
        by (try exact Eb; cbn [arrays]; apply nth_error_snoc).
      eexists. unfold emit. reflexivity. }
  rewrite (auto_balance_color_run _ _ _ (inverted image) bh)
    by (try exact Eb; cbn [arrays]; apply nth_error_snoc).
  cbn [arrays events].
  unfold bind at 1.
  rewrite (auto_adjust_exposure_run _ _ _ (balanced invalid_cast bh (inverted image)))
    by (cbn [arrays]; apply nth_error_snoc).
  cbn [arrays events].
  unfold bind at 1, Image_fromarray, deref. cbn [arrays].
  rewrite nth_error_snoc.
  unfold bind at 1, lift.
  destruct (Image_save _ _) as [[]|e]; eexists; unfold emit; reflexivity.
Qed.

Lemma for_each_entries (folder_path save_folder : string) (l : list string)
    (w : world) :
  exists arrs,
    for_each l (body folder_path save_folder) w
    = (Returned tt,
       World arrs (events w ++ flat_map (events_of folder_path save_folder) l)).
Proof.
  revert w. induction l as [|file_name l IH]; intros w.
  - exists (arrays w). cbn [for_each flat_map]. unfold ret. rewrite app_nil_r.
    destruct w; reflexivity.
  - cbn [for_each flat_map]. unfold bind.
    destruct (entry_run folder_path save_folder file_name w) as [arrs ->].
    destruct (IH (World arrs (events w ++ events_of folder_path save_folder file_name)))
      as [arrs' ->].
    exists arrs'. cbn [events]. rewrite app_assoc. reflexivity.
Qed.

(** C8, as the code has it: the batch driver returns normally whatever
    happens to the files.  It goes through the whole listing in order; an
    entry that is not a regular file adds nothing, a file that goes
    through adds one [Saved], and a file on which the decoder, a stage or
    the encoder raises adds one warning that names the file and the
    exception, after which the loop goes on.  The batch ends with the same
    constant dialog in every case: no count of the files that succeeded or
    failed is kept or reported. *)
Theorem batch_continues_on_error (folder_path save_folder : string) (w : world) :
  is_empty folder_path = false ->
  is_empty save_folder = false ->
  exists arrs,
    batch_process_images invalid_cast os_listdir os_path_isfile Image_open
      Image_save Brightness Contrast Sharpness folder_path save_folder w
    = (Returned tt,
       World arrs
         (events w
          ++ flat_map (events_of folder_path save_folder) (os_listdir folder_path)
          ++ [InformationBox])).
Proof.
  intros H1 H2.
  change (batch_process_images invalid_cast os_listdir os_path_isfile Image_open
            Image_save Brightness Contrast Sharpness folder_path save_folder)
    with (if is_empty folder_path then ret tt
          else if is_empty save_folder then ret tt
          else for_each (os_listdir folder_path) (body folder_path save_folder) ;;;
               emit InformationBox).
  rewrite H1, H2. unfold bind.
  destruct (for_each_entries folder_path save_folder (os_listdir folder_path) w)
    as [arrs ->].
  exists arrs. unfold emit. cbn [arrays events]. rewrite app_assoc. reflexivity.
Qed.

End Batch.

Lemma batch_continues_on_error_witness :
  exists arrs,
    demo_batch ["in/3.png"%string]
    = (Returned tt,
       World arrs
         [Saved "out/1.png" [[RGB 0 0 0]];
          Saved "out/2.png" [[RGB 0 0 0]];
          WarningBox "3.png" (IOError "cannot identify image file");
          Saved "out/4.png" [[RGB 0 0 0]];
          Saved "out/5.png" [[RGB 0 0 0]];
          InformationBox]).
Proof.
  exact (batch_continues_on_error 0 demo_listdir demo_isfile
           (demo_open ["in/3.png"%string]) demo_save
           demo_enhance demo_enhance demo_enhance "in" "out" (World [] [])
           eq_refl eq_refl).
Defined.

(** C8 fails as stated: the run in which file 3 is unreadable and the run
    in which every file goes through end alike, with the same returned
    value and the same closing dialog, though one file failed in the first
    and none in the second.  What the batch ends with is no summary of the
    files that succeeded or failed. *)
Lemma batch_result_counts_nothing :
  fst (demo_batch ["in/3.png"%string]) = fst (demo_batch [])
  /\ last (events (snd (demo_batch ["in/3.png"%string]))) InformationBox
     = last (events (snd (demo_batch []))) InformationBox
  /\ failures (events (snd (demo_batch ["in/3.png"%string]))) = 1%nat
  /\ failures (events (snd (demo_batch []))) = 0%nat.
Proof. vm_compute. repeat split. Qed.

(** ** The balancer on a neutral border (C10) *)

Lemma normal_unique (x y : float64) :
  normal x -> normal y -> SF2R x = SF2R y -> x = y.
Proof.
  intros Hx Hy E.
  assert (L1 : SFltb x y = false).
  { destruct (SFltb x y) eqn:L; [|reflexivity].
    apply SFltb_normal in L; [lra | assumption | assumption]. }
  assert (L2 : SFltb y x = false).
  { destruct (SFltb y x) eqn:L; [|reflexivity].
    apply SFltb_normal in L; [lra | assumption | assumption]. }
  destruct Hx as (mx & ex & -> & _). destruct Hy as (my & ey & -> & _).
  unfold SFltb, SFcompare in L1, L2.
  destruct (Z.compare_spec ex ey) as [Ee|Ee|Ee];
    destruct (Z.compare_spec ey ex) as [Ee'|Ee'|Ee']; try lia; try discriminate.
  subst ey.
  change (Pos.compare_cont Eq mx my) with (Pos.compare mx my) in L1.
  change (Pos.compare_cont Eq my mx) with (Pos.compare my mx) in L2.
  destruct (Pos.compare_spec mx my) as [Em|Em|Em]; try discriminate.
  - subst. reflexivity.
  - destruct (Pos.compare_spec my mx) as [Em'|Em'|Em']; try discriminate; lia.
Qed.

Lemma one_normal : normal one /\ SF2R one = 1%R.
Proof.
  split; [apply normal_of_is_normal; reflexivity|].
  unfold one. cbn [SF2R cond_Zopp]. change (-52) with (- (52)).
  rewrite bpow_neg_IZR by lia. change (Z.pos (2 ^ 52)) with (2 ^ 52).
  field. apply not_0_IZR. lia.
Qed.

Lemma div_self (m : float64) : normal m -> div m m = one.
Proof.
  intros Hm. pose proof (SF2R_normal_pos m Hm) as Hpos.
  assert (E : (SF2R m / SF2R m = 1)%R) by (field; lra).
  assert (H : rounds_to (SF2R m / SF2R m) (div m m)).
  { apply div_spec; [exact Hm | exact Hm |]. rewrite E. split.
    - apply Rle_trans with (bpow 0); [apply bpow_le; lia | rewrite bpow_0; lra].
    - apply Rlt_le_trans with (bpow 1); [rewrite bpow_1; lra | apply bpow_le; lia]. }
  rewrite E in H.
  apply normal_unique; [exact (rounds_to_normal _ _ H) | apply one_normal |].
  rewrite (proj2 one_normal).
  apply (rounds_to_exact _ _ 1 0 H); [rewrite bpow_0; ring|].
  apply Rlt_le_trans with (bpow 1); [rewrite bpow_1; lra | apply bpow_le; lia].
Qed.

Lemma rescaled_one (ic s : Z) : uint8 s -> rescaled ic one s = s.
Proof.
  intros [H0 H1].
  assert (E : forallb (fun n => rescaled ic one (Z.of_nat n) =? Z.of_nat n)
                (seq 0 256) = true) by (vm_compute; reflexivity).
  rewrite forallb_forall in E.
  specialize (E (Z.to_nat s)). rewrite Z2Nat.id in E by lia.
  apply Z.eqb_eq, E. apply in_seq. lia.
Qed.

Lemma apply_corrections_one (ic : Z) (a : ndarray) :
  PixelBuffer a -> apply_corrections ic (RGB one one one) a = a.
Proof.
  unfold PixelBuffer, apply_corrections. intros H.
  induction H as [|row a Hrow _ IH]; cbn [map]; [reflexivity|]. f_equal; [|exact IH].
  induction Hrow as [|p row [Hr [Hg Hb]] _ IHrow]; cbn [map]; [reflexivity|].
  f_equal; [|exact IHrow].
  destruct p as [r g b]. cbn [red green blue] in *.
  rewrite !rescaled_one by assumption. reflexivity.
Qed.

(** C10, as the code has it: when the three border means are one and the
    same nonzero float [m] (so the border has rows) and the gray mean
    [(m + m + m) / 3] comes out as [m] again in binary64, the three gains
    are exactly 1.0 and the balancer returns the input buffer sample for
    sample. *)
Theorem neutral_border_identity (ic : Z) (a : ndarray) (m : float64) :
  PixelBuffer a ->
  shape0 a < 2 ^ 31 ->
  border_means (rows_upto (shape0 a / 20) a) = RGB m m m ->
  is_normal m = true ->
  mean_gray_of (RGB m m m) = m ->
  corrections (border_means (rows_upto (shape0 a / 20) a)) = RGB one one one
  /\ run (auto_balance_color ic) a = Returned a.
Proof.
  intros Ha Hh Hm Hn Hg.
  assert (E : corrections (border_means (rows_upto (shape0 a / 20) a))
              = RGB one one one).
  { rewrite Hm. unfold corrections, rgb_map. rewrite Hg. cbn [red green blue].
    rewrite div_self by (apply normal_of_is_normal; exact Hn). reflexivity. }
  split; [exact E|].
  rewrite run_auto_balance_color by exact Hh. f_equal.
  unfold balanced. rewrite E. apply apply_corrections_one. exact Ha.
Qed.

Lemma rows_of_PixelBuffer (h : nat) (row : list (rgb Z)) :
  Forall uint8_pixel row -> PixelBuffer (rows_of h row).
Proof.
  intros H. unfold PixelBuffer, rows_of. apply Forall_forall. intros r Hr.
  apply repeat_spec in Hr. subst r. exact H.
Qed.

Lemma neutral_border_identity_witness :
  corrections
    (border_means
       (rows_upto (shape0 (rows_of 40 [RGB 200 200 200; RGB 202 202 202]) / 20)
          (rows_of 40 [RGB 200 200 200; RGB 202 202 202])))
  = RGB one one one
  /\ run (auto_balance_color 0) (rows_of 40 [RGB 200 200 200; RGB 202 202 202])
     = Returned (rows_of 40 [RGB 200 200 200; RGB 202 202 202]).
Proof.
  apply (neutral_border_identity 0
           (rows_of 40 [RGB 200 200 200; RGB 202 202 202]) (of_Z 201)).
  - apply rows_of_PixelBuffer. repeat constructor; cbn [red green blue]; lia.
  - reflexivity.
  - vm_compute. reflexivity.
  - vm_compute. reflexivity.
  - vm_compute. reflexivity.
Defined.

(** C10 fails as stated: the border row of [grey_frame] has the same mean,
    200.2, in the three channels, yet [(m + m + m) / 3] is the float just
    below [m], the three gains are the float just below 1.0, and the
    balancer returns the frame with every sample one lower. *)
Lemma neutral_border_darkened :
  PixelBuffer grey_frame
  /\ border_means (rows_upto (shape0 grey_frame / 20) grey_frame)
     = RGB (S754_finite false 7043911292184166 (-45))
           (S754_finite false 7043911292184166 (-45))
           (S754_finite false 7043911292184166 (-45))
  /\ mean_gray_of (border_means (rows_upto (shape0 grey_frame / 20) grey_frame))
     = S754_finite false 7043911292184165 (-45)
  /\ corrections (border_means (rows_upto (shape0 grey_frame / 20) grey_frame))
     = RGB (S754_finite false 9007199254740991 (-53))
           (S754_finite false 9007199254740991 (-53))
           (S754_finite false 9007199254740991 (-53))
  /\ run (auto_balance_color 0) grey_frame
     = Returned (map (map (rgb_map (fun s => s - 1))) grey_frame)
  /\ run (auto_balance_color 0) grey_frame <> Returned grey_frame.
Proof.
  split.
  { apply rows_of_PixelBuffer. repeat constructor; cbn [red green blue]; lia. }
  assert (E : run (auto_balance_color 0) grey_frame
              = Returned (map (map (rgb_map (fun s => s - 1))) grey_frame))
    by (vm_compute; reflexivity).
  rewrite E. repeat split; try (vm_compute; reflexivity).
  vm_compute. discriminate.
Qed.

(** ** Sums and means of samples *)

Lemma u_pos : (0 < u < / 2)%R.
Proof. unfold u. rewrite u_value. lra. Qed.

Lemma of_Z_int_valued (n : Z) : 0 <= n < 2 ^ 53 -> int_valued (of_Z n) n.
Proof.
  intros [H0 H1]. destruct (Z.eq_dec n 0) as [->|Hne].
  - left. split; reflexivity.
  - right. destruct (of_Z_exact n ltac:(lia)) as [Hn Hv]. split; [lia|]. split; assumption.
Qed.

Lemma add_int_valued (x y : float64) (a b : Z) :
  int_valued x a -> int_valued y b -> a + b < 2 ^ 53 ->
  int_valued (add x y) (a + b).
Proof.
  intros [[-> ->]|(Ha & Nx & Vx)] [[-> ->]|(Hb & Ny & Vy)] Hs.
  - left. split; reflexivity.
  - right. destruct Ny as (m & e & -> & Hc). split; [lia|]. split.
    + exists m, e. split; [reflexivity | exact Hc].
    + exact Vy.
  - right. rewrite Z.add_0_r. destruct Nx as (m & e & -> & Hc). split; [lia|]. split.
    + exists m, e. split; [reflexivity | exact Hc].
    + exact Vx.
  - right. split; [lia|].
    assert (Hlt : (IZR (a + b) < bpow 53)%R) by (apply IZR_lt_bpow; lia).
    assert (H : rounds_to (SF2R x + SF2R y) (add x y)).
    { apply add_spec; [exact Nx | exact Ny |]. rewrite Vx, Vy, <- plus_IZR.
      apply Rlt_trans with (bpow 53); [exact Hlt | apply bpow_lt; lia]. }
    split; [exact (rounds_to_normal _ _ H)|].
    rewrite Vx, Vy, <- plus_IZR in H.
    apply (rounds_to_exact _ _ (a + b) 0 H); [rewrite bpow_0; ring | exact Hlt].
Qed.

Lemma total_bounds (xs : list Z) :
  Forall uint8 xs -> 0 <= total xs <= 255 * Z.of_nat (length xs).
Proof.
  induction 1 as [|x xs [H0 H1] _ IH]; cbn [total fold_right length].
  - lia.
  - fold (total xs). lia.
Qed.

Lemma Rsum_app (l l' : list R) : Rsum (l ++ l') = (Rsum l + Rsum l')%R.
Proof.
  unfold Rsum. induction l as [|x l IH]; cbn [app fold_right]; [lra|].
  rewrite IH. lra.
Qed.

Lemma Rsum_perm (l l' : list R) : Permutation l l' -> Rsum l = Rsum l'.
Proof.
  unfold Rsum. induction 1 as [|x l l' _ IH|x y l|l l' l'' _ IH1 _ IH2];
    cbn [fold_right]; [reflexivity | rewrite IH; reflexivity | lra | congruence].
Qed.

Lemma int_valued_value (x : float64) (n : Z) : int_valued x n -> SF2R x = IZR n.
Proof. intros [[-> ->]|(_ & _ & V)]; [reflexivity | exact V]. Qed.

Lemma Rsum_int_nonneg (l : list float64) :
  Forall (fun x => exists n, 0 <= n /\ int_valued x n) l ->
  (0 <= Rsum (map SF2R l))%R.
Proof.
  induction 1 as [|x l (n & Hn & Hx) _ IH].
  - change (Rsum (map SF2R [])) with 0%R. lra.
  - change (Rsum (map SF2R (x :: l))) with (SF2R x + Rsum (map SF2R l))%R.
    rewrite (int_valued_value x n Hx). apply IZR_le in Hn. lra.
Qed.

(** Floats that hold integers add up exactly, in whatever order, while
    the sum stays below 2^53. *)
Lemma summed_int (k : nat) (y : float64) (l : list float64) :
  summed k y l ->
  Forall (fun x => exists n, 0 <= n /\ int_valued x n) l ->
  (Rsum (map SF2R l) < bpow 53)%R ->
  exists n, 0 <= n /\ int_valued y n /\ IZR n = Rsum (map SF2R l).
Proof.
  induction 1 as [x|k x y lx ly _ IHx _ IHy|k x l _ IH|k x l l' P _ IH];
    intros Hl Hb.
  - inversion Hl as [|? ? (n & Hn & Hx) _]; subst. exists n.
    split; [exact Hn|]. split; [exact Hx|].
    change (Rsum (map SF2R [x])) with (SF2R x + 0)%R.
    rewrite (int_valued_value x n Hx). lra.
  - apply Forall_app in Hl. destruct Hl as [Hx Hy].
    rewrite map_app, Rsum_app in *.
    pose proof (Rsum_int_nonneg lx Hx) as Px.
    pose proof (Rsum_int_nonneg ly Hy) as Py.
    destruct (IHx Hx ltac:(lra)) as (nx & Hnx & Ix & Vx).
    destruct (IHy Hy ltac:(lra)) as (ny & Hny & Iy & Vy).
    exists (nx + ny). split; [lia|]. split.
    + apply add_int_valued; [exact Ix | exact Iy |].
      apply lt_IZR. rewrite plus_IZR, Vx, Vy, <- bpow_IZR by lia. exact Hb.
    + rewrite plus_IZR, Vx, Vy. reflexivity.
  - apply IH; assumption.
  - assert (E : Rsum (map SF2R l) = Rsum (map SF2R l')).
    { apply Rsum_perm. apply Permutation_map. exact P. }
    rewrite <- E in *. apply IH; [|exact Hb].
    apply (Permutation_Forall (Permutation_sym P)). exact Hl.
Qed.

Lemma Rsum_of_Z (xs : list Z) :
  Forall uint8 xs -> Rsum (map SF2R (map of_Z xs)) = IZR (total xs).
Proof.
  induction 1 as [|x xs [H0 H1] _ IH].
  - reflexivity.
  - cbn [map total fold_right]. fold (total xs).
    change (Rsum (SF2R (of_Z x) :: map SF2R (map of_Z xs)))
      with (SF2R (of_Z x) + Rsum (map SF2R (map of_Z xs)))%R.
    rewrite IH, plus_IZR.
    rewrite (int_valued_value _ x (of_Z_int_valued x ltac:(lia))). reflexivity.
Qed.

Lemma np_sum_int_valued (xs : list Z) :
  Forall uint8 xs -> xs <> [] -> 255 * Z.of_nat (length xs) < 2 ^ 53 ->
  int_valued (np_sum (map of_Z xs)) (total xs).
Proof.
  intros H Hne Hb. pose proof (total_bounds xs H) as [T0 T1].
  assert (Hne' : map of_Z xs <> []) by (destruct xs; [congruence | discriminate]).
  destruct (summed_int _ _ _ (np_sum_summed _ Hne')) as (n & Hn & In & Vn).
  - rewrite Forall_map. eapply Forall_impl; [|exact H].
    intros x [H0 H1]. exists x. split; [exact H0|].
    apply of_Z_int_valued. lia.
  - rewrite (Rsum_of_Z xs H). apply IZR_lt_bpow; lia.
  - rewrite (Rsum_of_Z xs H) in Vn. apply eq_IZR in Vn. subst n. exact In.
Qed.

(** The mean of a channel: 0.0 when every sample is 0, and otherwise the
    float nearest to the quotient of the sum by the number of samples. *)
Lemma np_mean_uint8_spec (xs : list Z) :
  Forall uint8 xs ->
  0 < Z.of_nat (length xs) < 2 ^ 31 ->
  (total xs = 0 /\ np_mean (map of_Z xs) = zero)
  \/ (0 < total xs
      /\ rounds_to (IZR (total xs) / IZR (Z.of_nat (length xs)))
           (np_mean (map of_Z xs))).
Proof.
  intros H [N0 N1]. unfold np_mean. rewrite length_map.
  set (N := Z.of_nat (length xs)) in *.
  pose proof (total_bounds xs H) as [T0 T1]. fold N in T1.
  destruct (of_Z_exact N ltac:(lia)) as [NN VN].
  assert (Hne : xs <> []) by (intros ->; cbn in N0; lia).
  destruct (np_sum_int_valued xs H Hne ltac:(fold N; lia))
    as [[E ->]|(Hp & Ns & Vs)].
  - left. split; [exact E|]. destruct NN as (m & e & -> & _). reflexivity.
  - right. split; [exact Hp|].
    rewrite <- Vs, <- VN. apply div_spec; [exact Ns | exact NN |].
    rewrite Vs, VN.
    assert (HN : (1 <= IZR N < 2147483648)%R).
    { split; [apply IZR_le; lia | apply IZR_lt; exact N1]. }
    assert (HT : (1 <= IZR (total xs) <= 255 * IZR N)%R).
    { split; [apply IZR_le; lia|]. rewrite <- mult_IZR. apply IZR_le. exact T1. }
    assert (Hq : (/ 2147483648 <= IZR (total xs) / IZR N <= 255)%R).
    { split.
      - apply Rmult_le_reg_r with (IZR N); [lra|].
        unfold Rdiv. rewrite Rmult_assoc, Rinv_l by lra. lra.
      - apply Rmult_le_reg_r with (IZR N); [lra|].
        unfold Rdiv. rewrite Rmult_assoc, Rinv_l by lra. lra. }
    split.
    + apply Rle_trans with (bpow (-31)); [apply bpow_le; lia|].
      change (-31) with (- (31)). rewrite bpow_neg_IZR by lia.
      change (2 ^ 31) with 2147483648. lra.
    + apply Rle_lt_trans with (bpow 8); [|apply bpow_lt; lia].
      rewrite bpow_IZR by lia. change (2 ^ 8) with 256. lra.
Qed.

(** ** One sample through a gain *)

Lemma of_Z_255 : normal (of_Z 255) /\ SF2R (of_Z 255) = 255%R.
Proof. apply (of_Z_exact 255). lia. Qed.

Lemma clip_normal (p : float64) :
  normal p -> SFltb (of_Z 255) p = false -> clip_0_255 p = p.
Proof.
  intros (m & e & -> & _) H. unfold clip_0_255, maximum, minimum.
  change (is_nan (S754_finite false m e)) with false.
  change (is_nan (of_Z 0)) with false.
  change (SFltb (S754_finite false m e) (of_Z 0)) with false.
  cbv iota.
  change (is_nan (S754_finite false m e)) with false.
  change (is_nan (of_Z 255)) with false.
  cbv iota. rewrite H. reflexivity.
Qed.

Lemma rescaled_normal (ic : Z) (p : float64) :
  normal p -> SFltb (of_Z 255) p = false ->
  0 <= to_uint8 ic (clip_0_255 p) <= 255
  /\ (SF2R p - 1 < IZR (to_uint8 ic (clip_0_255 p)) <= SF2R p)%R
  /\ (SF2R p <= 255)%R.
Proof.
  intros Hp Hc. rewrite (clip_normal p Hp Hc).
  destruct (trunc_normal p Hp) as (z & Ez & [Z1 Z2]).
  pose proof (SF2R_normal_pos p Hp) as Ppos.
  assert (Hle : (SF2R p <= 255)%R).
  { destruct (Rle_or_lt (SF2R p) 255) as [|Hgt]; [assumption|].
    rewrite <- (proj2 of_Z_255) in Hgt.
    apply SFltb_normal in Hgt; [congruence | apply of_Z_255 | exact Hp]. }
  assert (Hz : 0 <= z <= 255).
  { split.
    - assert (IZR (-1) < IZR z)%R by (change (IZR (-1)) with (-1)%R; lra).
      apply lt_IZR in H. lia.
    - apply le_IZR. lra. }
  unfold to_uint8. rewrite Ez. rewrite Z.mod_small by lia.
  split; [exact Hz|]. split; [lra | exact Hle].
Qed.

(** A sample scaled by a gain and stored: the integer part of the float
    product, which is within one rounding of the exact product. *)
Lemma rescaled_bounds (ic : Z) (g : float64) (s : Z) :
  normal g ->
  (bpow (-64) <= SF2R g <= bpow 64)%R ->
  uint8 s ->
  unclamped g s = true ->
  uint8 (rescaled ic g s)
  /\ (IZR s * SF2R g * (1 - u) - 1 <= IZR (rescaled ic g s)
      <= IZR s * SF2R g * (1 + u))%R.
Proof.
  intros Hg [G0 G1] [S0 S1] Hc. unfold unclamped in Hc.
  apply negb_true_iff in Hc. unfold rescaled.
  destruct (Z.eq_dec s 0) as [->|Hne].
  - destruct Hg as (m & e & -> & _).
    change (to_uint8 ic (clip_0_255 (mul (of_Z 0) (S754_finite false m e)))) with 0.
    split; [unfold uint8; lia|]. rewrite !Rmult_0_l. lra.
  - destruct (of_Z_exact s ltac:(lia)) as [Ns Vs].
    assert (Hs : (1 <= IZR s <= 255)%R).
    { split; apply IZR_le; lia. }
    assert (B1 : (bpow (-1021) <= bpow (-64))%R) by (apply bpow_le; lia).
    assert (B2 : (255 * bpow 64 < bpow 1023)%R).
    { apply Rlt_le_trans with (bpow 8 * bpow 64)%R.
      - rewrite (bpow_IZR 8) by lia. change (2 ^ 8) with 256.
        pose proof (bpow_pos 64). lra.
      - rewrite <- bpow_add. apply bpow_le. lia. }
    pose proof (bpow_pos (-64)) as P64.
    assert (H : rounds_to (SF2R (of_Z s) * SF2R g) (mul (of_Z s) g)).
    { apply mul_spec; [exact Ns | exact Hg |]. rewrite Vs. split; nra. }
    rewrite Vs in H.
    pose proof (rounds_to_error _ _ H) as He. apply Rabs_le_between in He.
    fold u in He.
    destruct (rescaled_normal ic _ (rounds_to_normal _ _ H) Hc) as [R1 [R2 _]].
    split; [exact R1|]. lra.
Qed.

Lemma total_app (xs ys : list Z) : total (xs ++ ys) = total xs + total ys.
Proof.
  unfold total. induction xs as [|x xs IH]; cbn [app fold_right]; [reflexivity|].
  rewrite IH. lia.
Qed.

(** The sum of the samples of a channel after a gain, against the exact
    product of the sum before and the gain. *)
Lemma total_rescaled_bounds (ic : Z) (g : float64) (xs : list Z) :
  normal g ->
  (bpow (-64) <= SF2R g <= bpow 64)%R ->
  Forall uint8 xs ->
  forallb (unclamped g) xs = true ->
  Forall uint8 (map (rescaled ic g) xs)
  /\ (IZR (total xs) * SF2R g * (1 - u) - IZR (Z.of_nat (length xs))
      <= IZR (total (map (rescaled ic g) xs))
      <= IZR (total xs) * SF2R g * (1 + u))%R.
Proof.
  intros Hg Hb H Hc. induction H as [|x xs Hx _ IH].
  - split; [constructor|]. cbn. lra.
  - cbn [forallb] in Hc. apply andb_true_iff in Hc. destruct Hc as [Hc1 Hc2].
    destruct (IH Hc2) as [IH1 IH2].
    destruct (rescaled_bounds ic g x Hg Hb Hx Hc1) as [R1 R2].
    split; [constructor; assumption|].
    cbn [map total fold_right length]. fold (total xs).
    fold (total (map (rescaled ic g) xs)).
    rewrite Nat2Z.inj_succ, <- Z.add_1_r, !plus_IZR.
    lra.
Qed.

(** ** The border after balancing (C6) *)

Lemma scale_error (M q N S : R) :
  (0 < N)%R -> (q * N = S)%R -> (- (u * q) <= M - q <= u * q)%R ->
  (S * (1 - u) <= M * N <= S * (1 + u))%R.
Proof.
  intros HN Hq [H1 H2].
  assert (A1 : ((M - q) * N <= u * q * N)%R) by (apply Rmult_le_compat_r; lra).
  assert (A2 : (- (u * q) * N <= (M - q) * N)%R) by (apply Rmult_le_compat_r; lra).
  replace (u * q * N)%R with (u * S)%R in A1 by (rewrite <- Hq; ring).
  replace (- (u * q) * N)%R with (- (u * S))%R in A2 by (rewrite <- Hq; ring).
  replace ((M - q) * N)%R with (M * N - S)%R in A1, A2 by (rewrite <- Hq; ring).
  lra.
Qed.

Lemma rounds_to_div_scaled (x y : R) (z : float64) :
  (0 < y)%R -> rounds_to (x / y) z ->
  (x * (1 - u) <= SF2R z * y <= x * (1 + u))%R.
Proof.
  intros Hy H. pose proof (rounds_to_error _ _ H) as He.
  apply Rabs_le_between in He. fold u in He.
  apply (scale_error _ (x / y)); [exact Hy | field; lra | exact He].
Qed.

Lemma Rdiv_between (x y lx hx ly hy : R) :
  (0 <= lx <= x)%R -> (x <= hx)%R -> (0 < ly <= y)%R -> (y <= hy)%R ->
  (lx / hy <= x / y <= hx / ly)%R.
Proof.
  intros [L0 L1] H1 [L2 L3] H2.
  assert (Hy : (0 < y)%R) by lra. assert (Hhy : (0 < hy)%R) by lra.
  split.
  - apply Rmult_le_reg_r with (hy * y)%R; [apply Rmult_lt_0_compat; lra|].
    replace (lx / hy * (hy * y))%R with (lx * y)%R by (field; lra).
    replace (x / y * (hy * y))%R with (x * hy)%R by (field; lra).
    apply Rmult_le_compat; lra.
  - apply Rmult_le_reg_r with (ly * y)%R; [apply Rmult_lt_0_compat; lra|].
    replace (x / y * (ly * y))%R with (x * ly)%R by (field; lra).
    replace (hx / ly * (ly * y))%R with (hx * y)%R by (field; lra).
    apply Rmult_le_compat; lra.
Qed.

Lemma neutral_real (S N M gv Gv : R) :
  (0 <= N)%R -> (0 <= gv)%R ->
  (S * (1 - u) <= M * N <= S * (1 + u))%R ->
  (Gv * (1 - u) <= gv * M <= Gv * (1 + u))%R ->
  (S * gv * (1 - u) <= N * Gv * (1 + u))%R
  /\ (N * Gv * (1 - u) <= S * gv * (1 + u))%R.
Proof.
  intros HN Hg [A1 A2] [B1 B2].
  pose proof (Rmult_le_compat_r gv _ _ Hg A1) as C1.
  pose proof (Rmult_le_compat_r gv _ _ Hg A2) as C2.
  pose proof (Rmult_le_compat_l N _ _ HN B1) as D1.
  pose proof (Rmult_le_compat_l N _ _ HN B2) as D2.
  split; lra.
Qed.

(** The gain [G / mean] of a channel with a nonzero sample: a normal float
    within a rounding of the exact quotient. *)
Lemma gain_spec (xs : list Z) (G : float64) :
  Forall uint8 xs ->
  Z.of_nat (length xs) < 2 ^ 31 ->
  0 < total xs ->
  normal G ->
  (bpow (-34) <= SF2R G <= 257)%R ->
  let m := np_mean (map of_Z xs) in
  normal (div G m)
  /\ (bpow (-64) <= SF2R (div G m) <= bpow 64)%R
  /\ (IZR (total xs) * (1 - u) <= SF2R m * IZR (Z.of_nat (length xs))
      <= IZR (total xs) * (1 + u))%R
  /\ (SF2R G * (1 - u) <= SF2R (div G m) * SF2R m <= SF2R G * (1 + u))%R.
Proof.
  intros Hx HN HS HG [G0 G1]. cbv zeta.
  set (N := Z.of_nat (length xs)) in *.
  assert (N0 : 0 < N).
  { destruct xs as [|x xs']; [cbn in HS; lia | unfold N; cbn [length]; lia]. }
  destruct (np_mean_uint8_spec xs Hx ltac:(fold N; lia)) as [[E _]|[_ Hm]]; [lia|].
  fold N in Hm. set (m := np_mean (map of_Z xs)) in *.
  pose proof (total_bounds xs Hx) as [_ T1]. fold N in T1.
  assert (HNr : (1 <= IZR N < 2147483648)%R).
  { split; [apply IZR_le; lia | apply IZR_lt; exact HN]. }
  assert (HSr : (1 <= IZR (total xs) <= 255 * IZR N)%R).
  { split; [apply IZR_le; lia|]. rewrite <- mult_IZR. apply IZR_le. exact T1. }
  pose proof u_pos as Hu. pose proof u_value as Uv. fold u in Uv.
  assert (HNpos : (0 < IZR N)%R) by lra.
  pose proof (rounds_to_div_scaled _ _ _ HNpos Hm) as HM.
  pose proof (rounds_to_normal _ _ Hm) as Nm.
  pose proof (SF2R_normal_pos m Nm) as Mpos.
  assert (HMb : (/ 4294967296 <= SF2R m <= 256)%R).
  { split.
    - apply Rmult_le_reg_r with (IZR N); [lra|]. rewrite Uv in HM. lra.
    - apply Rmult_le_reg_r with (IZR N); [lra|]. rewrite Uv in HM. nra. }
  assert (B34 : bpow (-34) = (/ 17179869184)%R).
  { change (-34) with (- (34)). rewrite bpow_neg_IZR by lia. reflexivity. }
  rewrite B34 in G0.
  assert (Hq : (/ 17179869184 / 256 <= SF2R G / SF2R m <= 257 / / 4294967296)%R).
  { apply Rdiv_between; lra. }
  assert (B64 : (bpow (-64) <= / 17179869184 / 256)%R).
  { apply Rle_trans with (bpow (-42)); [apply bpow_le; lia|].
    change (-42) with (- (42)). rewrite bpow_neg_IZR by lia.
    change (2 ^ 42) with 4398046511104. lra. }
  assert (B64' : (257 / / 4294967296 <= bpow 41)%R).
  { rewrite bpow_IZR by lia. change (2 ^ 41) with 2199023255552. lra. }
  assert (Hg : rounds_to (SF2R G / SF2R m) (div G m)).
  { apply div_spec; [exact HG | exact Nm |]. split.
    - apply Rle_trans with (bpow (-64)); [apply bpow_le; lia | lra].
    - apply Rle_lt_trans with (bpow 41); [lra | apply bpow_lt; lia]. }
  pose proof (rounds_to_normal _ _ Hg) as Ng.
  pose proof (rounds_to_div_scaled _ _ _ Mpos Hg) as Hgm.
  pose proof (rounds_to_error _ _ Hg) as Hge. apply Rabs_le_between in Hge.
  fold u in Hge.
  split; [exact Ng|]. split; [|split; [exact HM | exact Hgm]].
  split.
  - apply Rle_trans with (/ 17179869184 / 256 * (1 - u))%R.
    + apply Rle_trans with (bpow (-43)); [apply bpow_le; lia|].
      change (-43) with (- (43)). rewrite bpow_neg_IZR by lia.
      change (2 ^ 43) with 8796093022208. rewrite Uv. lra.
    + rewrite Uv in *. nra.
  - apply Rle_trans with (bpow 42); [|apply bpow_le; lia].
    rewrite bpow_IZR by lia. change (2 ^ 42) with 4398046511104.
    rewrite Uv in *. nra.
Qed.

(** What the gain [G / mean] does to the channel's sum: it becomes
    [N * G], up to the roundings and less than one per sample. *)
Lemma channel_sum_after (ic : Z) (xs : list Z) (G : float64) :
  Forall uint8 xs ->
  Z.of_nat (length xs) < 2 ^ 31 ->
  0 < total xs ->
  normal G ->
  (bpow (-34) <= SF2R G <= 257)%R ->
  forallb (unclamped (div G (np_mean (map of_Z xs)))) xs = true ->
  let S' := IZR (total (map (rescaled ic (div G (np_mean (map of_Z xs)))) xs)) in
  let T := (IZR (Z.of_nat (length xs)) * SF2R G)%R in
  (S' * (1 - u) <= T * ((1 + u) * (1 + u)))%R
  /\ (T * ((1 - u) * (1 - u)) <= (S' + IZR (Z.of_nat (length xs))) * (1 + u))%R.
Proof.
  intros Hx HN HS HG HGb Hc. cbv zeta.
  destruct (gain_spec xs G Hx HN HS HG HGb) as (Ng & Hgb & HM & Hgm).
  cbv zeta in *.
  set (N := Z.of_nat (length xs)) in *. set (m := np_mean (map of_Z xs)) in *.
  pose proof u_pos as Hu.
  pose proof (SF2R_normal_pos _ Ng) as gpos.
  assert (HNr : (0 <= IZR N)%R) by (apply IZR_le; unfold N; lia).
  destruct (total_rescaled_bounds ic (div G m) xs Ng Hgb Hx Hc) as [_ [R1 R2]].
  fold N in R1.
  destruct (neutral_real (IZR (total xs)) (IZR N) (SF2R m) (SF2R (div G m)) (SF2R G)
              HNr ltac:(lra) HM Hgm) as [K1 K2].
  set (S' := IZR (total (map (rescaled ic (div G m)) xs))) in *.
  set (sg := (IZR (total xs) * SF2R (div G m))%R) in *.
  split.
  - apply Rle_trans with (sg * (1 + u) * (1 - u))%R.
    + apply Rmult_le_compat_r; lra.
    + replace (sg * (1 + u) * (1 - u))%R with (sg * (1 - u) * (1 + u))%R by ring.
      rewrite <- Rmult_assoc. apply Rmult_le_compat_r; lra.
  - apply Rle_trans with (sg * (1 + u) * (1 - u))%R.
    + rewrite <- Rmult_assoc. apply Rmult_le_compat_r; lra.
    + replace (sg * (1 + u) * (1 - u))%R with (sg * (1 - u) * (1 + u))%R by ring.
      apply Rmult_le_compat_r; lra.
Qed.

Lemma channel_mean_bounds (xs : list Z) :
  Forall uint8 xs ->
  Z.of_nat (length xs) < 2 ^ 31 ->
  0 < total xs ->
  normal (np_mean (map of_Z xs))
  /\ (/ 4294967296 <= SF2R (np_mean (map of_Z xs)) <= 256)%R.
Proof.
  intros Hx HN HS.
  set (N := Z.of_nat (length xs)) in *.
  assert (N0 : 0 < N).
  { destruct xs as [|x xs']; [cbn in HS; lia | unfold N; cbn [length]; lia]. }
  destruct (np_mean_uint8_spec xs Hx ltac:(fold N; lia)) as [[E _]|[_ Hm]]; [lia|].
  fold N in Hm. set (m := np_mean (map of_Z xs)) in *.
  pose proof (total_bounds xs Hx) as [_ T1]. fold N in T1.
  assert (HNr : (1 <= IZR N < 2147483648)%R).
  { split; [apply IZR_le; lia | apply IZR_lt; exact HN]. }
  assert (HSr : (1 <= IZR (total xs) <= 255 * IZR N)%R).
  { split; [apply IZR_le; lia|]. rewrite <- mult_IZR. apply IZR_le. exact T1. }
  pose proof u_value as Uv. fold u in Uv.
  assert (HNpos : (0 < IZR N)%R) by lra.
  pose proof (rounds_to_div_scaled _ _ _ HNpos Hm) as HM.
  split; [exact (rounds_to_normal _ _ Hm)|]. rewrite Uv in HM. split.
  - apply Rmult_le_reg_r with (IZR N); [lra|]. lra.
  - apply Rmult_le_reg_r with (IZR N); [lra|]. nra.
Qed.

Lemma of_Z_3 : normal (of_Z 3) /\ SF2R (of_Z 3) = 3%R.
Proof. apply (of_Z_exact 3). lia. Qed.

(** The gray mean of three positive channel means is a normal float of
    their order of magnitude. *)
Lemma mean_gray_bounds (mr mg mb : float64) :
  normal mr -> normal mg -> normal mb ->
  (/ 4294967296 <= SF2R mr <= 256)%R ->
  (/ 4294967296 <= SF2R mg <= 256)%R ->
  (/ 4294967296 <= SF2R mb <= 256)%R ->
  normal (mean_gray_of (RGB mr mg mb))
  /\ (bpow (-34) <= SF2R (mean_gray_of (RGB mr mg mb)) <= 257)%R.
Proof.
  intros Nr Ng Nb Br Bg Bb. unfold mean_gray_of. cbn [red green blue].
  pose proof u_value as Uv.
  assert (Big : (1024 < bpow 1023)%R).
  { apply Rle_lt_trans with (bpow 10); [|apply bpow_lt; lia].
    rewrite bpow_IZR by lia. change (2 ^ 10) with 1024. lra. }
  assert (Small : (bpow (-1021) <= / 17179869184)%R).
  { apply Rle_trans with (bpow (-34)); [apply bpow_le; lia|].
    change (-34) with (- (34)). rewrite bpow_neg_IZR by lia.
    change (2 ^ 34) with 17179869184. lra. }
  assert (H1 : rounds_to (SF2R mr + SF2R mg) (add mr mg)).
  { apply add_spec; [exact Nr | exact Ng | lra]. }
  pose proof (rounds_to_error _ _ H1) as E1. apply Rabs_le_between in E1.
  rewrite Uv in E1.
  assert (H2 : rounds_to (SF2R (add mr mg) + SF2R mb) (add (add mr mg) mb)).
  { apply add_spec; [exact (rounds_to_normal _ _ H1) | exact Nb | lra]. }
  pose proof (rounds_to_error _ _ H2) as E2. apply Rabs_le_between in E2.
  rewrite Uv in E2.
  assert (H3 : rounds_to (SF2R (add (add mr mg) mb) / SF2R (of_Z 3))
                 (div (add (add mr mg) mb) (of_Z 3))).
  { apply div_spec; [exact (rounds_to_normal _ _ H2) | apply of_Z_3 |].
    rewrite (proj2 of_Z_3). lra. }
  rewrite (proj2 of_Z_3) in H3.
  pose proof (rounds_to_error _ _ H3) as E3. apply Rabs_le_between in E3.
  rewrite Uv in E3.
  split; [exact (rounds_to_normal _ _ H3)|].
  change (-34) with (- (34)). rewrite bpow_neg_IZR by lia.
  change (2 ^ 34) with 17179869184. lra.
Qed.

(** *** The shape of the balanced buffer *)

Lemma samples_of_apply_corrections (ic : Z) (k : rgb float64) (c : channel)
    (a : ndarray) :
  samples_of c (apply_corrections ic k a)
  = map (rescaled ic (get c k)) (samples_of c a).
Proof.
  unfold samples_of, take_channel, apply_corrections.
  rewrite map_map, concat_map, !map_map. f_equal. apply map_ext. intros row.
  rewrite !map_map. apply map_ext. intros p. destruct c; reflexivity.
Qed.

Lemma rows_upto_apply_corrections (ic : Z) (k : rgb float64) (n : Z) (a : ndarray) :
  rows_upto n (apply_corrections ic k a) = apply_corrections ic k (rows_upto n a).
Proof. unfold rows_upto, apply_corrections. apply firstn_map. Qed.

Lemma shape0_apply_corrections (ic : Z) (k : rgb float64) (a : ndarray) :
  shape0 (apply_corrections ic k a) = shape0 a.
Proof. unfold shape0, apply_corrections. rewrite length_map. reflexivity. Qed.

Lemma length_samples_of (c : channel) (a : ndarray) :
  Z.of_nat (length (samples_of c a)) = pixels a.
Proof.
  unfold samples_of, take_channel, pixels. rewrite <- concat_map, length_map.
  reflexivity.
Qed.

Lemma pixels_apply_corrections (ic : Z) (k : rgb float64) (a : ndarray) :
  pixels (apply_corrections ic k a) = pixels a.
Proof.
  rewrite <- (length_samples_of Red), samples_of_apply_corrections, length_map.
  apply length_samples_of.
Qed.

Lemma PixelBuffer_rows_upto (n : Z) (a : ndarray) :
  PixelBuffer a -> PixelBuffer (rows_upto n a).
Proof.
  unfold PixelBuffer, rows_upto. intros H. revert a H.
  induction (Z.to_nat n) as [|k IH]; intros a H; [constructor|].
  destruct H as [|row a Hrow H]; [constructor|].
  cbn [firstn]. constructor; [exact Hrow | apply IH; exact H].
Qed.

Lemma PixelBuffer_samples (c : channel) (a : ndarray) :
  PixelBuffer a -> Forall uint8 (samples_of c a).
Proof.
  unfold PixelBuffer, samples_of, take_channel. intros H.
  induction H as [|row a Hrow _ IH]; [constructor|].
  cbn [map concat]. apply Forall_app. split; [|exact IH].
  clear IH. induction Hrow as [|p row [Hr [Hg Hb]] _ IHrow]; [constructor|].
  cbn [map]. constructor; [destruct c; assumption | exact IHrow].
Qed.

Lemma unclamped_samples (k : rgb float64) (c : channel) (a : ndarray) :
  forallb (forallb (unclamped_pixel k)) a = true ->
  forallb (unclamped (get c k)) (samples_of c a) = true.
Proof.
  unfold samples_of, take_channel. induction a as [|row a IH]; [reflexivity|].
  cbn [forallb map concat]. rewrite andb_true_iff. intros [Hrow Ha].
  rewrite forallb_app, (IH Ha), andb_true_r. clear IH Ha.
  induction row as [|p row IHrow]; [reflexivity|].
  cbn [forallb map] in *. apply andb_true_iff in Hrow. destruct Hrow as [Hp Hrow].
  rewrite (IHrow Hrow), andb_true_r.
  unfold unclamped_pixel in Hp. rewrite !andb_true_iff in Hp.
  destruct Hp as [[H1 H2] H3]. destruct c; assumption.
Qed.

Lemma neutral_final (Sa Sb T N : R) :
  (0 <= T <= 2147483648 * 257)%R ->
  (Sa * (1 - u) <= T * ((1 + u) * (1 + u)))%R ->
  (T * ((1 - u) * (1 - u)) <= (Sb + N) * (1 + u))%R ->
  (Sa - Sb < N + 1)%R.
Proof.
  unfold u. rewrite u_value. intros H1 H2 H3. lra.
Qed.

(** C6, as the code has it: when every channel of the border region has a
    nonzero sample and no sample of the border is clamped at 255, the
    three border sums of the balanced buffer differ by at most the number
    of border pixels, that is, the three channel means of the border are
    within 1 of each other. *)
Theorem balanced_border_neutral (ic : Z) (a : ndarray) :
  PixelBuffer a ->
  shape0 a < 2 ^ 31 ->
  pixels (border_of a) < 2 ^ 31 ->
  (forall c, 0 < total (samples_of c (border_of a))) ->
  forallb (forallb (unclamped_pixel (gains_of a))) (border_of a) = true ->
  exists b,
    run (auto_balance_color ic) a = Returned b
    /\ forall c c',
        Z.abs (total (samples_of c (border_of b))
               - total (samples_of c' (border_of b)))
        <= pixels (border_of b).
Proof.
  intros Ha Hh HN HS Hc.
  exists (balanced ic (shape0 a / 20) a). split; [apply run_auto_balance_color; exact Hh|].
  unfold balanced. fold (border_of a). fold (gains_of a).
  unfold border_of at 1 2 3. rewrite shape0_apply_corrections.
  rewrite rows_upto_apply_corrections. fold (border_of a).
  rewrite pixels_apply_corrections.
  set (B := border_of a) in *.
  assert (HB : PixelBuffer B) by (apply PixelBuffer_rows_upto; exact Ha).
  set (m := fun c => np_mean (map of_Z (samples_of c B))).
  assert (Hm : forall c, normal (m c) /\ (/ 4294967296 <= SF2R (m c) <= 256)%R).
  { intros c. apply channel_mean_bounds;
      [apply PixelBuffer_samples; exact HB | rewrite length_samples_of; exact HN
      | apply HS]. }
  set (G := mean_gray_of (border_means B)).
  assert (HG : normal G /\ (bpow (-34) <= SF2R G <= 257)%R).
  { apply (mean_gray_bounds (m Red) (m Green) (m Blue)); apply Hm. }
  assert (Hk : forall c, get c (gains_of a) = div G (m c)).
  { intros c. destruct c; reflexivity. }
  assert (Hsum : forall c,
             let S' := IZR (total (samples_of c (apply_corrections ic (gains_of a) B))) in
             let T := (IZR (pixels B) * SF2R G)%R in
             (S' * (1 - u) <= T * ((1 + u) * (1 + u)))%R
             /\ (T * ((1 - u) * (1 - u)) <= (S' + IZR (pixels B)) * (1 + u))%R).
  { intros c. cbv zeta. rewrite samples_of_apply_corrections, Hk.
    rewrite <- (length_samples_of c B).
    apply channel_sum_after.
    - apply PixelBuffer_samples; exact HB.
    - rewrite length_samples_of; exact HN.
    - apply HS.
    - apply HG.
    - apply HG.
    - fold (m c). rewrite <- Hk. apply unclamped_samples. exact Hc. }
  assert (HT : (0 <= IZR (pixels B) * SF2R G <= 2147483648 * 257)%R).
  { assert (0 <= IZR (pixels B) <= 2147483648)%R.
    { split; [apply IZR_le; unfold pixels; lia|].
      apply IZR_le. change 2147483648 with (2 ^ 31). lia. }
    pose proof (bpow_pos (-34)). destruct HG as [_ HG]. split; [nra|].
    apply Rmult_le_compat; lra. }
  intros c c'.
  destruct (Hsum c) as [A1 A2]. destruct (Hsum c') as [B1 B2]. cbv zeta in *.
  pose proof (neutral_final _ _ _ _ HT A1 B2) as L1.
  pose proof (neutral_final _ _ _ _ HT B1 A2) as L2.
  rewrite <- minus_IZR, <- plus_IZR in L1, L2.
  apply lt_IZR in L1, L2. lia.
Qed.

Lemma balanced_border_neutral_witness :
  exists b,
    run (auto_balance_color 0) tinted_frame = Returned b
    /\ forall c c',
        Z.abs (total (samples_of c (border_of b))
               - total (samples_of c' (border_of b)))
        <= pixels (border_of b).
Proof.
  apply (balanced_border_neutral 0 tinted_frame).
  - apply rows_of_PixelBuffer. repeat constructor; cbn [red green blue]; lia.
  - reflexivity.
  - reflexivity.
  - intros c. destruct c; reflexivity.
  - vm_compute. reflexivity.
Defined.

(** C6 fails as stated: the border row of [contrasty_frame] has red
    samples 255 and 0; the red gain of about 1.64 sends 255 to 418, which
    is clamped to 255, and the border means after balancing are 127.5 in
    the red channel and 209 in the green one. *)
Lemma clamped_border_not_neutral :
  PixelBuffer contrasty_frame
  /\ run (auto_balance_color 0) contrasty_frame
     = Returned (rows_of 20 [RGB 255 209 209; RGB 0 209 209])
  /\ pixels (border_of (rows_of 20 [RGB 255 209 209; RGB 0 209 209])) = 2
  /\ total (samples_of Red (border_of (rows_of 20 [RGB 255 209 209; RGB 0 209 209])))
     = 255
  /\ total (samples_of Green (border_of (rows_of 20 [RGB 255 209 209; RGB 0 209 209])))
     = 418.
Proof.
  split.
  { apply rows_of_PixelBuffer. repeat constructor; cbn [red green blue]; lia. }
  repeat split; vm_compute; reflexivity.
Qed.

(** ** Truncation (C7) *)

Lemma clip_clamped (p : float64) :
  normal p -> SFltb (of_Z 255) p = true -> clip_0_255 p = of_Z 255.
Proof.
  intros (m & e & -> & _) H. unfold clip_0_255, maximum, minimum.
  change (is_nan (S754_finite false m e)) with false.
  change (is_nan (of_Z 0)) with false.
  change (SFltb (S754_finite false m e) (of_Z 0)) with false.
  cbv iota.
  change (is_nan (S754_finite false m e)) with false.
  change (is_nan (of_Z 255)) with false.
  cbv iota. rewrite H. reflexivity.
Qed.

(** The store into the [uint8] array keeps the integer part of the
    clamped product: the largest integer not above it. *)
Lemma rescaled_floor (ic : Z) (g : float64) (s : Z) :
  normal g ->
  (bpow (-64) <= SF2R g <= bpow 64)%R ->
  uint8 s ->
  (0 <= SF2R (clip_0_255 (mul (of_Z s) g)) <= 255)%R
  /\ (IZR (rescaled ic g s) <= SF2R (clip_0_255 (mul (of_Z s) g))
      < IZR (rescaled ic g s) + 1)%R.
Proof.
  intros Hg [G0 G1] [S0 S1]. unfold rescaled.
  destruct (Z.eq_dec s 0) as [->|Hne].
  - destruct Hg as (m & e & -> & _).
    change (clip_0_255 (mul (of_Z 0) (S754_finite false m e))) with zero.
    change (to_uint8 ic zero) with 0. cbn [SF2R zero]. lra.
  - destruct (of_Z_exact s ltac:(lia)) as [Ns Vs].
    assert (Hs : (1 <= IZR s <= 255)%R) by (split; apply IZR_le; lia).
    assert (B1 : (bpow (-1021) <= bpow (-64))%R) by (apply bpow_le; lia).
    assert (B2 : (255 * bpow 64 < bpow 1023)%R).
    { apply Rlt_le_trans with (bpow 8 * bpow 64)%R.
      - rewrite (bpow_IZR 8) by lia. change (2 ^ 8) with 256.
        pose proof (bpow_pos 64). lra.
      - rewrite <- bpow_add. apply bpow_le. lia. }
    pose proof (bpow_pos (-64)) as P64.
    assert (H : rounds_to (SF2R (of_Z s) * SF2R g) (mul (of_Z s) g)).
    { apply mul_spec; [exact Ns | exact Hg |]. rewrite Vs. split; nra. }
    pose proof (rounds_to_normal _ _ H) as Np.
    destruct (SFltb (of_Z 255) (mul (of_Z s) g)) eqn:Hc.
    + rewrite (clip_clamped _ Np Hc). rewrite (proj2 of_Z_255).
      change (to_uint8 ic (of_Z 255)) with 255. lra.
    + destruct (rescaled_normal ic _ Np Hc) as [R1 [R2 R3]].
      rewrite (clip_normal _ Np Hc) in *.
      pose proof (SF2R_normal_pos _ Np). lra.
Qed.

(** C7, as the code has it: when every channel of the border region has a
    nonzero sample (so that the three gains are numbers), the balancer
    replaces every sample [s] of a channel by [rescaled]: the float product
    of [s] and the channel's gain, clamped to the interval from 0 to 255,
    of which the store into the [uint8] array keeps the integer part, the
    largest integer not above it.  The fraction is dropped, not rounded. *)
Theorem balancer_truncates (ic : Z) (a : ndarray) :
  PixelBuffer a ->
  shape0 a < 2 ^ 31 ->
  pixels (border_of a) < 2 ^ 31 ->
  (forall c, 0 < total (samples_of c (border_of a))) ->
  run (auto_balance_color ic) a
  = Returned
      (map (map (fun p =>
                   RGB (rescaled ic (red (gains_of a)) (red p))
                       (rescaled ic (green (gains_of a)) (green p))
                       (rescaled ic (blue (gains_of a)) (blue p)))) a)
  /\ forall c s,
      uint8 s ->
      (0 <= SF2R (clip_0_255 (mul (of_Z s) (get c (gains_of a)))) <= 255)%R
      /\ (IZR (rescaled ic (get c (gains_of a)) s)
          <= SF2R (clip_0_255 (mul (of_Z s) (get c (gains_of a))))
          < IZR (rescaled ic (get c (gains_of a)) s) + 1)%R.
Proof.
  intros Ha Hh HN HS. split; [apply run_auto_balance_color; exact Hh|].
  set (B := border_of a) in *.
  assert (HB : PixelBuffer B) by (apply PixelBuffer_rows_upto; exact Ha).
  set (m := fun c => np_mean (map of_Z (samples_of c B))).
  assert (Hm : forall c, normal (m c) /\ (/ 4294967296 <= SF2R (m c) <= 256)%R).
  { intros c. apply channel_mean_bounds;
      [apply PixelBuffer_samples; exact HB | rewrite length_samples_of; exact HN
      | apply HS]. }
  set (G := mean_gray_of (border_means B)).
  assert (HG : normal G /\ (bpow (-34) <= SF2R G <= 257)%R).
  { apply (mean_gray_bounds (m Red) (m Green) (m Blue)); apply Hm. }
  intros c s Hs.
  assert (Hk : get c (gains_of a) = div G (m c)) by (destruct c; reflexivity).
  rewrite Hk.
  destruct (gain_spec (samples_of c B) G) as (Ng & Hgb & _).
  - apply PixelBuffer_samples; exact HB.
  - rewrite length_samples_of; exact HN.
  - apply HS.
  - apply HG.
  - apply HG.
  - apply rescaled_floor; assumption.
Qed.

Lemma balancer_truncates_witness :
  run (auto_balance_color 0) tinted_frame
  = Returned
      (map (map (fun p =>
                   RGB (rescaled 0 (red (gains_of tinted_frame)) (red p))
                       (rescaled 0 (green (gains_of tinted_frame)) (green p))
                       (rescaled 0 (blue (gains_of tinted_frame)) (blue p))))
         tinted_frame)
  /\ forall c s,
      uint8 s ->
      (0 <= SF2R (clip_0_255 (mul (of_Z s) (get c (gains_of tinted_frame)))) <= 255)%R
      /\ (IZR (rescaled 0 (get c (gains_of tinted_frame)) s)
          <= SF2R (clip_0_255 (mul (of_Z s) (get c (gains_of tinted_frame))))
          < IZR (rescaled 0 (get c (gains_of tinted_frame)) s) + 1)%R.
Proof.
  apply (balancer_truncates 0 tinted_frame).
  - apply rows_of_PixelBuffer. repeat constructor; cbn [red green blue]; lia.
  - reflexivity.
  - reflexivity.
  - intros c. destruct c; reflexivity.
Defined.

(** C7 fails as stated: in [tinted_frame] the red gain times the red sample
    100 is the float 166.66..., whose nearest integer is 167, and the
    balancer stores 166. *)
Lemma stored_sample_not_nearest :
  run (auto_balance_color 0) tinted_frame = Returned (rows_of 20 [RGB 166 166 166])
  /\ clip_0_255 (mul (of_Z 100) (red (gains_of tinted_frame)))
     = S754_finite false 5864062014805333 (-45)
  /\ (166 + / 2 < SF2R (S754_finite false 5864062014805333 (-45)) < 167)%R
  /\ rescaled 0 (red (gains_of tinted_frame)) 100 = 166.
Proof.
  split; [vm_compute; reflexivity|]. split; [vm_compute; reflexivity|].
  split; [|vm_compute; reflexivity].
  cbn [SF2R cond_Zopp]. change (-45) with (- (45)).
  rewrite bpow_neg_IZR by lia. change (2 ^ 45) with 35184372088832. lra.
Qed.

(** ** The error of a float sum *)

Lemma pow_1pu_ge1 (j : nat) : (1 <= (1 + u) ^ j)%R.
Proof. apply pow_R1_Rle. pose proof u_pos. lra. Qed.

Lemma pow_1mu_le1 (j : nat) : (0 <= (1 - u) ^ j <= 1)%R.
Proof.
  pose proof u_pos as Hu. induction j as [|j [IH1 IH2]]; cbn [pow]; [lra|].
  split; [apply Rmult_le_pos; lra | nra].
Qed.

Lemma pow_1pu_le (j : nat) :
  (2 * INR j * u <= 1)%R -> ((1 + u) ^ j <= 1 + 2 * INR j * u)%R.
Proof.
  pose proof u_pos as Hu. induction j as [|j IH]; intros H.
  - cbn [pow INR]. lra.
  - rewrite S_INR in *. cbn [pow].
    assert (Hj : (0 <= INR j)%R) by apply pos_INR.
    assert (H' : (2 * INR j * u <= 1)%R) by nra.
    specialize (IH H').
    apply Rle_trans with ((1 + u) * (1 + 2 * INR j * u))%R.
    + apply Rmult_le_compat_l; lra.
    + nra.
Qed.

Lemma pow_1mu_ge (j : nat) :
  (INR j * u <= 1)%R -> (1 - INR j * u <= (1 - u) ^ j)%R.
Proof.
  pose proof u_pos as Hu. induction j as [|j IH]; intros H.
  - cbn [pow INR]. lra.
  - rewrite S_INR in *. cbn [pow].
    assert (Hj : (0 <= INR j)%R) by apply pos_INR.
    assert (H' : (INR j * u <= 1)%R) by nra.
    specialize (IH H').
    apply Rle_trans with ((1 - u) * (1 - INR j * u))%R.
    + nra.
    + apply Rmult_le_compat_l; lra.
Qed.

Lemma nonneg_float_value (y : float64) : nonneg_float y -> (0 <= SF2R y)%R.
Proof.
  intros [->|H]; [cbn; lra|]. left. apply SF2R_normal_pos. exact H.
Qed.

Lemma add_nonneg (x y : float64) :
  nonneg_float x -> nonneg_float y ->
  (SF2R x + SF2R y < bpow 1023)%R ->
  nonneg_float (add x y)
  /\ ((SF2R x + SF2R y) * (1 - u) <= SF2R (add x y)
      <= (SF2R x + SF2R y) * (1 + u))%R.
Proof.
  pose proof u_pos as Hu.
  intros [->|Nx] [->|Ny] Hb.
  - split; [left; reflexivity|]. cbn. lra.
  - pose proof (SF2R_normal_pos y Ny).
    assert (E : add zero y = y) by (destruct Ny as (m & e & -> & _); reflexivity).
    rewrite E. split; [right; exact Ny|]. cbn [SF2R zero]. nra.
  - pose proof (SF2R_normal_pos x Nx).
    assert (E : add x zero = x) by (destruct Nx as (m & e & -> & _); reflexivity).
    rewrite E. split; [right; exact Nx|]. cbn [SF2R zero]. nra.
  - pose proof (add_spec x y Nx Ny Hb) as H.
    split; [right; exact (rounds_to_normal _ _ H)|].
    pose proof (rounds_to_error _ _ H) as He. apply Rabs_le_between in He.
    fold u in He. unfold add. lra.
Qed.

Lemma Rsum_bounded (l : list float64) :
  Forall (fun y => nonneg_float y /\ (SF2R y <= 256)%R) l ->
  (0 <= Rsum (map SF2R l) <= 256 * INR (length l))%R.
Proof.
  induction 1 as [|y l [Ny Hy] _ IH].
  - change (Rsum (map SF2R [])) with 0%R. cbn [length INR]. lra.
  - change (Rsum (map SF2R (y :: l))) with (SF2R y + Rsum (map SF2R l))%R.
    change (length (y :: l)) with (S (length l)). rewrite S_INR.
    pose proof (nonneg_float_value y Ny). lra.
Qed.

Lemma INR_small (n : nat) :
  Z.of_nat n < 2 ^ 31 -> (0 <= INR n <= 2147483648)%R.
Proof.
  intros H. split; [apply pos_INR|]. rewrite INR_IZR_INZ.
  apply IZR_le. change 2147483648 with (2 ^ 31). lia.
Qed.

(** The error of a sum of floats between 0 and 256, whatever the order of
    the additions: a factor [1 + u] or [1 - u] for each level of nesting. *)
Lemma summed_error (k : nat) (y : float64) (l : list float64) :
  summed k y l ->
  Forall (fun y => nonneg_float y /\ (SF2R y <= 256)%R) l ->
  Z.of_nat (length l) < 2 ^ 31 ->
  Z.of_nat k < 2 ^ 31 ->
  nonneg_float y
  /\ (Rsum (map SF2R l) * (1 - u) ^ k <= SF2R y
      <= Rsum (map SF2R l) * (1 + u) ^ k)%R.
Proof.
  pose proof u_pos as Hu. pose proof u_value as Uv. fold u in Uv.
  induction 1 as [x|k x y lx ly _ IHx _ IHy|k x l _ IH|k x l l' P _ IH];
    intros Hl Hlen Hk.
  - inversion Hl as [|? ? [Nx _] _]; subst. split; [exact Nx|].
    change (Rsum (map SF2R [x])) with (SF2R x + 0)%R. cbn [pow]. lra.
  - apply Forall_app in Hl. destruct Hl as [Hx Hy].
    rewrite length_app in Hlen.
    destruct (IHx Hx ltac:(lia) ltac:(lia)) as (Nx & Lx & Ux).
    destruct (IHy Hy ltac:(lia) ltac:(lia)) as (Ny & Ly & Uy).
    rewrite map_app, Rsum_app.
    pose proof (Rsum_bounded lx Hx) as [Sx0 Sx1].
    pose proof (Rsum_bounded ly Hy) as [Sy0 Sy1].
    pose proof (INR_small (length lx) ltac:(lia)) as [_ Bx].
    pose proof (INR_small (length ly) ltac:(lia)) as [_ By].
    pose proof (INR_small k ltac:(lia)) as [K0 K1].
    set (Sx := Rsum (map SF2R lx)) in *. set (Sy := Rsum (map SF2R ly)) in *.
    assert (Hc : ((1 + u) ^ k <= 2)%R).
    { apply Rle_trans with (1 + 2 * INR k * u)%R; [apply pow_1pu_le|];
        rewrite Uv; lra. }
    pose proof (pow_1pu_ge1 k) as Hc1. pose proof (pow_1mu_le1 k) as Hd.
    assert (Hx_hi : (SF2R x <= 2 * (256 * 2147483648))%R).
    { apply Rle_trans with (Sx * (1 + u) ^ k)%R; [exact Ux|].
      apply Rle_trans with (Sx * 2)%R; [apply Rmult_le_compat_l; lra | lra]. }
    assert (Hy_hi : (SF2R y <= 2 * (256 * 2147483648))%R).
    { apply Rle_trans with (Sy * (1 + u) ^ k)%R; [exact Uy|].
      apply Rle_trans with (Sy * 2)%R; [apply Rmult_le_compat_l; lra | lra]. }
    assert (Hb : (SF2R x + SF2R y < bpow 1023)%R).
    { apply Rlt_le_trans with (bpow 42); [|apply bpow_le; lia].
      rewrite bpow_IZR by lia. change (2 ^ 42) with 4398046511104. lra. }
    destruct (add_nonneg x y Nx Ny Hb) as [N [L U]].
    split; [exact N|]. cbn [pow]. split.
    + apply Rle_trans with ((SF2R x + SF2R y) * (1 - u))%R; [|exact L].
      replace ((Sx + Sy) * ((1 - u) * (1 - u) ^ k))%R
        with ((Sx * (1 - u) ^ k + Sy * (1 - u) ^ k) * (1 - u))%R by ring.
      apply Rmult_le_compat_r; lra.
    + apply Rle_trans with ((SF2R x + SF2R y) * (1 + u))%R; [exact U|].
      replace ((Sx + Sy) * ((1 + u) * (1 + u) ^ k))%R
        with ((Sx * (1 + u) ^ k + Sy * (1 + u) ^ k) * (1 + u))%R by ring.
      apply Rmult_le_compat_r; lra.
  - destruct (IH Hl Hlen ltac:(lia)) as (N & L & U).
    split; [exact N|]. cbn [pow].
    pose proof (Rsum_bounded l Hl) as [S0 _].
    pose proof (pow_1pu_ge1 k) as Hc1. pose proof (pow_1mu_le1 k) as Hd.
    set (S := Rsum (map SF2R l)) in *.
    assert (A1 : (0 <= S * (1 - u) ^ k)%R) by (apply Rmult_le_pos; lra).
    assert (A2 : (0 <= S * (1 + u) ^ k)%R) by (apply Rmult_le_pos; lra).
    split.
    + replace (S * ((1 - u) * (1 - u) ^ k))%R
        with ((S * (1 - u) ^ k) * (1 - u))%R by ring.
      nra.
    + replace (S * ((1 + u) * (1 + u) ^ k))%R
        with ((S * (1 + u) ^ k) * (1 + u))%R by ring.
      nra.
  - assert (E : Rsum (map SF2R l) = Rsum (map SF2R l')).
    { apply Rsum_perm. apply Permutation_map. exact P. }
    rewrite <- E. apply IH; [|rewrite (Permutation_length P); exact Hlen | exact Hk].
    apply (Permutation_Forall (Permutation_sym P)). exact Hl.
Qed.

(** A sum of fewer than 2^31 floats between 0 and 256 is within 2^-21 of
    the exact sum, relatively. *)
Lemma np_sum_error (ys : list float64) :
  ys <> [] ->
  Forall (fun y => nonneg_float y /\ (SF2R y <= 256)%R) ys ->
  Z.of_nat (length ys) < 2 ^ 31 ->
  nonneg_float (np_sum ys)
  /\ (Rsum (map SF2R ys) * (1 - / 4194304) <= SF2R (np_sum ys)
      <= Rsum (map SF2R ys) * (1 + / 2097152))%R.
Proof.
  intros Hne Hys Hlen. pose proof u_value as Uv. fold u in Uv.
  pose proof (Rsum_bounded ys Hys) as [HG _].
  destruct (summed_error _ _ _ (np_sum_summed ys Hne) Hys Hlen Hlen)
    as [N [L U]].
  split; [exact N|].
  pose proof (INR_small (length ys) Hlen) as Hk.
  pose proof (pow_1pu_le (length ys)) as P1.
  pose proof (pow_1mu_ge (length ys)) as P2.
  rewrite Uv in P1, P2.
  assert (Q1 : ((1 + u) ^ length ys <= 1 + / 2097152)%R) by (rewrite Uv; lra).
  assert (Q2 : (1 - / 4194304 <= (1 - u) ^ length ys)%R) by (rewrite Uv; lra).
  split.
  + apply Rle_trans with (Rsum (map SF2R ys) * (1 - u) ^ length ys)%R; [|exact L].
    apply Rmult_le_compat_l; lra.
  + apply Rle_trans with (Rsum (map SF2R ys) * (1 + u) ^ length ys)%R; [exact U|].
    apply Rmult_le_compat_l; lra.
Qed.

(** ** The mean brightness after the exposure normaliser (C5) *)

Lemma gray_spec (p : rgb Z) :
  uint8_pixel p ->
  nonneg_float (gray p)
  /\ (SF2R (gray p) <= 256)%R
  /\ (IZR (red p + green p + blue p) * (1 - u) <= 3 * SF2R (gray p)
      <= IZR (red p + green p + blue p) * (1 + u))%R.
Proof.
  intros (Hr & Hg & Hb). pose proof u_value as Uv. fold u in Uv.
  assert (Hx : Forall uint8 [red p; green p; blue p])
    by (constructor; [|constructor; [|constructor; [|constructor]]]; assumption).
  assert (Et : total [red p; green p; blue p] = red p + green p + blue p)
    by (cbn [total fold_right]; lia).
  unfold gray.
  destruct (np_mean_uint8_spec [red p; green p; blue p] Hx ltac:(cbn [length]; lia))
    as [[E ->]|[Hp Hm]].
  - rewrite Et in E. rewrite E. split; [left; reflexivity|]. cbn [SF2R zero]. lra.
  - rewrite Et in Hp, Hm. change (Z.of_nat (length [red p; green p; blue p])) with 3 in Hm.
    assert (H3 : (0 < 3)%R) by lra.
    pose proof (rounds_to_div_scaled _ _ _ H3 Hm) as HM.
    split; [right; exact (rounds_to_normal _ _ Hm)|].
    assert (IZR (red p + green p + blue p) <= 765)%R.
    { apply IZR_le. unfold uint8 in *. lia. }
    assert (0 < IZR (red p + green p + blue p))%R by (apply IZR_lt; exact Hp).
    rewrite Uv in *. split; lra.
Qed.

Lemma all_samples_concat (a : ndarray) :
  all_samples a = flat_map (fun p => [red p; green p; blue p]) (concat a).
Proof.
  unfold all_samples. induction a as [|row a IH]; [reflexivity|].
  cbn [flat_map concat]. rewrite flat_map_app, IH. reflexivity.
Qed.

Lemma grays_concat (a : ndarray) : concat (np_mean_axis2 a) = map gray (concat a).
Proof. unfold np_mean_axis2. rewrite <- concat_map. reflexivity. Qed.

Lemma PixelBuffer_concat (a : ndarray) : PixelBuffer a -> Forall uint8_pixel (concat a).
Proof.
  unfold PixelBuffer. induction 1 as [|row a Hrow _ IH]; [constructor|].
  cbn [concat]. apply Forall_app. split; assumption.
Qed.

Lemma gray_sum (ps : list (rgb Z)) :
  Forall uint8_pixel ps ->
  Forall (fun y => nonneg_float y /\ (SF2R y <= 256)%R) (map gray ps)
  /\ Forall uint8 (flat_map (fun p => [red p; green p; blue p]) ps)
  /\ (IZR (total (flat_map (fun p => [red p; green p; blue p]) ps)) * (1 - u)
      <= 3 * Rsum (map SF2R (map gray ps))
      <= IZR (total (flat_map (fun p => [red p; green p; blue p]) ps)) * (1 + u))%R.
Proof.
  induction 1 as [|p ps Hp _ (IH1 & IH2 & IH3)].
  - split; [constructor|]. split; [constructor|].
    change (Rsum (map SF2R (map gray []))) with 0%R. cbn [flat_map total fold_right]. lra.
  - destruct (gray_spec p Hp) as (G1 & G2 & G3).
    split; [constructor; [split; assumption | exact IH1]|].
    split.
    + cbn [flat_map]. destruct Hp as (Hr & Hg & Hb).
      constructor; [exact Hr|]. constructor; [exact Hg|].
      constructor; [exact Hb|]. exact IH2.
    + cbn [flat_map map]. rewrite total_app.
      change (Rsum (SF2R (gray p) :: map SF2R (map gray ps)))
        with (SF2R (gray p) + Rsum (map SF2R (map gray ps)))%R.
      assert (Et : total [red p; green p; blue p] = red p + green p + blue p)
        by (cbn [total fold_right]; lia).
      rewrite Et, plus_IZR. lra.
Qed.

Lemma exposure_real (S Gm A MB P F : R) :
  (0 <= F)%R -> (0 <= P)%R ->
  (S * (1 - u) <= 3 * Gm <= S * (1 + u))%R ->
  (Gm * (1 - / 4194304) <= A <= Gm * (1 + / 2097152))%R ->
  (A * (1 - u) <= MB * P <= A * (1 + u))%R ->
  (128 * (1 - u) <= F * MB <= 128 * (1 + u))%R ->
  (S * F * ((1 - u) * (1 - / 4194304) * (1 - u)) <= 384 * P * (1 + u))%R
  /\ (384 * P * (1 - u) <= S * F * ((1 + u) * (1 + / 2097152) * (1 + u)))%R.
Proof.
  intros HF HP [A1 A2] [B1 B2] [C1 C2] [D1 D2].
  pose proof (Rmult_le_compat_r F _ _ HF A1) as A1'.
  pose proof (Rmult_le_compat_r F _ _ HF A2) as A2'.
  pose proof (Rmult_le_compat_r F _ _ HF B1) as B1'.
  pose proof (Rmult_le_compat_r F _ _ HF B2) as B2'.
  pose proof (Rmult_le_compat_r F _ _ HF C1) as C1'.
  pose proof (Rmult_le_compat_r F _ _ HF C2) as C2'.
  pose proof (Rmult_le_compat_l P _ _ HP D1) as D1'.
  pose proof (Rmult_le_compat_l P _ _ HP D2) as D2'.
  unfold u in *. rewrite u_value in *. split; lra.
Qed.
Lemma length_all_samples (a : ndarray) :
  Z.of_nat (length (all_samples a)) = 3 * pixels a.
Proof.
  rewrite all_samples_concat. unfold pixels.
  induction (concat a) as [|p ps IH]; [reflexivity|].
  cbn [flat_map app length]. lia.
Qed.

Lemma all_samples_exposed (ic : Z) (a : ndarray) :
  all_samples (exposed ic a)
  = map (rescaled ic (adjustment_factor_of a)) (all_samples a).
Proof.
  unfold exposed. generalize (adjustment_factor_of a). intros f.
  unfold all_samples. induction a as [|row a IH]; [reflexivity|].
  cbn [map flat_map]. rewrite map_app, IH. f_equal.
  induction row as [|p row IHr]; [reflexivity|].
  cbn [map flat_map app]. rewrite IHr. reflexivity.
Qed.

(** The mean brightness the normaliser computes, [np.mean(gray)], against
    the exact sum of the samples: the gray levels, their float sum and the
    division each add a rounding error. *)
Lemma mean_brightness_spec (a : ndarray) :
  PixelBuffer a -> pixels a < 2 ^ 31 -> 0 < total (all_samples a) ->
  normal (mean_brightness_of a)
  /\ (/ 17179869184 <= SF2R (mean_brightness_of a) <= 257)%R
  /\ exists Gm A : R,
      (IZR (total (all_samples a)) * (1 - u) <= 3 * Gm
       <= IZR (total (all_samples a)) * (1 + u))%R
      /\ (Gm * (1 - / 4194304) <= A <= Gm * (1 + / 2097152))%R
      /\ (A * (1 - u) <= SF2R (mean_brightness_of a) * IZR (pixels a)
          <= A * (1 + u))%R.
Proof.
  intros Ha HP HS. pose proof u_value as Uv. fold u in Uv.
  unfold mean_brightness_of, np_mean_float64, np_mean.
  rewrite grays_concat, length_map. fold (pixels a).
  destruct (gray_sum (concat a) (PixelBuffer_concat a Ha)) as (G1 & G2 & G3).
  rewrite <- all_samples_concat in G2, G3.
  pose proof (total_bounds _ G2) as [_ T1]. rewrite length_all_samples in T1.
  assert (HP0 : 0 < pixels a) by lia.
  destruct (np_sum_error (map gray (concat a))) as (N1 & N2).
  { intros E. apply (f_equal (@length float64)) in E.
    rewrite length_map in E. unfold pixels in HP0. cbn [length] in E. lia. }
  { exact G1. }
  { rewrite length_map. fold (pixels a). exact HP. }
  set (S := IZR (total (all_samples a))) in *.
  set (Gm := Rsum (map SF2R (map gray (concat a)))) in *.
  set (acc := np_sum (map gray (concat a))) in *.
  set (P := IZR (pixels a)) in *.
  assert (S1 : (1 <= S)%R) by (apply (IZR_le 1); lia).
  assert (S2 : (S <= 765 * P)%R).
  { unfold S, P. rewrite <- mult_IZR. apply IZR_le. lia. }
  assert (P1 : (1 <= P)%R) by (apply (IZR_le 1); lia).
  assert (P2 : (P <= 2147483648)%R).
  { apply (IZR_le _ 2147483648). change 2147483648 with (2 ^ 31). lia. }
  assert (G3' : (S * (1 - / 9007199254740992) <= 3 * Gm
                 <= S * (1 + / 9007199254740992))%R).
  { rewrite <- Uv. exact G3. }
  assert (A0 : (/ 4 <= SF2R acc)%R) by lra.
  assert (A1 : (SF2R acc <= 256 * P)%R) by lra.
  destruct N1 as [E|NA]; [rewrite E in A0; cbn [SF2R zero] in A0; lra|].
  destruct (of_Z_exact (pixels a)) as [NP VP].
  { split; [exact HP0|]. apply Z.lt_trans with (2 ^ 31); [exact HP | reflexivity]. }
  fold P in VP.
  assert (Q : (/ 8589934592 <= SF2R acc / P <= 256)%R).
  { split; apply Rmult_le_reg_r with P; try lra;
      replace (SF2R acc / P * P)%R with (SF2R acc) by (field; lra); lra. }
  assert (Hm : rounds_to (SF2R acc / P) (div acc (of_Z (pixels a)))).
  { rewrite <- VP. apply div_spec; [exact NA | exact NP |]. rewrite VP.
    split.
    - apply Rle_trans with (bpow (- (33))); [apply bpow_le; lia|].
      rewrite bpow_neg_IZR by lia. change (2 ^ 33) with 8589934592. lra.
    - apply Rle_lt_trans with (bpow 8); [|apply bpow_lt; lia].
      rewrite (bpow_IZR 8) by lia. change (2 ^ 8) with 256. lra. }
  assert (HP' : (0 < P)%R) by lra.
  pose proof (rounds_to_div_scaled _ _ _ HP' Hm) as HM.
  pose proof (rounds_to_normal _ _ Hm) as NM.
  pose proof (SF2R_normal_pos _ NM) as M0.
  set (mb := div acc (of_Z (pixels a))) in *.
  split; [exact NM|]. split.
  - rewrite Uv in HM.
    pose proof (Rmult_le_compat_l (SF2R mb) _ _ (Rlt_le _ _ M0) P2) as M1.
    pose proof (Rmult_le_compat_l (SF2R mb) _ _ (Rlt_le _ _ M0) P1) as M2.
    split; [lra|].
    apply Rmult_le_reg_r with P; [exact HP'|]. lra.
  - exists Gm, (SF2R acc). split; [exact G3|]. split; [exact N2 | exact HM].
Qed.

(** The adjustment factor, [128.0 / mean_brightness]. *)
Lemma adjustment_factor_spec (a : ndarray) :
  normal (mean_brightness_of a) ->
  (/ 17179869184 <= SF2R (mean_brightness_of a) <= 257)%R ->
  normal (adjustment_factor_of a)
  /\ (bpow (-64) <= SF2R (adjustment_factor_of a) <= bpow 64)%R
  /\ (128 * (1 - u)
      <= SF2R (adjustment_factor_of a) * SF2R (mean_brightness_of a)
      <= 128 * (1 + u))%R.
Proof.
  intros NM [M1 M2]. pose proof u_value as Uv. fold u in Uv.
  unfold adjustment_factor_of, float_128_0.
  set (mb := mean_brightness_of a) in *.
  destruct (of_Z_exact 128 ltac:(lia)) as [N128 V128].
  assert (M0 : (0 < SF2R mb)%R) by lra.
  assert (Q : (/ 4 <= 128 / SF2R mb <= 2199023255552)%R).
  { split; apply Rmult_le_reg_r with (SF2R mb); try lra;
      replace (128 / SF2R mb * SF2R mb)%R with 128%R by (field; lra); lra. }
  assert (Hm : rounds_to (128 / SF2R mb) (div (of_Z 128) mb)).
  { rewrite <- V128. apply div_spec; [exact N128 | exact NM |]. rewrite V128.
    split.
    - apply Rle_trans with (bpow (- (2))); [apply bpow_le; lia|].
      rewrite bpow_neg_IZR by lia. change (2 ^ 2) with 4. lra.
    - apply Rle_lt_trans with (bpow 41); [|apply bpow_lt; lia].
      rewrite (bpow_IZR 41) by lia. change (2 ^ 41) with 2199023255552. lra. }
  pose proof (rounds_to_div_scaled _ _ _ M0 Hm) as HM.
  pose proof (rounds_to_normal _ _ Hm) as NF.
  pose proof (SF2R_normal_pos _ NF) as F0.
  set (f := div (of_Z 128) mb) in *.
  split; [exact NF|]. split; [|exact HM].
  rewrite Uv in HM.
  pose proof (Rmult_le_compat_l (SF2R f) _ _ (Rlt_le _ _ F0) M1) as B1.
  pose proof (Rmult_le_compat_l (SF2R f) _ _ (Rlt_le _ _ F0) M2) as B2.
  split.
  - apply Rle_trans with (bpow (- (2))); [apply bpow_le; lia|].
    rewrite bpow_neg_IZR by lia. change (2 ^ 2) with 4. lra.
  - apply Rle_trans with (bpow 42); [|apply bpow_le; lia].
    rewrite (bpow_IZR 42) by lia. change (2 ^ 42) with 4398046511104. lra.
Qed.

(** C5, as the code has it: when some sample is nonzero and no scaled
    sample exceeds 255 (nothing is clamped), the exposure normaliser
    returns a buffer whose mean sample lies between 126.99 and 128.01: the
    truncation of the store takes up to 1 off each sample, the float
    roundings far less.  The buffer has fewer than 2^31 pixels; the sum of
    its samples is compared with their number, [3 * pixels a]. *)
Theorem exposure_target (ic : Z) (a : ndarray) :
  PixelBuffer a ->
  pixels a < 2 ^ 31 ->
  0 < total (all_samples a) ->
  forallb (unclamped (adjustment_factor_of a)) (all_samples a) = true ->
  exists b,
    run (auto_adjust_exposure ic) a = Returned b
    /\ PixelBuffer b
    /\ 12699 * (3 * pixels a) <= 100 * total (all_samples b)
       <= 12801 * (3 * pixels a).
Proof.
  intros Ha HP HS Hc. exists (exposed ic a).
  split; [apply run_auto_adjust_exposure|].
  split; [apply exposed_PixelBuffer|].
  destruct (mean_brightness_spec a Ha HP HS)
    as (NM & MB & Gm & A & E1 & E2 & E3).
  destruct (adjustment_factor_spec a NM MB) as (NF & FB & E4).
  pose proof (SF2R_normal_pos _ NF) as F0.
  assert (HP0 : (0 <= IZR (pixels a))%R).
  { apply (IZR_le 0). unfold pixels. lia. }
  destruct (exposure_real _ _ _ _ _ _ (Rlt_le _ _ F0) HP0 E1 E2 E3 E4) as [X1 X2].
  assert (Hu : Forall uint8 (all_samples a)).
  { rewrite all_samples_concat.
    exact (proj1 (proj2 (gray_sum _ (PixelBuffer_concat a Ha)))). }
  destruct (total_rescaled_bounds ic _ _ NF FB Hu Hc) as (_ & T1 & T2).
  rewrite <- all_samples_exposed in T1, T2.
  rewrite length_all_samples, mult_IZR in T1.
  pose proof u_value as Uv. fold u in Uv. rewrite Uv in *.
  set (X := (IZR (total (all_samples a)) * SF2R (adjustment_factor_of a))%R) in *.
  split; apply le_IZR; rewrite !mult_IZR; lra.
Qed.

Lemma exposure_target_witness :
  exists b,
    run (auto_adjust_exposure 0) tinted_frame = Returned b
    /\ PixelBuffer b
    /\ 12699 * (3 * pixels tinted_frame) <= 100 * total (all_samples b)
       <= 12801 * (3 * pixels tinted_frame).
Proof.
  apply (exposure_target 0 tinted_frame).
  - apply rows_of_PixelBuffer. repeat constructor; cbn [red green blue]; lia.
  - reflexivity.
  - reflexivity.
  - vm_compute. reflexivity.
Defined.

(** C5 fails as stated: [sparse_frame] has one white pixel and three
    black ones, mean brightness 63.75; the factor of about 2.008 sends
    255 to 512, which is clamped to 255, and the buffer returned is the
    input, of mean 63.75 again. *)
Lemma clamped_exposure_off_target :
  PixelBuffer sparse_frame
  /\ mean_brightness_of sparse_frame = div (of_Z 255) (of_Z 4)
  /\ run (auto_adjust_exposure 0) sparse_frame = Returned sparse_frame
  /\ total (all_samples sparse_frame) = 765
  /\ Z.of_nat (length (all_samples sparse_frame)) = 12.
Proof.
  split.
  { repeat constructor; cbn [red green blue]; lia. }
  repeat split; vm_compute; reflexivity.
Qed.
(** * Further properties of the code *)

(** ** Rounding is monotone *)

Lemma bpow_cancel e : (bpow (- e) * bpow e = 1)%R.
Proof. rewrite <- bpow_add. replace (- e + e) with 0 by lia. apply bpow_0. Qed.

Lemma scaled_back (X : R) (e : Z) : (X = X * bpow (- e) * bpow e)%R.
Proof. rewrite Rmult_assoc, bpow_cancel. ring. Qed.

Lemma canonical_mantissa (m : positive) (e : Z) :
  canonical m e -> (bpow 52 <= IZR (Zpos m) < bpow 53)%R.
Proof.
  intros [Hm _]. rewrite !bpow_IZR by lia.
  split; [apply IZR_le | apply IZR_lt]; lia.
Qed.

(** A real below a float rounds to a float that is not above it. *)
Lemma rounds_to_le_float X y z :
  rounds_to X y -> normal z -> (X <= SF2R z)%R -> (SF2R y <= SF2R z)%R.
Proof.
  intros H (mz & ez & -> & Hc) Hle. cbn [SF2R cond_Zopp] in *.
  pose proof (canonical_mantissa _ _ Hc) as [M1 M2].
  destruct (rounds_to_SF2R _ _ H) as (m1 & e0 & [Ht1 Ht2] & Hr & ->).
  apply Rabs_le_between in Hr.
  pose proof (bpow_pos e0) as P0. pose proof (bpow_pos ez) as Pz.
  pose proof (scaled_back X e0) as XE.
  assert (He : e0 <= ez).
  { assert (L1 : (bpow 52 * bpow e0 <= X)%R).
    { rewrite XE. apply Rmult_le_compat_r; lra. }
    assert (L2 : (IZR (Zpos mz) * bpow ez < bpow 53 * bpow ez)%R)
      by (apply Rmult_lt_compat_r; lra).
    assert (L : (bpow (52 + e0) < bpow (53 + ez))%R) by (rewrite !bpow_add; lra).
    apply bpow_lt_inv in L. lia. }
  assert (Hz : (IZR (Zpos mz) * bpow ez
                = IZR (Zpos mz * 2 ^ (ez - e0)) * bpow e0)%R).
  { rewrite mult_IZR, <- bpow_IZR by lia. rewrite Rmult_assoc, <- bpow_add.
    f_equal. f_equal. lia. }
  rewrite Hz in *.
  assert (Hm : m1 <= Zpos mz * 2 ^ (ez - e0)).
  { assert (L : (X * bpow (- e0) <= IZR (Zpos mz * 2 ^ (ez - e0)))%R).
    { apply Rmult_le_reg_r with (bpow e0); [exact P0|]. rewrite <- XE. exact Hle. }
    assert (L' : (IZR m1 < IZR (Zpos mz * 2 ^ (ez - e0) + 1))%R)
      by (rewrite plus_IZR; lra).
    apply lt_IZR in L'. lia. }
  apply IZR_le in Hm. apply Rmult_le_compat_r; [lra | exact Hm].
Qed.

(** A real above a float rounds to a float that is not below it. *)
Lemma rounds_to_ge_float X y z :
  rounds_to X y -> normal z -> (SF2R z <= X)%R -> (SF2R z <= SF2R y)%R.
Proof.
  intros H (mz & ez & -> & Hc) Hle. cbn [SF2R cond_Zopp] in *.
  pose proof (canonical_mantissa _ _ Hc) as [M1 M2].
  destruct (rounds_to_SF2R _ _ H) as (m1 & e0 & [Ht1 Ht2] & Hr & ->).
  apply Rabs_le_between in Hr.
  pose proof (bpow_pos e0) as P0. pose proof (bpow_pos ez) as Pz.
  pose proof (scaled_back X e0) as XE.
  assert (L0 : (X < bpow 53 * bpow e0)%R).
  { rewrite XE. apply Rmult_lt_compat_r; lra. }
  assert (He : ez <= e0).
  { assert (L2 : (bpow 52 * bpow ez <= IZR (Zpos mz) * bpow ez)%R)
      by (apply Rmult_le_compat_r; lra).
    assert (L : (bpow (52 + ez) < bpow (53 + e0))%R) by (rewrite !bpow_add; lra).
    apply bpow_lt_inv in L. lia. }
  destruct (Z.eq_dec ez e0) as [->|Hne].
  - assert (L : (IZR (Zpos mz) <= X * bpow (- e0))%R).
    { apply Rmult_le_reg_r with (bpow e0); [exact P0|]. rewrite <- XE. exact Hle. }
    assert (L' : (IZR (Zpos mz) < IZR (m1 + 1))%R) by (rewrite plus_IZR; lra).
    apply lt_IZR in L'. assert (Hm : Zpos mz <= m1) by lia.
    apply IZR_le in Hm. apply Rmult_le_compat_r; [lra | exact Hm].
  - assert (L' : (IZR (2 ^ 52) < IZR (m1 + 1))%R).
    { rewrite plus_IZR, <- bpow_IZR by lia. lra. }
    apply lt_IZR in L'. assert (Hm : 2 ^ 52 <= m1) by lia.
    apply IZR_le in Hm. rewrite <- bpow_IZR in Hm by lia.
    assert (L1 : (IZR (Zpos mz) * bpow ez < bpow 53 * bpow ez)%R)
      by (apply Rmult_lt_compat_r; lra).
    assert (L2 : (bpow (53 + ez) <= bpow (52 + e0))%R) by (apply bpow_le; lia).
    rewrite !bpow_add in L2.
    assert (L3 : (bpow 52 * bpow e0 <= IZR m1 * bpow e0)%R)
      by (apply Rmult_le_compat_r; lra).
    lra.
Qed.

(** Of two reals the smaller rounds to the smaller float. *)
Lemma rounds_to_mono X X' y y' :
  rounds_to X y -> rounds_to X' y' -> (X < X')%R -> (SF2R y <= SF2R y')%R.
Proof.
  intros H H' Hlt.
  destruct (rounds_to_SF2R _ _ H) as (m1 & e0 & [Ht1 Ht2] & Hr & ->).
  destruct (rounds_to_SF2R _ _ H') as (m1' & e0' & [Ht1' Ht2'] & Hr' & ->).
  apply Rabs_le_between in Hr. apply Rabs_le_between in Hr'.
  pose proof (bpow_pos e0) as P0. pose proof (bpow_pos e0') as P0'.
  pose proof (scaled_back X e0) as XE. pose proof (scaled_back X' e0') as XE'.
  assert (L0 : (bpow 52 * bpow e0 <= X)%R).
  { rewrite XE. apply Rmult_le_compat_r; lra. }
  assert (L0' : (X' < bpow 53 * bpow e0')%R).
  { rewrite XE'. apply Rmult_lt_compat_r; lra. }
  assert (He : e0 <= e0').
  { assert (L : (bpow (52 + e0) < bpow (53 + e0'))%R) by (rewrite !bpow_add; lra).
    apply bpow_lt_inv in L. lia. }
  destruct (Z.eq_dec e0 e0') as [E|Hne].
  - subst e0'.
    assert (L : (X * bpow (- e0) < X' * bpow (- e0))%R).
    { apply Rmult_lt_compat_r; [apply bpow_pos | exact Hlt]. }
    assert (L' : (IZR m1 < IZR (m1' + 1))%R) by (rewrite plus_IZR; lra).
    apply lt_IZR in L'. assert (Hm : m1 <= m1') by lia.
    apply IZR_le in Hm. apply Rmult_le_compat_r; [lra | exact Hm].
  - assert (U : (IZR m1 < IZR (2 ^ 53 + 1))%R).
    { rewrite plus_IZR, <- bpow_IZR by lia. lra. }
    apply lt_IZR in U. assert (Hm : m1 <= 2 ^ 53) by lia.
    apply IZR_le in Hm. rewrite <- bpow_IZR in Hm by lia.
    assert (L' : (IZR (2 ^ 52) < IZR (m1' + 1))%R).
    { rewrite plus_IZR, <- bpow_IZR by lia. lra. }
    apply lt_IZR in L'. assert (Hm' : 2 ^ 52 <= m1') by lia.
    apply IZR_le in Hm'. rewrite <- bpow_IZR in Hm' by lia.
    assert (L2 : (bpow (53 + e0) <= bpow (52 + e0'))%R) by (apply bpow_le; lia).
    rewrite !bpow_add in L2.
    assert (L3 : (IZR m1 * bpow e0 <= bpow 53 * bpow e0)%R)
      by (apply Rmult_le_compat_r; lra).
    assert (L4 : (bpow 52 * bpow e0' <= IZR m1' * bpow e0')%R)
      by (apply Rmult_le_compat_r; lra).
    lra.
Qed.

(** ** The tone curve of a gain *)

Lemma scaled_sample_spec (g : float64) (s : Z) :
  normal g -> (bpow (-64) <= SF2R g <= bpow 64)%R -> 0 < s <= 255 ->
  rounds_to (IZR s * SF2R g) (mul (of_Z s) g).
Proof.
  intros Hg [G0 G1] [S0 S1].
  destruct (of_Z_exact s ltac:(lia)) as [Ns Vs].
  assert (Hs : (1 <= IZR s <= 255)%R) by (split; apply IZR_le; lia).
  assert (B1 : (bpow (-1021) <= bpow (-64))%R) by (apply bpow_le; lia).
  assert (B2 : (255 * bpow 64 < bpow 1023)%R).
  { apply Rlt_le_trans with (bpow 8 * bpow 64)%R.
    - rewrite (bpow_IZR 8) by lia. change (2 ^ 8) with 256.
      pose proof (bpow_pos 64). lra.
    - rewrite <- bpow_add. apply bpow_le. lia. }
  pose proof (bpow_pos (-64)) as P64.
  rewrite <- Vs. apply mul_spec; [exact Ns | exact Hg |]. rewrite Vs. split; nra.
Qed.

Lemma clip_value (p : float64) :
  normal p -> SF2R (clip_0_255 p) = Rmin (SF2R p) 255.
Proof.
  intros Np. destruct of_Z_255 as [N255 V255].
  destruct (SFltb (of_Z 255) p) eqn:Hc.
  - rewrite (clip_clamped _ Np Hc), V255.
    apply (SFltb_normal _ _ N255 Np) in Hc. rewrite V255 in Hc.
    rewrite Rmin_right; lra.
  - rewrite (clip_normal _ Np Hc).
    assert (L : ~ (255 < SF2R p)%R).
    { intros L. rewrite <- V255 in L.
      apply (SFltb_normal _ _ N255 Np) in L. congruence. }
    rewrite Rmin_left; lra.
Qed.

Lemma rescaled_zero (ic : Z) (g : float64) : normal g -> rescaled ic g 0 = 0.
Proof. intros (m & e & -> & _). reflexivity. Qed.

Lemma rescaled_uint8 (ic : Z) (g : float64) (s : Z) : uint8 (rescaled ic g s).
Proof. unfold rescaled. apply to_uint8_range. Qed.

(** The value stored does not depend on the cast of NaN. *)
Lemma rescaled_any_cast (ic ic' : Z) (g : float64) (s : Z) :
  normal g -> (bpow (-64) <= SF2R g <= bpow 64)%R -> uint8 s ->
  rescaled ic g s = rescaled ic' g s.
Proof.
  intros Hg Hb Hs.
  destruct (rescaled_floor ic g s Hg Hb Hs) as [_ [F1 F2]].
  destruct (rescaled_floor ic' g s Hg Hb Hs) as [_ [F1' F2']].
  assert (L : (IZR (rescaled ic g s) < IZR (rescaled ic' g s + 1))%R)
    by (rewrite plus_IZR; lra).
  assert (L' : (IZR (rescaled ic' g s) < IZR (rescaled ic g s + 1))%R)
    by (rewrite plus_IZR; lra).
  apply lt_IZR in L, L'. lia.
Qed.

Lemma rescaled_mono (ic : Z) (g : float64) (s s' : Z) :
  normal g -> (bpow (-64) <= SF2R g <= bpow 64)%R ->
  uint8 s -> uint8 s' -> s <= s' ->
  rescaled ic g s <= rescaled ic g s'.
Proof.
  intros Hg Hb Hs Hs' Hle.
  destruct (Z.eq_dec s s') as [->|Hne]; [lia|].
  destruct (Z.eq_dec s 0) as [->|Hs0].
  - rewrite rescaled_zero by exact Hg. apply (rescaled_uint8 ic g s').
  - destruct Hs as [S0 S1], Hs' as [S0' S1'].
    destruct (rescaled_floor ic g s Hg Hb (conj S0 S1)) as [_ [F1 F2]].
    destruct (rescaled_floor ic g s' Hg Hb (conj S0' S1')) as [_ [F1' F2']].
    pose proof (scaled_sample_spec g s Hg Hb ltac:(lia)) as H.
    pose proof (scaled_sample_spec g s' Hg Hb ltac:(lia)) as H'.
    assert (Hlt : (IZR s * SF2R g < IZR s' * SF2R g)%R).
    { apply Rmult_lt_compat_r; [apply SF2R_normal_pos; exact Hg|].
      apply IZR_lt. lia. }
    pose proof (rounds_to_mono _ _ _ _ H H' Hlt) as Hm.
    rewrite (clip_value _ (rounds_to_normal _ _ H)) in F1.
    rewrite (clip_value _ (rounds_to_normal _ _ H')) in F2'.
    assert (Hmin : (Rmin (SF2R (mul (of_Z s) g)) 255
                    <= Rmin (SF2R (mul (of_Z s') g)) 255)%R).
    { apply Rle_min_compat_r. exact Hm. }
    assert (L : (IZR (rescaled ic g s) < IZR (rescaled ic g s' + 1))%R)
      by (rewrite plus_IZR; lra).
    apply lt_IZR in L. lia.
Qed.

(** A gain of at most 1 raises no sample, one of at least 1 lowers none. *)
Lemma rescaled_le (ic : Z) (g : float64) (s : Z) :
  normal g -> (bpow (-64) <= SF2R g <= 1)%R -> uint8 s ->
  rescaled ic g s <= s.
Proof.
  intros Hg [G0 G1] [S0 S1].
  assert (Hb : (bpow (-64) <= SF2R g <= bpow 64)%R).
  { split; [exact G0|]. apply Rle_trans with (bpow 0); [rewrite bpow_0; exact G1|].
    apply bpow_le. lia. }
  destruct (Z.eq_dec s 0) as [->|Hs0].
  - rewrite rescaled_zero by exact Hg. lia.
  - destruct (rescaled_floor ic g s Hg Hb (conj S0 S1)) as [_ [F1 _]].
    pose proof (scaled_sample_spec g s Hg Hb ltac:(lia)) as H.
    destruct (of_Z_exact s ltac:(lia)) as [Ns Vs].
    assert (Hs : (1 <= IZR s)%R) by (apply (IZR_le 1); lia).
    assert (Hx : (IZR s * SF2R g <= SF2R (of_Z s))%R).
    { rewrite Vs. pose proof (Rmult_le_compat_l (IZR s) _ _ ltac:(lra) G1). lra. }
    pose proof (rounds_to_le_float _ _ _ H Ns Hx) as Hm. rewrite Vs in Hm.
    rewrite (clip_value _ (rounds_to_normal _ _ H)) in F1.
    pose proof (Rmin_l (SF2R (mul (of_Z s) g)) 255).
    apply le_IZR. lra.
Qed.

Lemma rescaled_ge (ic : Z) (g : float64) (s : Z) :
  normal g -> (1 <= SF2R g <= bpow 64)%R -> uint8 s ->
  s <= rescaled ic g s.
Proof.
  intros Hg [G0 G1] [S0 S1].
  assert (Hb : (bpow (-64) <= SF2R g <= bpow 64)%R).
  { split; [|exact G1]. apply Rle_trans with (bpow 0); [|rewrite bpow_0; exact G0].
    apply bpow_le. lia. }
  destruct (Z.eq_dec s 0) as [->|Hs0].
  - rewrite rescaled_zero by exact Hg. lia.
  - destruct (rescaled_floor ic g s Hg Hb (conj S0 S1)) as [_ [_ F2]].
    pose proof (scaled_sample_spec g s Hg Hb ltac:(lia)) as H.
    destruct (of_Z_exact s ltac:(lia)) as [Ns Vs].
    assert (Hs : (1 <= IZR s <= 255)%R) by (split; apply IZR_le; lia).
    assert (Hx : (SF2R (of_Z s) <= IZR s * SF2R g)%R).
    { rewrite Vs. pose proof (Rmult_le_compat_l (IZR s) _ _ ltac:(lra) G0). lra. }
    pose proof (rounds_to_ge_float _ _ _ H Ns Hx) as Hm. rewrite Vs in Hm.
    rewrite (clip_value _ (rounds_to_normal _ _ H)) in F2.
    assert (Hmin : (IZR s <= Rmin (SF2R (mul (of_Z s) g)) 255)%R).
    { apply Rmin_glb; lra. }
    assert (L : (IZR s < IZR (rescaled ic g s + 1))%R) by (rewrite plus_IZR; lra).
    apply lt_IZR in L. lia.
Qed.

(** The gains of a border whose three channels have a nonzero sample. *)
Lemma gains_normal (a : ndarray) :
  PixelBuffer a ->
  pixels (border_of a) < 2 ^ 31 ->
  (forall c, 0 < total (samples_of c (border_of a))) ->
  forall c,
    normal (get c (gains_of a))
    /\ (bpow (-64) <= SF2R (get c (gains_of a)) <= bpow 64)%R.
Proof.
  intros Ha HN HS.
  set (B := border_of a) in *.
  assert (HB : PixelBuffer B) by (apply PixelBuffer_rows_upto; exact Ha).
  set (m := fun c => np_mean (map of_Z (samples_of c B))).
  assert (Hm : forall c, normal (m c) /\ (/ 4294967296 <= SF2R (m c) <= 256)%R).
  { intros c. apply channel_mean_bounds;
      [apply PixelBuffer_samples; exact HB | rewrite length_samples_of; exact HN
      | apply HS]. }
  set (G := mean_gray_of (border_means B)).
  assert (HG : normal G /\ (bpow (-34) <= SF2R G <= 257)%R).
  { apply (mean_gray_bounds (m Red) (m Green) (m Blue)); apply Hm. }
  intros c.
  assert (Hk : get c (gains_of a) = div G (m c)) by (destruct c; reflexivity).
  rewrite Hk.
  destruct (gain_spec (samples_of c B) G) as (Ng & Hgb & _).
  - apply PixelBuffer_samples; exact HB.
  - rewrite length_samples_of; exact HN.
  - apply HS.
  - apply HG.
  - apply HG.
  - split; assumption.
Qed.

(** The adjustment factor of a buffer with a nonzero sample. *)
Lemma adjustment_factor_normal (a : ndarray) :
  PixelBuffer a -> pixels a < 2 ^ 31 -> 0 < total (all_samples a) ->
  normal (adjustment_factor_of a)
  /\ (bpow (-64) <= SF2R (adjustment_factor_of a) <= bpow 64)%R.
Proof.
  intros Ha HP HS.
  destruct (mean_brightness_spec a Ha HP HS) as (NM & MB & _).
  destruct (adjustment_factor_spec a NM MB) as (NF & FB & _).
  split; assumption.
Qed.

(** ** The exposure normaliser as a tone curve *)

Lemma exposed_map (ic : Z) (a : ndarray) :
  run (auto_adjust_exposure ic) a
  = Returned (map (map (rgb_map (rescaled ic (adjustment_factor_of a)))) a).
Proof. apply run_auto_adjust_exposure. Qed.

Lemma row_black_or_not (row : list (rgb Z)) :
  Forall uint8_pixel row ->
  Forall (fun p => p = RGB 0 0 0) row
  \/ 0 < total (flat_map (fun p => [red p; green p; blue p]) row).
Proof.
  induction 1 as [|p row Hp Hrow IH]; [left; constructor|].
  pose proof (gray_sum row Hrow) as (_ & Hu & _).
  pose proof (total_bounds _ Hu) as [T0 _].
  cbn [flat_map app total fold_right].
  fold (total (flat_map (fun p => [red p; green p; blue p]) row)).
  destruct p as [r g b]. destruct Hp as (Hr & Hg & Hb).
  cbn [red green blue] in *. unfold uint8 in *.
  destruct IH as [IH|IH]; [|right; lia].
  destruct (Z.eq_dec (r + g + b) 0) as [E|E]; [|right; lia].
  left. constructor; [|exact IH].
  f_equal; lia.
Qed.

Lemma black_or_not (a : ndarray) :
  PixelBuffer a -> all_black a \/ 0 < total (all_samples a).
Proof.
  unfold PixelBuffer, all_black, all_samples.
  induction 1 as [|row a Hrow Ha IH]; [left; constructor|].
  cbn [flat_map]. rewrite total_app.
  pose proof (gray_sum row Hrow) as (_ & Hu & _).
  pose proof (total_bounds _ Hu) as [T0 _].
  pose proof (gray_sum _ (PixelBuffer_concat a Ha)) as (_ & Hu' & _).
  rewrite <- all_samples_concat in Hu'. unfold all_samples in Hu'.
  pose proof (total_bounds _ Hu') as [T0' _].
  destruct (row_black_or_not row Hrow) as [R|R]; [|right; lia].
  destruct IH as [IH|IH]; [|right; lia].
  left. constructor; assumption.
Qed.

Lemma float_128_normal : normal float_128_0 /\ SF2R float_128_0 = 128%R.
Proof. apply (of_Z_exact 128). lia. Qed.

(** The factor is the quotient [128 / mean_brightness], rounded once. *)
Lemma adjustment_factor_rounds (a : ndarray) :
  PixelBuffer a -> pixels a < 2 ^ 31 -> 0 < total (all_samples a) ->
  normal (mean_brightness_of a)
  /\ rounds_to (128 / SF2R (mean_brightness_of a)) (adjustment_factor_of a).
Proof.
  intros Ha HP HS.
  destruct (mean_brightness_spec a Ha HP HS) as (NM & [M1 M2] & _).
  split; [exact NM|].
  unfold adjustment_factor_of.
  set (mb := mean_brightness_of a) in *.
  destruct float_128_normal as [N128 V128].
  assert (M0 : (0 < SF2R mb)%R) by lra.
  assert (Q : (/ 4 <= 128 / SF2R mb <= 2199023255552)%R).
  { split; apply Rmult_le_reg_r with (SF2R mb); try lra;
      replace (128 / SF2R mb * SF2R mb)%R with 128%R by (field; lra); lra. }
  rewrite <- V128. apply div_spec; [exact N128 | exact NM |]. rewrite V128.
  split.
  - apply Rle_trans with (bpow (- (2))); [apply bpow_le; lia|].
    rewrite bpow_neg_IZR by lia. change (2 ^ 2) with 4. lra.
  - apply Rle_lt_trans with (bpow 41); [|apply bpow_lt; lia].
    rewrite (bpow_IZR 41) by lia. change (2 ^ 41) with 2199023255552. lra.
Qed.

(** X1: on a buffer with a nonzero sample the exposure normaliser applies
    one and the same map [f] to every sample of every channel; [f] sends 0
    to 0 and is non-decreasing, so black stays black and the order of two
    sample values is never reversed. *)
Theorem exposure_tone_curve (ic : Z) (a : ndarray) :
  PixelBuffer a -> pixels a < 2 ^ 31 -> 0 < total (all_samples a) ->
  exists f : Z -> Z,
    run (auto_adjust_exposure ic) a = Returned (map (map (rgb_map f)) a)
    /\ f 0 = 0
    /\ forall s s', uint8 s -> uint8 s' -> s <= s' -> f s <= f s'.
Proof.
  intros Ha HP HS.
  destruct (adjustment_factor_normal a Ha HP HS) as [NF FB].
  exists (rescaled ic (adjustment_factor_of a)).
  split; [apply exposed_map|].
  split; [apply rescaled_zero; exact NF|].
  intros s s' Hs Hs' Hle. apply rescaled_mono; assumption.
Qed.

Lemma exposure_tone_curve_witness :
  exists f : Z -> Z,
    run (auto_adjust_exposure 0) tinted_frame
    = Returned (map (map (rgb_map f)) tinted_frame)
    /\ f 0 = 0
    /\ forall s s', uint8 s -> uint8 s' -> s <= s' -> f s <= f s'.
Proof.
  apply (exposure_tone_curve 0 tinted_frame).
  - apply rows_of_PixelBuffer. repeat constructor; cbn [red green blue]; lia.
  - reflexivity.
  - reflexivity.
Defined.

(** X2: a buffer whose mean brightness, as the normaliser computes it, is
    above 128 is only darkened: no sample of the result is above the
    sample it comes from. *)
Theorem exposure_darkens (ic : Z) (a : ndarray) :
  PixelBuffer a -> pixels a < 2 ^ 31 ->
  SFltb float_128_0 (mean_brightness_of a) = true ->
  exists f : Z -> Z,
    run (auto_adjust_exposure ic) a = Returned (map (map (rgb_map f)) a)
    /\ forall s, uint8 s -> f s <= s.
Proof.
  intros Ha HP Hlt.
  assert (HS : 0 < total (all_samples a)).
  { destruct (black_or_not a Ha) as [Hb|Hb]; [|exact Hb].
    apply all_black_mean_brightness in Hb.
    destruct (mean_brightness_of a); try contradiction; discriminate Hlt. }
  destruct (adjustment_factor_rounds a Ha HP HS) as [NM HR].
  destruct (adjustment_factor_normal a Ha HP HS) as [NF [F0 F1]].
  destruct float_128_normal as [N128 V128].
  apply (SFltb_normal _ _ N128 NM) in Hlt. rewrite V128 in Hlt.
  exists (rescaled ic (adjustment_factor_of a)).
  split; [apply exposed_map|].
  intros s Hs. apply rescaled_le; [exact NF | | exact Hs].
  split; [exact F0|].
  rewrite <- (proj2 one_normal).
  apply (rounds_to_le_float _ _ _ HR (proj1 one_normal)).
  rewrite (proj2 one_normal).
  apply Rmult_le_reg_r with (SF2R (mean_brightness_of a)); [lra|].
  replace (128 / SF2R (mean_brightness_of a) * SF2R (mean_brightness_of a))%R
    with 128%R by (field; lra).
  lra.
Qed.

(** X3: a buffer with a nonzero sample whose mean brightness, as the
    normaliser computes it, is below 128 is only brightened: no sample of
    the result is below the sample it comes from. *)
Theorem exposure_brightens (ic : Z) (a : ndarray) :
  PixelBuffer a -> pixels a < 2 ^ 31 -> 0 < total (all_samples a) ->
  SFltb (mean_brightness_of a) float_128_0 = true ->
  exists f : Z -> Z,
    run (auto_adjust_exposure ic) a = Returned (map (map (rgb_map f)) a)
    /\ forall s, uint8 s -> s <= f s.
Proof.
  intros Ha HP HS Hlt.
  destruct (adjustment_factor_rounds a Ha HP HS) as [NM HR].
  destruct (adjustment_factor_normal a Ha HP HS) as [NF [F0 F1]].
  destruct float_128_normal as [N128 V128].
  apply (SFltb_normal _ _ NM N128) in Hlt. rewrite V128 in Hlt.
  pose proof (SF2R_normal_pos _ NM) as M0.
  exists (rescaled ic (adjustment_factor_of a)).
  split; [apply exposed_map|].
  intros s Hs. apply rescaled_ge; [exact NF | | exact Hs].
  split; [|exact F1].
  rewrite <- (proj2 one_normal).
  apply (rounds_to_ge_float _ _ _ HR (proj1 one_normal)).
  rewrite (proj2 one_normal).
  apply Rmult_le_reg_r with (SF2R (mean_brightness_of a)); [lra|].
  replace (128 / SF2R (mean_brightness_of a) * SF2R (mean_brightness_of a))%R
    with 128%R by (field; lra).
  lra.
Qed.

Lemma exposure_darkens_witness :
  exists f : Z -> Z,
    run (auto_adjust_exposure 0) tinted_frame
    = Returned (map (map (rgb_map f)) tinted_frame)
    /\ forall s, uint8 s -> f s <= s.
Proof.
  apply (exposure_darkens 0 tinted_frame).
  - apply rows_of_PixelBuffer. repeat constructor; cbn [red green blue]; lia.
  - reflexivity.
  - vm_compute. reflexivity.
Defined.

Lemma exposure_brightens_witness :
  exists f : Z -> Z,
    run (auto_adjust_exposure 0) dim_frame
    = Returned (map (map (rgb_map f)) dim_frame)
    /\ forall s, uint8 s -> s <= f s.
Proof.
  apply (exposure_brightens 0 dim_frame).
  - apply rows_of_PixelBuffer. repeat constructor; cbn [red green blue]; lia.
  - reflexivity.
  - reflexivity.
  - vm_compute. reflexivity.
Defined.

Lemma map_rescaled_one (ic : Z) (a : ndarray) :
  PixelBuffer a -> map (map (rgb_map (rescaled ic one))) a = a.
Proof.
  unfold PixelBuffer. intros H.
  induction H as [|row a Hrow _ IH]; cbn [map]; [reflexivity|]. f_equal; [|exact IH].
  induction Hrow as [|p row [Hr [Hg Hb]] _ IHrow]; cbn [map]; [reflexivity|].
  f_equal; [|exact IHrow].
  destruct p as [r g b]. unfold rgb_map. cbn [red green blue] in *.
  rewrite !rescaled_one by assumption. reflexivity.
Qed.

(** X4: a buffer whose mean brightness, as the normaliser computes it, is
    exactly 128.0 comes back unchanged: the factor is exactly 1.0. *)
Theorem exposure_fixed_at_target (ic : Z) (a : ndarray) :
  PixelBuffer a ->
  mean_brightness_of a = float_128_0 ->
  adjustment_factor_of a = one
  /\ run (auto_adjust_exposure ic) a = Returned a.
Proof.
  intros Ha E.
  assert (EF : adjustment_factor_of a = one).
  { unfold adjustment_factor_of. rewrite E.
    apply div_self. apply float_128_normal. }
  split; [exact EF|].
  rewrite run_auto_adjust_exposure. f_equal.
  unfold exposed. rewrite EF. apply map_rescaled_one. exact Ha.
Qed.

Lemma exposure_fixed_at_target_witness :
  adjustment_factor_of midgray_frame = one
  /\ run (auto_adjust_exposure 0) midgray_frame = Returned midgray_frame.
Proof.
  apply (exposure_fixed_at_target 0 midgray_frame).
  - apply rows_of_PixelBuffer. repeat constructor; cbn [red green blue]; lia.
  - vm_compute. reflexivity.
Defined.

(** ** Uniform buffers *)

Lemma total_constant (v : Z) (xs : list Z) :
  Forall (eq v) xs -> total xs = v * Z.of_nat (length xs).
Proof.
  induction 1 as [|x xs <- _ IH]; cbn [total fold_right length]; [lia|].
  fold (total xs). lia.
Qed.

(** The mean of equal samples is that sample, exactly. *)
Lemma np_mean_constant (v : Z) (xs : list Z) :
  0 < v <= 255 -> Forall (eq v) xs ->
  0 < Z.of_nat (length xs) < 2 ^ 31 ->
  np_mean (map of_Z xs) = of_Z v.
Proof.
  intros Hv Hxs Hn.
  assert (Hu : Forall uint8 xs).
  { eapply Forall_impl; [|exact Hxs]. intros x <-. unfold uint8. lia. }
  pose proof (total_constant v xs Hxs) as Et.
  destruct (of_Z_exact v ltac:(lia)) as [Nv Vv].
  destruct (np_mean_uint8_spec xs Hu Hn) as [[E _]|[Hp Hm]]; [nia|].
  assert (EX : (IZR (total xs) / IZR (Z.of_nat (length xs)) = IZR v)%R).
  { rewrite Et, mult_IZR. field. apply not_0_IZR. lia. }
  rewrite EX in Hm.
  apply normal_unique; [exact (rounds_to_normal _ _ Hm) | exact Nv |].
  rewrite Vv. apply (rounds_to_exact _ _ v 0 Hm); [rewrite bpow_0; ring|].
  apply IZR_lt_bpow; lia.
Qed.

Lemma mean_brightness_filled (v : Z) (a : ndarray) :
  0 < v <= 255 -> 0 < pixels a < 2 ^ 31 ->
  mean_brightness_of (filled v a) = of_Z v.
Proof.
  intros Hv HP.
  assert (Eg : gray (RGB v v v) = of_Z v).
  { unfold gray. cbn [red green blue]. apply np_mean_constant; [exact Hv | |].
    - repeat constructor.
    - cbn [length]. lia. }
  unfold mean_brightness_of, np_mean_float64.
  rewrite grays_concat. unfold filled. rewrite <- concat_map, map_map.
  rewrite (map_ext _ (fun _ => of_Z v)) by (intros; exact Eg).
  rewrite <- (map_map (fun _ => v) of_Z).
  apply np_mean_constant; [exact Hv | |].
  - apply Forall_forall. intros x Hx. apply in_map_iff in Hx.
    destruct Hx as (p & <- & _). reflexivity.
  - rewrite length_map. exact HP.
Qed.

Lemma uniform_tone (ic v : Z) :
  0 < v <= 255 ->
  rescaled ic (div float_128_0 (of_Z v)) v
  = if existsb (Z.eqb v)
         [49; 98; 103; 107; 161; 187; 196; 197; 206; 214; 237; 239; 249; 253]
    then 127 else 128.
Proof.
  intros Hv.
  assert (E : forallb
                (fun n =>
                   rescaled ic (div float_128_0 (of_Z (Z.of_nat n))) (Z.of_nat n)
                   =? (if existsb (Z.eqb (Z.of_nat n))
                            [49; 98; 103; 107; 161; 187; 196; 197; 206; 214;
                             237; 239; 249; 253]
                       then 127 else 128))
                (seq 1 255) = true) by (vm_compute; reflexivity).
  rewrite forallb_forall in E.
  specialize (E (Z.to_nat v)). rewrite Z2Nat.id in E by lia.
  apply Z.eqb_eq, E. apply in_seq. lia.
Qed.

(** X5: a buffer of one value [v] throughout (1 to 255, any shape of
    fewer than 2^31 pixels) has mean brightness exactly [v]; the exposure
    normaliser returns the buffer of that shape filled with 128, or with
    127 for the fourteen values [v] for which [v * (128.0 / v)] falls just
    below 128 in binary64 and is truncated. *)
Theorem exposure_of_uniform (ic v : Z) (a : ndarray) :
  0 < v <= 255 -> 0 < pixels a < 2 ^ 31 ->
  mean_brightness_of (filled v a) = of_Z v
  /\ run (auto_adjust_exposure ic) (filled v a)
     = Returned
         (filled
            (if existsb (Z.eqb v)
                  [49; 98; 103; 107; 161; 187; 196; 197; 206; 214; 237; 239;
                   249; 253]
             then 127 else 128) a).
Proof.
  intros Hv HP. pose proof (mean_brightness_filled v a Hv HP) as EM.
  split; [exact EM|].
  rewrite run_auto_adjust_exposure. f_equal.
  unfold exposed, adjustment_factor_of. rewrite EM.
  unfold filled. rewrite map_map. apply map_ext. intros row.
  rewrite map_map. apply map_ext. intros _.
  unfold rgb_map. cbn [red green blue]. rewrite uniform_tone by exact Hv.
  reflexivity.
Qed.

Lemma exposure_of_uniform_witness :
  mean_brightness_of (filled 49 tinted_frame) = of_Z 49
  /\ run (auto_adjust_exposure 0) (filled 49 tinted_frame)
     = Returned (filled 127 tinted_frame).
Proof.
  apply (exposure_of_uniform 0 49 tinted_frame); [lia|].
  split; reflexivity.
Defined.

(** ** The colour balancer as three tone curves *)

Lemma balanced_map (ic : Z) (a : ndarray) :
  shape0 a < 2 ^ 31 ->
  run (auto_balance_color ic) a
  = Returned
      (map (map (fun p =>
                   RGB (rescaled ic (get Red (gains_of a)) (red p))
                       (rescaled ic (get Green (gains_of a)) (green p))
                       (rescaled ic (get Blue (gains_of a)) (blue p)))) a).
Proof. intros Hh. rewrite run_auto_balance_color by exact Hh. reflexivity. Qed.

(** X6: when every channel of the border has a nonzero sample, the
    balancer applies to each channel one map of its own, the same for
    every pixel; each of the three maps sends 0 to 0 and is
    non-decreasing. *)
Theorem balancer_tone_curves (ic : Z) (a : ndarray) :
  PixelBuffer a ->
  shape0 a < 2 ^ 31 ->
  pixels (border_of a) < 2 ^ 31 ->
  (forall c, 0 < total (samples_of c (border_of a))) ->
  exists f : channel -> Z -> Z,
    run (auto_balance_color ic) a
    = Returned
        (map (map (fun p =>
                     RGB (f Red (red p)) (f Green (green p)) (f Blue (blue p))))
           a)
    /\ forall c,
        f c 0 = 0
        /\ forall s s', uint8 s -> uint8 s' -> s <= s' -> f c s <= f c s'.
Proof.
  intros Ha Hh HN HS.
  pose proof (gains_normal a Ha HN HS) as Hg.
  exists (fun c => rescaled ic (get c (gains_of a))).
  split; [apply balanced_map; exact Hh|].
  intros c. destruct (Hg c) as [Ng Bg].
  split; [apply rescaled_zero; exact Ng|].
  intros s s' Hs Hs' Hle. apply rescaled_mono; assumption.
Qed.

Lemma balancer_tone_curves_witness :
  exists f : channel -> Z -> Z,
    run (auto_balance_color 0) tinted_frame
    = Returned
        (map (map (fun p =>
                     RGB (f Red (red p)) (f Green (green p)) (f Blue (blue p))))
           tinted_frame)
    /\ forall c,
        f c 0 = 0
        /\ forall s s', uint8 s -> uint8 s' -> s <= s' -> f c s <= f c s'.
Proof.
  apply (balancer_tone_curves 0 tinted_frame).
  - apply rows_of_PixelBuffer. repeat constructor; cbn [red green blue]; lia.
  - reflexivity.
  - reflexivity.
  - intros c. destruct c; reflexivity.
Defined.

(** ** The cast of NaN plays no part outside the degenerate cases *)

Lemma map_pixels_ext (f g : rgb Z -> rgb Z) (a : ndarray) :
  PixelBuffer a ->
  (forall p, uint8_pixel p -> f p = g p) ->
  map (map f) a = map (map g) a.
Proof.
  unfold PixelBuffer. intros H E.
  induction H as [|row a Hrow _ IH]; cbn [map]; [reflexivity|]. f_equal; [|exact IH].
  induction Hrow as [|p row Hp _ IHrow]; cbn [map]; [reflexivity|].
  f_equal; [apply E; exact Hp | exact IHrow].
Qed.

(** X7: when every channel of the border has a nonzero sample, the buffer
    the balancer returns is the same whatever the platform makes of a NaN
    stored into a [uint8] array: no NaN reaches the store. *)
Theorem balancer_ignores_nan_cast (ic ic' : Z) (a : ndarray) :
  PixelBuffer a ->
  shape0 a < 2 ^ 31 ->
  pixels (border_of a) < 2 ^ 31 ->
  (forall c, 0 < total (samples_of c (border_of a))) ->
  run (auto_balance_color ic) a = run (auto_balance_color ic') a.
Proof.
  intros Ha Hh HN HS.
  pose proof (gains_normal a Ha HN HS) as Hg.
  rewrite !balanced_map by exact Hh. f_equal.
  apply map_pixels_ext; [exact Ha|].
  intros p (Hr & Hgr & Hb).
  f_equal; apply rescaled_any_cast; try assumption; apply Hg.
Qed.

Lemma balancer_ignores_nan_cast_witness :
  run (auto_balance_color 0) tinted_frame
  = run (auto_balance_color 255) tinted_frame.
Proof.
  apply (balancer_ignores_nan_cast 0 255 tinted_frame).
  - apply rows_of_PixelBuffer. repeat constructor; cbn [red green blue]; lia.
  - reflexivity.
  - reflexivity.
  - intros c. destruct c; reflexivity.
Defined.

(** X8: on a buffer with a nonzero sample, the buffer the exposure
    normaliser returns is the same whatever the platform makes of a NaN
    cast to [uint8]. *)
Theorem exposure_ignores_nan_cast (ic ic' : Z) (a : ndarray) :
  PixelBuffer a -> pixels a < 2 ^ 31 -> 0 < total (all_samples a) ->
  run (auto_adjust_exposure ic) a = run (auto_adjust_exposure ic') a.
Proof.
  intros Ha HP HS.
  destruct (adjustment_factor_normal a Ha HP HS) as [NF FB].
  rewrite !exposed_map. f_equal.
  apply map_pixels_ext; [exact Ha|].
  intros p (Hr & Hg & Hb). unfold rgb_map.
  f_equal; apply rescaled_any_cast; assumption.
Qed.

Lemma exposure_ignores_nan_cast_witness :
  run (auto_adjust_exposure 0) tinted_frame
  = run (auto_adjust_exposure 255) tinted_frame.
Proof.
  apply (exposure_ignores_nan_cast 0 255 tinted_frame).
  - apply rows_of_PixelBuffer. repeat constructor; cbn [red green blue]; lia.
  - reflexivity.
  - reflexivity.
Defined.

(** ** A border channel without signal *)

Lemma channel_mean_cases (xs : list Z) :
  Forall uint8 xs ->
  0 < Z.of_nat (length xs) < 2 ^ 31 ->
  (total xs = 0 /\ np_mean (map of_Z xs) = zero)
  \/ (0 < total xs
      /\ normal (np_mean (map of_Z xs))
      /\ (/ 4294967296 <= SF2R (np_mean (map of_Z xs)) <= 256)%R).
Proof.
  intros Hu Hn.
  destruct (np_mean_uint8_spec xs Hu Hn) as [[E Ez]|[Hp _]].
  - left. split; assumption.
  - right. split; [exact Hp|]. apply channel_mean_bounds; [exact Hu | lia | exact Hp].
Qed.

(** The gray mean is a number as soon as one channel mean is not zero. *)
Lemma mean_gray_some (mr mg mb : float64) :
  (mr = zero \/ normal mr /\ (/ 4294967296 <= SF2R mr <= 256)%R) ->
  (mg = zero \/ normal mg /\ (/ 4294967296 <= SF2R mg <= 256)%R) ->
  (mb = zero \/ normal mb /\ (/ 4294967296 <= SF2R mb <= 256)%R) ->
  normal mr \/ normal mg \/ normal mb ->
  normal (mean_gray_of (RGB mr mg mb)).
Proof.
  intros Hr Hg Hb Hsome. pose proof u_value as Uv. fold u in Uv.
  assert (V : forall m,
             (m = zero \/ normal m /\ (/ 4294967296 <= SF2R m <= 256)%R) ->
             nonneg_float m /\ (0 <= SF2R m <= 256)%R
             /\ (normal m -> (/ 4294967296 <= SF2R m)%R)).
  { intros m [->|[N B]].
    - split; [left; reflexivity|]. cbn [SF2R zero]. split; [lra|].
      intros (m0 & e0 & E & _). discriminate E.
    - split; [right; exact N|]. split; [lra|]. intros _. lra. }
  destruct (V _ Hr) as (Nr & Br & Lr), (V _ Hg) as (Ng & Bg & Lg),
    (V _ Hb) as (Nb & Bb & Lb).
  assert (Hsum : (/ 4294967296 <= SF2R mr + SF2R mg + SF2R mb)%R).
  { destruct Hsome as [H|[H|H]];
      [pose proof (Lr H) | pose proof (Lg H) | pose proof (Lb H)]; lra. }
  assert (Big : (1024 < bpow 1023)%R).
  { apply Rlt_le_trans with (bpow 11); [|apply bpow_le; lia].
    rewrite (bpow_IZR 11) by lia. change (2 ^ 11) with 2048. lra. }
  destruct (add_nonneg mr mg Nr Ng ltac:(lra)) as [N1 B1].
  rewrite Uv in B1.
  destruct (add_nonneg (add mr mg) mb N1 Nb ltac:(lra)) as [N2 B2].
  rewrite Uv in B2.
  unfold mean_gray_of. cbn [red green blue].
  set (s := add (add mr mg) mb) in *.
  assert (S0 : (/ 8589934592 <= SF2R s <= 769)%R) by lra.
  destruct N2 as [E|N2]; [rewrite E in S0; cbn [SF2R zero] in S0; lra|].
  destruct of_Z_3 as [N3 V3].
  apply (rounds_to_normal (SF2R s / SF2R (of_Z 3))).
  apply div_spec; [exact N2 | exact N3 |]. rewrite V3. split.
  - apply Rle_trans with (bpow (- (35))); [apply bpow_le; lia|].
    rewrite bpow_neg_IZR by lia. change (2 ^ 35) with 34359738368. lra.
  - lra.
Qed.

Lemma rescaled_infinity (ic s : Z) :
  uint8 s ->
  rescaled ic (S754_infinity false) s = if s =? 0 then ic mod 256 else 255.
Proof.
  intros [H0 H1]. destruct (Z.eqb_spec s 0) as [->|Hne]; [reflexivity|].
  assert (E : forallb
                (fun n => rescaled ic (S754_infinity false) (Z.of_nat n) =? 255)
                (seq 1 255) = true) by (vm_compute; reflexivity).
  rewrite forallb_forall in E.
  specialize (E (Z.to_nat s)). rewrite Z2Nat.id in E by lia.
  apply Z.eqb_eq, E. apply in_seq. lia.
Qed.

(** X9: when the samples of one channel are all 0 in the border while
    another channel has a nonzero border sample, the first channel's gain
    is the quotient of a positive number by 0.0, +Inf; the balancer raises
    nothing and saturates that channel throughout the image: every nonzero
    sample becomes 255, and every zero sample (0 x Inf is NaN) becomes the
    platform's cast of NaN. *)
Theorem starved_channel_saturates (ic : Z) (a : ndarray) (c c' : channel) :
  PixelBuffer a ->
  shape0 a < 2 ^ 31 ->
  0 < pixels (border_of a) < 2 ^ 31 ->
  total (samples_of c (border_of a)) = 0 ->
  0 < total (samples_of c' (border_of a)) ->
  get c (gains_of a) = S754_infinity false
  /\ exists b,
      run (auto_balance_color ic) a = Returned b
      /\ samples_of c b
         = map (fun s => if s =? 0 then ic mod 256 else 255) (samples_of c a).
Proof.
  intros Ha Hh HN Hz Hp.
  set (B := border_of a) in *.
  assert (HB : PixelBuffer B) by (apply PixelBuffer_rows_upto; exact Ha).
  set (m := fun c => np_mean (map of_Z (samples_of c B))).
  assert (Hm : forall c0,
             (total (samples_of c0 B) = 0 /\ m c0 = zero)
             \/ (0 < total (samples_of c0 B)
                 /\ normal (m c0) /\ (/ 4294967296 <= SF2R (m c0) <= 256)%R)).
  { intros c0. apply channel_mean_cases;
      [apply PixelBuffer_samples; exact HB | rewrite length_samples_of; exact HN]. }
  assert (Hm' : forall c0,
             m c0 = zero
             \/ normal (m c0) /\ (/ 4294967296 <= SF2R (m c0) <= 256)%R).
  { intros c0. destruct (Hm c0) as [[_ E]|[_ E]]; [left | right]; exact E. }
  assert (Nc' : normal (m c')).
  { destruct (Hm c') as [[E _]|[_ [N _]]]; [lia | exact N]. }
  assert (Zc : m c = zero).
  { destruct (Hm c) as [[_ E]|[E _]]; [exact E | lia]. }
  set (G := mean_gray_of (border_means B)).
  assert (NG : normal G).
  { apply (mean_gray_some (m Red) (m Green) (m Blue)); try apply Hm'.
    destruct c'; auto. }
  assert (Hk : get c (gains_of a) = S754_infinity false).
  { assert (E : get c (gains_of a) = div G (m c)) by (destruct c; reflexivity).
    rewrite E, Zc. destruct NG as (mG & eG & -> & _). reflexivity. }
  split; [exact Hk|].
  exists (balanced ic (shape0 a / 20) a).
  split; [apply run_auto_balance_color; exact Hh|].
  unfold balanced. fold (border_of a). fold (gains_of a).
  rewrite samples_of_apply_corrections, Hk.
  pose proof (PixelBuffer_samples c a Ha) as Hu.
  induction Hu as [|s l Hs _ IH]; [reflexivity|].
  cbn [map]. rewrite rescaled_infinity by exact Hs. f_equal. exact IH.
Qed.

Lemma starved_channel_saturates_witness :
  get Red (gains_of redless_border_frame) = S754_infinity false
  /\ exists b,
      run (auto_balance_color 7) redless_border_frame = Returned b
      /\ samples_of Red b
         = map (fun s => if s =? 0 then 7 mod 256 else 255)
             (samples_of Red redless_border_frame).
Proof.
  apply (starved_channel_saturates 7 redless_border_frame Red Green).
  - constructor; [|apply rows_of_PixelBuffer];
      repeat constructor; cbn [red green blue]; lia.
  - reflexivity.
  - split; reflexivity.
  - reflexivity.
  - reflexivity.
Defined.

(** ** The border region *)

Lemma shape0_rows_upto (n : Z) (a : ndarray) :
  0 <= n <= shape0 a -> shape0 (rows_upto n a) = n.
Proof.
  unfold shape0, rows_upto. intros H. rewrite length_firstn. lia.
Qed.

(** X10: for a buffer of [h] rows, [h] below 2^31, the product
    [h * 0.05] in binary64 never falls on the wrong side of an integer:
    [int(h * 0.05)] is the integer quotient of [h] by 20, it raises
    nothing, and the border region is exactly the first [h / 20] rows. *)
Theorem border_height_quotient (a : ndarray) (w : world) :
  shape0 a < 2 ^ 31 ->
  int (mul (of_Z (shape0 a)) float_0_05) w = (Returned (shape0 a / 20), w)
  /\ shape0 (rows_upto (shape0 a / 20) a) = shape0 a / 20
  /\ 20 * (shape0 a / 20) <= shape0 a < 20 * (shape0 a / 20 + 1).
Proof.
  intros Hh.
  assert (H0 : 0 <= shape0 a) by (unfold shape0; lia).
  split.
  - unfold int. rewrite border_height_spec by lia. reflexivity.
  - split; [apply shape0_rows_upto|]; pose proof (Z.div_mod (shape0 a) 20);
      pose proof (Z.mod_pos_bound (shape0 a) 20); lia.
Qed.

Lemma border_height_quotient_witness :
  int (mul (of_Z (shape0 tinted_frame)) float_0_05) (World [] [])
  = (Returned (shape0 tinted_frame / 20), World [] [])
  /\ shape0 (rows_upto (shape0 tinted_frame / 20) tinted_frame)
     = shape0 tinted_frame / 20
  /\ 20 * (shape0 tinted_frame / 20) <= shape0 tinted_frame
     < 20 * (shape0 tinted_frame / 20 + 1).
Proof.
  apply (border_height_quotient tinted_frame (World [] [])). reflexivity.
Defined.

(** X11: each channel mean of a region of fewer than 2^31 pixels is the
    exact mean of the samples rounded once: the float sum of the samples
    is exact, and the relative error of the mean is at most 2^-53. *)
Theorem channel_mean_accuracy (r : ndarray) (c : channel) :
  PixelBuffer r ->
  0 < pixels r < 2 ^ 31 ->
  (Rabs (SF2R (get c (border_means r))
         - IZR (total (samples_of c r)) / IZR (pixels r))
   <= u * (IZR (total (samples_of c r)) / IZR (pixels r)))%R.
Proof.
  intros Hr HN.
  assert (E : get c (border_means r) = np_mean (map of_Z (samples_of c r)))
    by (destruct c; reflexivity).
  rewrite E.
  pose proof (PixelBuffer_samples c r Hr) as Hu.
  destruct (np_mean_uint8_spec (samples_of c r) Hu) as [[Ez ->]|[Hp Hm]].
  - rewrite length_samples_of. exact HN.
  - rewrite Ez. cbn [SF2R zero]. unfold Rdiv. rewrite !Rmult_0_l, Rmult_0_r.
    rewrite Rminus_diag, Rabs_R0. lra.
  - rewrite length_samples_of in Hm. apply rounds_to_error in Hm. exact Hm.
Qed.

Lemma channel_mean_accuracy_witness :
  (Rabs (SF2R (get Red (border_means tinted_frame))
         - IZR (total (samples_of Red tinted_frame)) / IZR (pixels tinted_frame))
   <= u * (IZR (total (samples_of Red tinted_frame)) / IZR (pixels tinted_frame)))%R.
Proof.
  apply (channel_mean_accuracy tinted_frame Red).
  - apply rows_of_PixelBuffer. repeat constructor; cbn [red green blue]; lia.
  - split; reflexivity.
Defined.

(** ** Shape *)

Lemma map_length_map {A B : Type} (f : A -> B) (a : list (list A)) :
  map (@length B) (map (map f) a) = map (@length A) a.
Proof. rewrite map_map. apply map_ext. intros row. apply length_map. Qed.

(** X12: the buffer a stage returns has the shape of its input, the same
    number of rows and the same width in every row. *)
Theorem stages_keep_shape (ic : Z) (a : ndarray) :
  (forall b, run invert a = Returned b ->
             map (@length (rgb Z)) b = map (@length (rgb Z)) a)
  /\ (forall b, run (auto_balance_color ic) a = Returned b ->
                map (@length (rgb Z)) b = map (@length (rgb Z)) a)
  /\ (forall b, run (auto_adjust_exposure ic) a = Returned b ->
                map (@length (rgb Z)) b = map (@length (rgb Z)) a).
Proof.
  split; [|split]; intros b Hb.
  - rewrite run_invert in Hb. injection Hb as <-. apply map_length_map.
  - destruct (run_auto_balance_color_cases ic a) as [[bh E]|[e E]];
      rewrite E in Hb; [|discriminate Hb].
    injection Hb as <-. apply map_length_map.
  - rewrite run_auto_adjust_exposure in Hb. injection Hb as <-.
    apply map_length_map.
Qed.

(** ** The two callers of the stages *)

Lemma shape0_inverted (a : ndarray) : shape0 (inverted a) = shape0 a.
Proof. unfold shape0, inverted. rewrite length_map. reflexivity. Qed.

Lemma border_height_inverted (image : Image) :
  shape0 image < 2 ^ 31 ->
  trunc (mul (of_Z (shape0 (inverted image))) float_0_05)
  = Some (shape0 image / 20).
Proof.
  intros Hh. rewrite shape0_inverted. apply border_height_spec.
  unfold shape0 in *. lia.
Qed.




(** X14: a batch entry that is a regular file, decodes to an image in mode
    RGB of fewer than 2^31 rows and can be written goes through the same
    four stages in the same order as [process_image]: exactly one file is
    written, under the name of the entry in the save folder, and it holds
    the image [process_image] would display for the decoded image. *)
Theorem batch_entry_saves_processed (ic : Z)
    (os_path_isfile : string -> bool)
    (Image_open : string -> outcome Image)
    (Image_save : string -> Image -> outcome unit)
    (Brightness Contrast Sharpness : float64 -> Image -> Image)
    (folder_path save_folder file_name : string) (image : Image) (w : world) :
  os_path_isfile (os_path_join folder_path file_name) = true ->
  Image_open (os_path_join folder_path file_name) = Returned image ->
  shape0 image < 2 ^ 31 ->
  Image_save (os_path_join save_folder file_name)
    (Sharpness float_1_5
       (Contrast float_1_3
          (Brightness float_1_2
             (exposed ic (balanced ic (shape0 image / 20) (inverted image))))))
  = Returned tt ->
  exists arrs,
    loop_body ic os_path_isfile Image_open Image_save
      Brightness Contrast Sharpness folder_path save_folder file_name w
    = (Returned tt,
       World arrs
         (events w
          ++ [Saved (os_path_join save_folder file_name)
                (Sharpness float_1_5
                   (Contrast float_1_3
                      (Brightness float_1_2
                         (exposed ic
                            (balanced ic (shape0 image / 20)
                               (inverted image))))))])).
Proof.
  intros Hf Ho Hh Hs. pose proof (border_height_inverted image Hh) as Eb.
  destruct (entry_run ic os_path_isfile Image_open Image_save
              Brightness Contrast Sharpness folder_path save_folder file_name w)
    as [arrs E].
  exists arrs. rewrite E. do 3 f_equal.
  unfold entry_events. cbv zeta. rewrite Hf. cbn [negb]. rewrite Ho.
  unfold pipeline. cbv zeta. rewrite Eb.
  unfold auto_enhance_image. cbv zeta. rewrite Hs. reflexivity.
Qed.

Lemma batch_entry_saves_processed_witness :
  exists arrs,
    loop_body 0 demo_isfile (demo_open []) demo_save
      demo_enhance demo_enhance demo_enhance "in" "out" "1.png" (World [] [])
    = (Returned tt,
       World arrs
         (events (World [] [])
          ++ [Saved (os_path_join "out" "1.png")
                (demo_enhance float_1_5
                   (demo_enhance float_1_3
                      (demo_enhance float_1_2
                         (exposed 0
                            (balanced 0 (shape0 [[RGB 200 200 200]] / 20)
                               (inverted [[RGB 200 200 200]]))))))])).
Proof.
  apply (batch_entry_saves_processed 0 demo_isfile (demo_open []) demo_save
           demo_enhance demo_enhance demo_enhance "in" "out" "1.png"
           [[RGB 200 200 200]] (World [] [])); reflexivity.
Defined.

(** ** Every file of the batch is accounted for *)

Lemma entry_events_cases (ic : Z)
    (os_path_isfile : string -> bool)
    (Image_open : string -> outcome Image)
    (Image_save : string -> Image -> outcome unit)
    (Brightness Contrast Sharpness : float64 -> Image -> Image)
    (folder_path save_folder file_name : string) :
  (os_path_isfile (os_path_join folder_path file_name) = false
   /\ entry_events ic os_path_isfile Image_open Image_save
        Brightness Contrast Sharpness folder_path save_folder file_name = [])
  \/ (os_path_isfile (os_path_join folder_path file_name) = true
      /\ exists e,
          entry_events ic os_path_isfile Image_open Image_save
            Brightness Contrast Sharpness folder_path save_folder file_name
          = [e]
          /\ ((exists x, e = WarningBox file_name x)
              \/ (exists img,
                     e = Saved (os_path_join save_folder file_name) img))).
Proof.
  unfold entry_events. cbv zeta.
  destruct (os_path_isfile (os_path_join folder_path file_name));
    [right | left; split; reflexivity].
  split; [reflexivity|]. cbn [negb].
  destruct (Image_open (os_path_join folder_path file_name)) as [image|x];
    [|eexists; split; [reflexivity | left; eexists; reflexivity]].
  destruct (pipeline ic Brightness Contrast Sharpness image) as [img|x];
    [|eexists; split; [reflexivity | left; eexists; reflexivity]].
  destruct (Image_save (os_path_join save_folder file_name) img) as [[]|x];
    eexists; (split; [reflexivity|]);
    [right | left]; eexists; reflexivity.
Qed.

(** X15: once both folders are chosen and [os.listdir] has returned the
    listing, the batch returns normally; between the events it found and
    the closing dialog it adds, in the order of the listing, exactly one
    event for each regular file of the listing and none for the other
    entries: for the file [f] either a warning that names [f] or a file
    written under the name [f] in the save folder. *)
Theorem batch_accounts_for_every_file (ic : Z)
    (os_listdir : string -> list string)
    (os_path_isfile : string -> bool)
    (Image_open : string -> outcome Image)
    (Image_save : string -> Image -> outcome unit)
    (Brightness Contrast Sharpness : float64 -> Image -> Image)
    (folder_path save_folder : string) (w : world) :
  is_empty folder_path = false ->
  is_empty save_folder = false ->
  exists arrs es,
    batch_process_images ic os_listdir os_path_isfile Image_open Image_save
      Brightness Contrast Sharpness folder_path save_folder w
    = (Returned tt, World arrs (events w ++ es ++ [InformationBox]))
    /\ Forall2
         (fun f e =>
            (exists x, e = WarningBox f x)
            \/ (exists img, e = Saved (os_path_join save_folder f) img))
         (filter (fun f => os_path_isfile (os_path_join folder_path f))
            (os_listdir folder_path))
         es.
Proof.
  intros H1 H2.
  change (batch_process_images ic os_listdir os_path_isfile Image_open
            Image_save Brightness Contrast Sharpness folder_path save_folder)
    with (if is_empty folder_path then ret tt
          else if is_empty save_folder then ret tt
          else for_each (os_listdir folder_path)
                 (loop_body ic os_path_isfile Image_open Image_save
                    Brightness Contrast Sharpness folder_path save_folder) ;;;
               emit InformationBox).
  rewrite H1, H2. unfold bind.
  destruct (for_each_entries ic os_path_isfile Image_open Image_save
              Brightness Contrast Sharpness folder_path save_folder
              (os_listdir folder_path) w) as [arrs ->].
  exists arrs. eexists. split.
  { unfold emit. cbn [arrays events]. rewrite app_assoc. reflexivity. }
  generalize (os_listdir folder_path). intros l.
  induction l as [|f l IH]; [constructor|].
  cbn [flat_map filter].
  destruct (entry_events_cases ic os_path_isfile Image_open Image_save
              Brightness Contrast Sharpness folder_path save_folder f)
    as [[Hf ->]|[Hf (e & -> & He)]]; rewrite Hf.
  - exact IH.
  - cbn [app]. constructor; [exact He | exact IH].
Qed.

Lemma batch_accounts_for_every_file_witness :
  exists arrs es,
    batch_process_images 0 demo_listdir demo_isfile (demo_open ["in/3.png"%string])
      demo_save demo_enhance demo_enhance demo_enhance "in" "out" (World [] [])
    = (Returned tt,
       World arrs (events (World [] []) ++ es ++ [InformationBox]))
    /\ Forall2
         (fun f e =>
            (exists x, e = WarningBox f x)
            \/ (exists img, e = Saved (os_path_join "out" f) img))
         (filter (fun f => demo_isfile (os_path_join "in" f))
            (demo_listdir "in"))
         es.
Proof.
  exact (batch_accounts_for_every_file 0 demo_listdir demo_isfile
           (demo_open ["in/3.png"%string]) demo_save
           demo_enhance demo_enhance demo_enhance "in" "out" (World [] [])
           eq_refl eq_refl).
Defined.

(** ** The exposure normaliser never overshoots *)

Lemma rescaled_upper (ic : Z) (g : float64) (s : Z) :
  normal g -> (bpow (-64) <= SF2R g <= bpow 64)%R -> uint8 s ->
  (IZR (rescaled ic g s) <= IZR s * SF2R g * (1 + u))%R.
Proof.
  intros Hg Hb [S0 S1].
  destruct (Z.eq_dec s 0) as [->|Hs0].
  - rewrite rescaled_zero by exact Hg. lra.
  - destruct (rescaled_floor ic g s Hg Hb (conj S0 S1)) as [_ [F1 _]].
    pose proof (scaled_sample_spec g s Hg Hb ltac:(lia)) as H.
    rewrite (clip_value _ (rounds_to_normal _ _ H)) in F1.
    pose proof (Rmin_l (SF2R (mul (of_Z s) g)) 255) as Hmin.
    pose proof (rounds_to_error _ _ H) as He.
    apply Rabs_le_between in He. fold u in He. lra.
Qed.

Lemma total_rescaled_upper (ic : Z) (g : float64) (xs : list Z) :
  normal g -> (bpow (-64) <= SF2R g <= bpow 64)%R -> Forall uint8 xs ->
  (IZR (total (map (rescaled ic g) xs)) <= IZR (total xs) * SF2R g * (1 + u))%R.
Proof.
  intros Hg Hb H. induction H as [|x xs Hx _ IH].
  - cbn. lra.
  - pose proof (rescaled_upper ic g x Hg Hb Hx) as Hup.
    cbn [map total fold_right]. fold (total xs).
    fold (total (map (rescaled ic g) xs)).
    rewrite !plus_IZR. lra.
Qed.

(** X16: whatever is clamped, on a buffer with a nonzero sample (fewer
    than 2^31 pixels) the mean sample of the buffer the exposure
    normaliser returns is at most 128.01. *)
Theorem exposure_never_overshoots (ic : Z) (a : ndarray) :
  PixelBuffer a -> pixels a < 2 ^ 31 -> 0 < total (all_samples a) ->
  exists b,
    run (auto_adjust_exposure ic) a = Returned b
    /\ 100 * total (all_samples b) <= 12801 * (3 * pixels a).
Proof.
  intros Ha HP HS. exists (exposed ic a).
  split; [apply run_auto_adjust_exposure|].
  destruct (mean_brightness_spec a Ha HP HS)
    as (NM & MB & Gm & A & E1 & E2 & E3).
  destruct (adjustment_factor_spec a NM MB) as (NF & FB & E4).
  pose proof (SF2R_normal_pos _ NF) as F0.
  assert (HP0 : (0 <= IZR (pixels a))%R).
  { apply (IZR_le 0). unfold pixels. lia. }
  destruct (exposure_real _ _ _ _ _ _ (Rlt_le _ _ F0) HP0 E1 E2 E3 E4) as [X1 _].
  assert (Hu : Forall uint8 (all_samples a)).
  { rewrite all_samples_concat.
    exact (proj1 (proj2 (gray_sum _ (PixelBuffer_concat a Ha)))). }
  pose proof (total_rescaled_upper ic _ _ NF FB Hu) as T2.
  rewrite <- all_samples_exposed in T2.
  pose proof u_value as Uv. fold u in Uv. rewrite Uv in *.
  set (X := (IZR (total (all_samples a)) * SF2R (adjustment_factor_of a))%R) in *.
  apply le_IZR. rewrite !mult_IZR. lra.
Qed.

Lemma exposure_never_overshoots_witness :
  exists b,
    run (auto_adjust_exposure 0) sparse_frame = Returned b
    /\ 100 * total (all_samples b) <= 12801 * (3 * pixels sparse_frame).
Proof.
  apply (exposure_never_overshoots 0 sparse_frame).
  - repeat constructor; cbn [red green blue]; lia.
  - reflexivity.
  - reflexivity.
Defined.

(** ** The direction of the colour balance *)

(** The gray mean against the exact mean of the three channel means. *)
Lemma mean_gray_value (mr mg mb : float64) :
  normal mr -> normal mg -> normal mb ->
  (/ 4294967296 <= SF2R mr <= 256)%R ->
  (/ 4294967296 <= SF2R mg <= 256)%R ->
  (/ 4294967296 <= SF2R mb <= 256)%R ->
  ((SF2R mr + SF2R mg + SF2R mb) * ((1 - u) * (1 - u) * (1 - u))
   <= 3 * SF2R (mean_gray_of (RGB mr mg mb))
   <= (SF2R mr + SF2R mg + SF2R mb) * ((1 + u) * (1 + u) * (1 + u)))%R.
Proof.
  intros Nr Ng Nb Br Bg Bb. unfold mean_gray_of. cbn [red green blue].
  pose proof u_value as Uv. fold u in Uv.
  assert (Big : (1024 < bpow 1023)%R).
  { apply Rle_lt_trans with (bpow 10); [|apply bpow_lt; lia].
    rewrite bpow_IZR by lia. change (2 ^ 10) with 1024. lra. }
  assert (Small : (bpow (-1021) <= / 17179869184)%R).
  { apply Rle_trans with (bpow (-34)); [apply bpow_le; lia|].
    change (-34) with (- (34)). rewrite bpow_neg_IZR by lia.
    change (2 ^ 34) with 17179869184. lra. }
  assert (H1 : rounds_to (SF2R mr + SF2R mg) (add mr mg)).
  { apply add_spec; [exact Nr | exact Ng | lra]. }
  pose proof (rounds_to_error _ _ H1) as E1. apply Rabs_le_between in E1.
  fold u in E1. rewrite Uv in E1.
  assert (H2 : rounds_to (SF2R (add mr mg) + SF2R mb) (add (add mr mg) mb)).
  { apply add_spec; [exact (rounds_to_normal _ _ H1) | exact Nb | lra]. }
  pose proof (rounds_to_error _ _ H2) as E2. apply Rabs_le_between in E2.
  fold u in E2. rewrite Uv in E2.
  assert (H3 : rounds_to (SF2R (add (add mr mg) mb) / SF2R (of_Z 3))
                 (div (add (add mr mg) mb) (of_Z 3))).
  { apply div_spec; [exact (rounds_to_normal _ _ H2) | apply of_Z_3 |].
    rewrite (proj2 of_Z_3). lra. }
  rewrite (proj2 of_Z_3) in H3.
  pose proof (rounds_to_error _ _ H3) as E3. apply Rabs_le_between in E3.
  fold u in E3. rewrite Uv in E3.
  rewrite Uv. unfold add, div in *. split; lra.
Qed.

Lemma mean_order (T T' m m' n : R) :
  (0 < n)%R -> (0 <= T' <= T)%R ->
  (T' * (1 - u) <= m' * n <= T' * (1 + u))%R ->
  (T * (1 - u) <= m * n <= T * (1 + u))%R ->
  (m' * (1 - u) <= m * (1 + u))%R.
Proof.
  intros Hn HT H' H. unfold u in *. rewrite u_value in *.
  apply Rmult_le_reg_r with n; [exact Hn|]. lra.
Qed.

Lemma gain_of_largest (S m G g : R) :
  (0 < m)%R ->
  (S * (1 - u) <= 3 * m * (1 + u))%R ->
  (3 * G <= S * ((1 + u) * (1 + u) * (1 + u)))%R ->
  (g * m <= G * (1 + u))%R ->
  (g * (1 - u) * (1 - u) <= (1 + u) * (1 + u) * (1 + u) * (1 + u) * (1 + u))%R.
Proof.
  intros Hm H1 H2 H3. unfold u in *. rewrite u_value in *.
  apply Rmult_le_reg_r with m; [exact Hm|]. lra.
Qed.

Lemma gain_of_smallest (S m G g : R) :
  (0 < m)%R ->
  (3 * m * (1 - u) <= S * (1 + u))%R ->
  (S * ((1 - u) * (1 - u) * (1 - u)) <= 3 * G)%R ->
  (G * (1 - u) <= g * m)%R ->
  ((1 - u) * (1 - u) * (1 - u) * (1 - u) * (1 - u) <= g * (1 + u) * (1 + u))%R.
Proof.
  intros Hm H1 H2 H3. unfold u in *. rewrite u_value in *.
  apply Rmult_le_reg_r with m; [exact Hm|]. lra.
Qed.

(** The gain of the channel whose border sum is largest raises no
    sample; that of the channel whose border sum is smallest lowers none by
    more than 1. *)
Lemma gains_direction (ic : Z) (a : ndarray) (hi lo : channel) :
  PixelBuffer a ->
  pixels (border_of a) < 2 ^ 31 ->
  (forall c, 0 < total (samples_of c (border_of a))) ->
  (forall c, total (samples_of c (border_of a))
             <= total (samples_of hi (border_of a))) ->
  (forall c, total (samples_of lo (border_of a))
             <= total (samples_of c (border_of a))) ->
  forall s, uint8 s ->
    rescaled ic (get hi (gains_of a)) s <= s
    /\ s - 1 <= rescaled ic (get lo (gains_of a)) s.
Proof.
  intros Ha HN HS Hhi Hlo.
  pose proof u_value as Uv. fold u in Uv.
  set (B := border_of a) in *.
  assert (HB : PixelBuffer B) by (apply PixelBuffer_rows_upto; exact Ha).
  set (m := fun c => np_mean (map of_Z (samples_of c B))).
  set (T := fun c => IZR (total (samples_of c B))).
  set (n := IZR (pixels B)).
  assert (Hm : forall c, normal (m c) /\ (/ 4294967296 <= SF2R (m c) <= 256)%R).
  { intros c. apply channel_mean_bounds;
      [apply PixelBuffer_samples; exact HB | rewrite length_samples_of; exact HN
      | apply HS]. }
  set (G := mean_gray_of (border_means B)).
  assert (HG : normal G /\ (bpow (-34) <= SF2R G <= 257)%R).
  { apply (mean_gray_bounds (m Red) (m Green) (m Blue)); apply Hm. }
  assert (VG : ((SF2R (m Red) + SF2R (m Green) + SF2R (m Blue))
                * ((1 - u) * (1 - u) * (1 - u))
                <= 3 * SF2R G
                <= (SF2R (m Red) + SF2R (m Green) + SF2R (m Blue))
                   * ((1 + u) * (1 + u) * (1 + u)))%R).
  { apply (mean_gray_value (m Red) (m Green) (m Blue)); apply Hm. }
  assert (Hk : forall c, get c (gains_of a) = div G (m c))
    by (intros c; destruct c; reflexivity).
  assert (Hgain : forall c,
             normal (div G (m c))
             /\ (bpow (-64) <= SF2R (div G (m c)) <= bpow 64)%R
             /\ (T c * (1 - u) <= SF2R (m c) * n <= T c * (1 + u))%R
             /\ (SF2R G * (1 - u) <= SF2R (div G (m c)) * SF2R (m c)
                 <= SF2R G * (1 + u))%R).
  { intros c. unfold T, n. rewrite <- (length_samples_of c B).
    apply (gain_spec (samples_of c B) G).
    - apply PixelBuffer_samples; exact HB.
    - rewrite length_samples_of; exact HN.
    - apply HS.
    - apply HG.
    - apply HG. }
  assert (Hn : (0 < n)%R).
  { unfold n. rewrite <- (length_samples_of Red B). apply (IZR_lt 0).
    pose proof (HS Red) as H0.
    destruct (samples_of Red B); [cbn in H0; lia | cbn [length]; lia]. }
  assert (HT : forall c c',
             total (samples_of c' B) <= total (samples_of c B) ->
             (SF2R (m c') * (1 - u) <= SF2R (m c) * (1 + u))%R).
  { intros c c' Hle. destruct (Hgain c) as (_ & _ & Mc & _).
    destruct (Hgain c') as (_ & _ & Mc' & _).
    apply (mean_order (T c) (T c') _ _ n Hn); [|exact Mc' | exact Mc].
    unfold T. split; [apply (IZR_le 0); pose proof (HS c'); lia|].
    apply IZR_le. exact Hle. }
  intros s [S0 S1].
  assert (Hs : (0 <= IZR s <= 255)%R) by (split; apply IZR_le; lia).
  split.
  - rewrite Hk. destruct (Hgain hi) as (Ng & Bg & _ & [_ Gg]).
    destruct (Hm hi) as [Nm [M0 _]].
    pose proof (HT hi Red (Hhi Red)) as L1.
    pose proof (HT hi Green (Hhi Green)) as L2.
    pose proof (HT hi Blue (Hhi Blue)) as L3.
    pose proof (gain_of_largest
                  (SF2R (m Red) + SF2R (m Green) + SF2R (m Blue))
                  (SF2R (m hi)) (SF2R G) (SF2R (div G (m hi)))
                  ltac:(lra) ltac:(lra) (proj2 VG) Gg) as Hg.
    pose proof (rescaled_upper ic _ s Ng Bg (conj S0 S1)) as Hup.
    pose proof (Rmult_le_compat_l (IZR s) _ _ (proj1 Hs) Hg) as Hsg.
    rewrite Uv in *.
    assert (L : (IZR (rescaled ic (div G (m hi)) s) < IZR (s + 1))%R)
      by (rewrite plus_IZR; lra).
    apply lt_IZR in L. lia.
  - rewrite Hk. destruct (Hgain lo) as (Ng & Bg & _ & [Gg _]).
    destruct (Hm lo) as [Nm [M0 _]].
    destruct (Z.eq_dec s 0) as [->|Hs0].
    { rewrite rescaled_zero by exact Ng. lia. }
    pose proof (HT Red lo (Hlo Red)) as L1.
    pose proof (HT Green lo (Hlo Green)) as L2.
    pose proof (HT Blue lo (Hlo Blue)) as L3.
    pose proof (gain_of_smallest
                  (SF2R (m Red) + SF2R (m Green) + SF2R (m Blue))
                  (SF2R (m lo)) (SF2R G) (SF2R (div G (m lo)))
                  ltac:(lra) ltac:(lra) (proj1 VG) Gg) as Hg.
    destruct (rescaled_floor ic _ s Ng Bg (conj S0 S1)) as [_ [_ F2]].
    pose proof (scaled_sample_spec _ s Ng Bg ltac:(lia)) as H.
    rewrite (clip_value _ (rounds_to_normal _ _ H)) in F2.
    pose proof (rounds_to_error _ _ H) as He.
    apply Rabs_le_between in He. fold u in He.
    pose proof (Rmult_le_compat_l (IZR s) _ _ (proj1 Hs) Hg) as Hsg.
    rewrite Uv in *.
    assert (Hp : (IZR s - 1 < SF2R (mul (of_Z s) (div G (m lo))))%R) by lra.
    assert (Hmin : (IZR s - 1
                    < Rmin (SF2R (mul (of_Z s) (div G (m lo)))) 255)%R).
    { apply Rmin_glb_lt; lra. }
    assert (L : (IZR (s - 2) < IZR (rescaled ic (div G (m lo)) s))%R)
      by (rewrite minus_IZR; lra).
    apply lt_IZR in L. lia.
Qed.


(** X17: when every channel of the border has a nonzero sample, the
    balancer never brightens the channel whose border sum is largest (no
    sample of it is raised) and hardly darkens the channel whose border
    sum is smallest (no sample of it is lowered by more than 1, which the
    truncation of the store can take off). *)
Theorem balancer_direction (ic : Z) (a : ndarray) (hi lo : channel) :
  PixelBuffer a ->
  shape0 a < 2 ^ 31 ->
  pixels (border_of a) < 2 ^ 31 ->
  (forall c, 0 < total (samples_of c (border_of a))) ->
  (forall c, total (samples_of c (border_of a))
             <= total (samples_of hi (border_of a))) ->
  (forall c, total (samples_of lo (border_of a))
             <= total (samples_of c (border_of a))) ->
  exists f : channel -> Z -> Z,
    run (auto_balance_color ic) a
    = Returned
        (map (map (fun p =>
                     RGB (f Red (red p)) (f Green (green p)) (f Blue (blue p))))
           a)
    /\ forall s, uint8 s -> f hi s <= s /\ s - 1 <= f lo s.
Proof.
  intros Ha Hh HN HS Hhi Hlo.
  exists (fun c => rescaled ic (get c (gains_of a))).
  split; [apply balanced_map; exact Hh|].
  apply gains_direction; assumption.
Qed.

Lemma balancer_direction_witness :
  exists f : channel -> Z -> Z,
    run (auto_balance_color 0) tinted_frame
    = Returned
        (map (map (fun p =>
                     RGB (f Red (red p)) (f Green (green p)) (f Blue (blue p))))
           tinted_frame)
    /\ forall s, uint8 s -> f Green s <= s /\ s - 1 <= f Red s.
Proof.
  apply (balancer_direction 0 tinted_frame Green Red).
  - apply rows_of_PixelBuffer. repeat constructor; cbn [red green blue]; lia.
  - reflexivity.
  - reflexivity.
  - intros c. destruct c; reflexivity.
  - intros c. destruct c; vm_compute; discriminate.
  - intros c. destruct c; vm_compute; discriminate.
Defined.

(** X19: when the three channels of the border have one and the same
    nonzero sum, the balancer changes no sample by more than one level:
    every sample is kept or lowered by 1. *)
Theorem neutral_border_nearly_identity (ic : Z) (a : ndarray) :
  PixelBuffer a ->
  shape0 a < 2 ^ 31 ->
  pixels (border_of a) < 2 ^ 31 ->
  (forall c, 0 < total (samples_of c (border_of a))) ->
  (forall c c', total (samples_of c (border_of a))
                = total (samples_of c' (border_of a))) ->
  exists f : channel -> Z -> Z,
    run (auto_balance_color ic) a
    = Returned
        (map (map (fun p =>
                     RGB (f Red (red p)) (f Green (green p)) (f Blue (blue p))))
           a)
    /\ forall c s, uint8 s -> s - 1 <= f c s <= s.
Proof.
  intros Ha Hh HN HS Heq.
  exists (fun c => rescaled ic (get c (gains_of a))).
  split; [apply balanced_map; exact Hh|].
  intros c s Hs.
  destruct (gains_direction ic a c c Ha HN HS) with (s := s) as [H1 H2];
    try exact Hs; try (intros c'; rewrite (Heq c' c); lia).
  lia.
Qed.

Lemma neutral_border_nearly_identity_witness :
  exists f : channel -> Z -> Z,
    run (auto_balance_color 0) grey_frame
    = Returned
        (map (map (fun p =>
                     RGB (f Red (red p)) (f Green (green p)) (f Blue (blue p))))
           grey_frame)
    /\ forall c s, uint8 s -> s - 1 <= f c s <= s.
Proof.
  apply (neutral_border_nearly_identity 0 grey_frame).
  - repeat constructor; cbn [red green blue]; lia.
  - reflexivity.
  - reflexivity.
  - intros c. destruct c; reflexivity.
  - intros c c'. destruct c, c'; reflexivity.
Defined.

(** ** A featureless negative *)

Lemma inverted_filled (v : Z) (a : ndarray) :
  0 <= v <= 255 -> inverted (filled v a) = filled (255 - v) a.
Proof.
  intros Hv. unfold inverted, filled. rewrite map_map. apply map_ext. intros row.
  rewrite map_map. apply map_ext. intros _. unfold rgb_map. cbn [red green blue].
  rewrite Z.mod_small by lia. reflexivity.
Qed.

Lemma rows_upto_filled (n v : Z) (a : ndarray) :
  rows_upto n (filled v a) = filled v (rows_upto n a).
Proof. unfold rows_upto, filled. apply firstn_map. Qed.

Lemma shape0_filled (v : Z) (a : ndarray) : shape0 (filled v a) = shape0 a.
Proof. unfold shape0, filled. rewrite length_map. reflexivity. Qed.

Lemma samples_of_filled (c : channel) (v : Z) (a : ndarray) :
  samples_of c (filled v a) = map (fun _ => v) (concat a).
Proof.
  unfold samples_of, take_channel, filled. rewrite map_map, concat_map.
  f_equal. apply map_ext. intros row. rewrite map_map. apply map_ext.
  intros _. destruct c; reflexivity.
Qed.

Lemma filled_PixelBuffer (v : Z) (a : ndarray) :
  uint8 v -> PixelBuffer (filled v a).
Proof.
  intros Hv. unfold PixelBuffer, filled. rewrite Forall_map.
  apply Forall_forall. intros row _. rewrite Forall_map. apply Forall_forall.
  intros p _. repeat split; apply Hv.
Qed.

Lemma pixels_rows_upto_le (n : Z) (a : ndarray) :
  pixels (rows_upto n a) <= pixels a.
Proof.
  unfold pixels, rows_upto.
  rewrite <- (firstn_skipn (Z.to_nat n) a) at 2.
  rewrite concat_app, length_app. lia.
Qed.

Lemma channel_mean_filled (c : channel) (v : Z) (r : ndarray) :
  0 < v <= 255 -> 0 < pixels r < 2 ^ 31 ->
  get c (border_means (filled v r)) = of_Z v.
Proof.
  intros Hv HP.
  assert (E : get c (border_means (filled v r))
              = np_mean (map of_Z (samples_of c (filled v r))))
    by (destruct c; reflexivity).
  rewrite E, samples_of_filled. apply np_mean_constant; [exact Hv | |].
  - apply Forall_forall. intros x Hx. apply in_map_iff in Hx.
    destruct Hx as (p & <- & _). reflexivity.
  - rewrite length_map. exact HP.
Qed.

Lemma mean_gray_equal (v : Z) :
  0 < v <= 255 -> mean_gray_of (RGB (of_Z v) (of_Z v) (of_Z v)) = of_Z v.
Proof.
  intros Hv. destruct (of_Z_exact v ltac:(lia)) as [Nv _].
  rewrite <- (np_mean_constant v [v; v; v] Hv) at 4;
    [|repeat constructor | cbn [length]; lia].
  unfold mean_gray_of, np_mean, np_sum. cbn [red green blue map length].
  change (pairwise_sum 3 [of_Z v; of_Z v; of_Z v])
    with (fold_left add [of_Z v; of_Z v; of_Z v] neg_zero).
  cbn [fold_left]. rewrite !add_neg_zero. reflexivity.
Qed.

Lemma balanced_filled (ic v : Z) (a : ndarray) :
  0 < v <= 255 -> 0 < pixels (border_of a) -> pixels a < 2 ^ 31 ->
  balanced ic (shape0 a / 20) (filled v a) = filled v a.
Proof.
  intros Hv HB HP.
  assert (HB' : 0 < pixels (rows_upto (shape0 a / 20) a) < 2 ^ 31).
  { pose proof (pixels_rows_upto_le (shape0 a / 20) a). unfold border_of in HB. lia. }
  unfold balanced. rewrite rows_upto_filled.
  assert (Em : border_means (filled v (rows_upto (shape0 a / 20) a))
               = RGB (of_Z v) (of_Z v) (of_Z v)).
  { pose proof (channel_mean_filled Red v _ Hv HB') as Er.
    pose proof (channel_mean_filled Green v _ Hv HB') as Eg.
    pose proof (channel_mean_filled Blue v _ Hv HB') as Eb.
    cbn [get] in Er, Eg, Eb.
    destruct (border_means (filled v (rows_upto (shape0 a / 20) a))) as [r g b].
    cbn [red green blue] in *. subst. reflexivity. }
  rewrite Em. unfold corrections, rgb_map. cbn [red green blue].
  rewrite (mean_gray_equal v Hv).
  rewrite (div_self _ (proj1 (of_Z_exact v ltac:(lia)))).
  apply apply_corrections_one. apply filled_PixelBuffer. unfold uint8. lia.
Qed.

(** X18: a featureless negative, one value [v] below 255 throughout (at
    least 20 rows, a border that is not empty, fewer than 2^31 rows and
    pixels), goes through the three numeric stages as follows: the
    inverter returns the buffer of value [255 - v]; the balancer, whose
    three gains are exactly 1.0, returns that buffer unchanged; the
    exposure normaliser returns the buffer of value 128 (127 for fourteen
    values of [255 - v]). *)
Theorem uniform_negative_to_midgray (ic v : Z) (a : ndarray) :
  0 <= v < 255 ->
  shape0 a < 2 ^ 31 ->
  0 < pixels (border_of a) ->
  pixels a < 2 ^ 31 ->
  run invert (filled v a) = Returned (filled (255 - v) a)
  /\ run (auto_balance_color ic) (filled (255 - v) a)
     = Returned (filled (255 - v) a)
  /\ run (auto_adjust_exposure ic) (filled (255 - v) a)
     = Returned
         (filled
            (if existsb (Z.eqb (255 - v))
                  [49; 98; 103; 107; 161; 187; 196; 197; 206; 214; 237; 239;
                   249; 253]
             then 127 else 128) a).
Proof.
  intros Hv Hh HB HP.
  assert (Hx : 0 < 255 - v <= 255) by lia.
  assert (HP' : 0 < pixels a < 2 ^ 31).
  { pose proof (pixels_rows_upto_le (shape0 a / 20) a). unfold border_of in HB. lia. }
  split; [|split].
  - rewrite run_invert. f_equal. apply inverted_filled. lia.
  - rewrite run_auto_balance_color by (rewrite shape0_filled; exact Hh).
    f_equal. rewrite shape0_filled. apply balanced_filled; assumption.
  - rewrite run_auto_adjust_exposure. f_equal.
    unfold exposed, adjustment_factor_of.
    rewrite (mean_brightness_filled _ a Hx HP').
    unfold filled. rewrite map_map. apply map_ext. intros row.
    rewrite map_map. apply map_ext. intros _.
    unfold rgb_map. cbn [red green blue]. rewrite uniform_tone by exact Hx.
    reflexivity.
Qed.

Lemma uniform_negative_to_midgray_witness :
  run invert (filled 0 tinted_frame) = Returned (filled (255 - 0) tinted_frame)
  /\ run (auto_balance_color 0) (filled (255 - 0) tinted_frame)
     = Returned (filled (255 - 0) tinted_frame)
  /\ run (auto_adjust_exposure 0) (filled (255 - 0) tinted_frame)
     = Returned
         (filled
            (if existsb (Z.eqb (255 - 0))
                  [49; 98; 103; 107; 161; 187; 196; 197; 206; 214; 237; 239;
                   249; 253]
             then 127 else 128) tinted_frame).
Proof.
  apply (uniform_negative_to_midgray 0 0 tinted_frame).
  - lia.
  - reflexivity.
  - reflexivity.
  - reflexivity.
Defined.

(** ** Range of the samples after each stage (C3) *)






